(** * diagramAI: the flow layout pass and the traversal simulation

    A shallow embedding of
    - [src/hooks/useSimulation.ts]    (the simulation state machine), and
    - [src/hooks/useFlowGenerator.ts] (layout, branch-side normalization,
      condition handle map, conversion to React Flow nodes and edges),
    together with the properties their design description states.

    Conventions.
    - JavaScript strings are [string]; a [Set<string>] that is only queried
      with [has] is a [gset string]; a [Set<string>] that is iterated is a
      duplicate-free [list string] in insertion order; a [Map]/[Record]
      keyed by strings is a [gmap string _].
    - Coordinates are exact integers ([Z]).
    - A computation that may throw returns [option]: [None] means that the
      JavaScript function does not return a value. *)

From stdpp Require Import base option list gmap strings pretty.
From Stdlib Require Import Ascii ZArith Lia.

Local Open Scope Z_scope.

(** ** Strings *)

(** [String.prototype.toLowerCase], restricted to what the code observes:
    the result is only ever compared with the ASCII literals ["yes"] and
    ["no"], and no character outside [A-Z] lower-cases to one of the letters
    [y e s n o]; bytes above 127 are left alone. *)
Definition lowerAscii (c : ascii) : ascii :=
  let n := nat_of_ascii c in
  if ((65 <=? n)%nat && (n <=? 90)%nat)%bool then ascii_of_nat (n + 32) else c.

Fixpoint toLowerCase (s : string) : string :=
  match s with
  | EmptyString => EmptyString
  | String c r => String (lowerAscii c) (toLowerCase r)
  end.

Inductive Branch := Yes | No.

#[global] Instance Branch_eq_dec : EqDecision Branch.
Proof. solve_decision. Defined.

Definition branchName (b : Branch) : string :=
  match b with Yes => "yes" | No => "no" end.

(** [labelStr === 'yes' || labelStr === 'no' ? labelStr : undefined] on an
    already lower-cased, possibly absent label. *)
Definition branchOfLower (l : option string) : option Branch :=
  match l with
  | Some s =>
      if decide (s = "yes") then Some Yes
      else if decide (s = "no") then Some No
      else None
  | None => None
  end.

(** [label?.toLowerCase()] followed by the yes/no test. *)
Definition branchOfLabel (l : option string) : option Branch :=
  branchOfLower (toLowerCase <$> l).

(** ** The simulation engine ([useSimulation.ts]) *)

Module Sim.

(** The React Flow [Node] and [Edge] fields the hook reads.  [edge.label]
    is a [ReactNode]; [e_label] is [Some s] exactly when
    [typeof edge.label === 'string']. *)
Record Node := mkNode {
  n_id : string;
  n_type : option string
}.

Record Edge := mkEdge {
  e_id : string;
  e_source : string;
  e_target : string;
  e_label : option string;
  e_sourceHandle : option string
}.

Inductive SimulationStatus := idle | running | paused | stopped | complete.

#[global] Instance SimulationStatus_eq_dec : EqDecision SimulationStatus.
Proof. solve_decision. Defined.

Record Neighbor := mkNeighbor {
  targetId : string;
  edgeId : string;
  branch : option Branch
}.

(** The value computed by the [useMemo] block. *)
Record Maps := mkMaps {
  adjacencyMap : gmap string (list Neighbor);
  nodeTypeMap : gmap string string;
  startNodeId : option string
}.

Definition addNode (m : Maps) (node : Node) : Maps :=
  {| nodeTypeMap := <[n_id node := default "action" (n_type node)]> (nodeTypeMap m);
     adjacencyMap := <[n_id node := []]> (adjacencyMap m);
     startNodeId := if decide (n_type node = Some "start") then Some (n_id node)
                    else startNodeId m |}.

(** The object pushed for an edge; [branch] comes from the visible label. *)
Definition neighborOfEdge (edge : Edge) : Neighbor :=
  {| targetId := e_target edge; edgeId := e_id edge;
     branch := branchOfLabel (e_label edge) |}.

Definition addEdge (m : Maps) (edge : Edge) : Maps :=
  let adj :=
    match adjacencyMap m !! e_source edge with
    | Some _ => adjacencyMap m
    | None => <[e_source edge := []]> (adjacencyMap m)
    end in
  {| adjacencyMap :=
       <[e_source edge := default [] (adj !! e_source edge) ++ [neighborOfEdge edge]]> adj;
     nodeTypeMap := nodeTypeMap m;
     startNodeId := startNodeId m |}.

Definition buildMaps (nodes : list Node) (edges : list Edge) : Maps :=
  foldl addEdge
        (foldl addNode {| adjacencyMap := ∅; nodeTypeMap := ∅; startNodeId := None |} nodes)
        edges.

(** [adjacencyMap.get(id) ?? []] *)
Definition neighborsOf (m : Maps) (id : string) : list Neighbor :=
  default [] (adjacencyMap m !! id).

(** A callback registered with [setTimeout] and not yet run or cancelled:
    it will call [advanceRef.current(tm_target)]. *)
Record Timer := mkTimer {
  tm_handle : nat;
  tm_delay : nat;
  tm_target : string
}.

(** The hook's state: the four [useState] cells (the observable
    SimulationState), the [timerRef] cell, and the browser's table of
    pending timeouts created by this hook. *)
Record State := mkState {
  status : SimulationStatus;
  activeNodeId : option string;
  visitedNodeIds : gset string;
  visitedEdgeIds : gset string;
  timerRef : option nat;
  pending : list Timer;
  nextHandle : nat
}.

Definition initial : State :=
  {| status := idle; activeNodeId := None; visitedNodeIds := ∅; visitedEdgeIds := ∅;
     timerRef := None; pending := []; nextHandle := 0 |}.

(** The observable part. *)
Definition observable (s : State)
  : SimulationStatus * option string * gset string * gset string :=
  (status s, activeNodeId s, visitedNodeIds s, visitedEdgeIds s).

Definition setStatus (v : SimulationStatus) (s : State) : State :=
  {| status := v; activeNodeId := activeNodeId s; visitedNodeIds := visitedNodeIds s;
     visitedEdgeIds := visitedEdgeIds s; timerRef := timerRef s; pending := pending s;
     nextHandle := nextHandle s |}.

Definition setActiveNodeId (v : option string) (s : State) : State :=
  {| status := status s; activeNodeId := v; visitedNodeIds := visitedNodeIds s;
     visitedEdgeIds := visitedEdgeIds s; timerRef := timerRef s; pending := pending s;
     nextHandle := nextHandle s |}.

Definition setVisitedNodeIds (f : gset string → gset string) (s : State) : State :=
  {| status := status s; activeNodeId := activeNodeId s; visitedNodeIds := f (visitedNodeIds s);
     visitedEdgeIds := visitedEdgeIds s; timerRef := timerRef s; pending := pending s;
     nextHandle := nextHandle s |}.

Definition setVisitedEdgeIds (f : gset string → gset string) (s : State) : State :=
  {| status := status s; activeNodeId := activeNodeId s; visitedNodeIds := visitedNodeIds s;
     visitedEdgeIds := f (visitedEdgeIds s); timerRef := timerRef s; pending := pending s;
     nextHandle := nextHandle s |}.

(** [timerRef.current = setTimeout(() => advanceRef.current(target), delay)] *)
Definition scheduleAdvance (target : string) (delay : nat) (s : State) : State :=
  {| status := status s; activeNodeId := activeNodeId s; visitedNodeIds := visitedNodeIds s;
     visitedEdgeIds := visitedEdgeIds s;
     timerRef := Some (nextHandle s);
     pending := pending s ++ [ {| tm_handle := nextHandle s; tm_delay := delay;
                                  tm_target := target |} ];
     nextHandle := S (nextHandle s) |}.

Definition cancel (h : nat) (l : list Timer) : list Timer :=
  filter (λ t, tm_handle t ≠ h) l.

Definition clearTimer (s : State) : State :=
  match timerRef s with
  | Some h =>
      {| status := status s; activeNodeId := activeNodeId s;
         visitedNodeIds := visitedNodeIds s; visitedEdgeIds := visitedEdgeIds s;
         timerRef := None; pending := cancel h (pending s); nextHandle := nextHandle s |}
  | None => s
  end.

Definition reset (s : State) : State :=
  setVisitedEdgeIds (λ _, ∅)
    (setVisitedNodeIds (λ _, ∅)
      (setActiveNodeId None (setStatus idle (clearTimer s)))).

Definition advance (m : Maps) (nodeId : string) (s : State) : State :=
  let nodeType := default "action" (nodeTypeMap m !! nodeId) in
  let s := setActiveNodeId (Some nodeId) s in
  let s := setVisitedNodeIds (λ prev, prev ∪ {[nodeId]}) s in
  if decide (nodeType = "end") then setStatus complete s
  else if decide (nodeType = "condition") then setStatus paused s
  else
    let s := setStatus running s in
    match neighborsOf m nodeId with
    | [] => setStatus complete s
    | next :: _ =>
        let s := setVisitedEdgeIds (λ prev, prev ∪ {[edgeId next]}) s in
        scheduleAdvance (targetId next) 800 s
    end.

(** [!startNodeId] holds for [null] and for the empty string. *)
Definition falsy (o : option string) : bool :=
  match o with
  | None => true
  | Some s => bool_decide (s = "")
  end.

Definition start (m : Maps) (s : State) : State :=
  let s := clearTimer s in
  let s := setStatus running s in
  let s := setActiveNodeId None s in
  let s := setVisitedNodeIds (λ _, ∅) s in
  let s := setVisitedEdgeIds (λ _, ∅) s in
  match startNodeId m with
  | Some n => if falsy (Some n) then s else scheduleAdvance n 50 s
  | None => s
  end.

Definition pause (s : State) : State := setStatus stopped (clearTimer s).

Definition resume (m : Maps) (s : State) : State :=
  match activeNodeId s with
  | None => s
  | Some a => advance m a s
  end.

(** [neighbors.find(n => n.branch === branch)] *)
Definition findBranch (b : Branch) (l : list Neighbor) : option Neighbor :=
  List.find (λ n, bool_decide (branch n = Some b)) l.

Definition choose (m : Maps) (b : Branch) (s : State) : State :=
  match status s, activeNodeId s with
  | paused, Some a =>
      match findBranch b (neighborsOf m a) with
      | None => s
      | Some chosen =>
          let s := setStatus running s in
          let s := setVisitedEdgeIds (λ prev, prev ∪ {[edgeId chosen]}) s in
          scheduleAdvance (targetId chosen) 50 s
      end
  | _, _ => s
  end.

(** A pending timeout with handle [h] expires: the browser drops it from its
    table and runs the callback.  Nothing happens for a handle that is not
    pending (already run or cancelled). *)
Definition fire (m : Maps) (h : nat) (s : State) : State :=
  match List.find (λ t, bool_decide (tm_handle t = h)) (pending s) with
  | None => s
  | Some t =>
      advance m (tm_target t)
        {| status := status s; activeNodeId := activeNodeId s;
           visitedNodeIds := visitedNodeIds s; visitedEdgeIds := visitedEdgeIds s;
           timerRef := timerRef s; pending := cancel h (pending s);
           nextHandle := nextHandle s |}
  end.

(** Everything that can happen to the hook between two renders: a call of
    one of the returned functions, or the expiry of a pending timeout. *)
Inductive Op :=
  | OpStart
  | OpPause
  | OpResume
  | OpChoose (b : Branch)
  | OpReset
  | OpFire (h : nat).

Definition step (m : Maps) (s : State) (o : Op) : State :=
  match o with
  | OpStart => start m s
  | OpPause => pause s
  | OpResume => resume m s
  | OpChoose b => choose m b s
  | OpReset => reset s
  | OpFire h => fire m h s
  end.

Definition run (m : Maps) (ops : list Op) : State := foldl (step m) initial ops.

(** Handles are handed out in increasing order, so a pending timeout never
    carries a handle that [setTimeout] has yet to return. *)
Definition handlesFresh (s : State) : Prop :=
  Forall (λ t, (tm_handle t < nextHandle s)%nat) (pending s).

End Sim.

(** ** The layout engine ([useFlowGenerator.ts]) *)

Module Layout.

Inductive LayoutDirection := TB | LR.

(** [z.enum(['start', 'end', 'action', 'condition'])] *)
Inductive NodeType := TStart | TEnd | TAction | TCondition.

#[global] Instance NodeType_eq_dec : EqDecision NodeType.
Proof. solve_decision. Defined.

Definition typeName (t : NodeType) : string :=
  match t with
  | TStart => "start"
  | TEnd => "end"
  | TAction => "action"
  | TCondition => "condition"
  end.

Record FlowNode := mkFlowNode {
  fn_id : string;
  fn_label : string;
  fn_type : NodeType
}.

Record FlowEdge := mkFlowEdge {
  fe_from : string;
  fe_to : string;
  fe_label : option string
}.

Record FlowGraph := mkFlowGraph {
  nodes : list FlowNode;
  edges : list FlowEdge
}.

Record Pos := mkPos { px : Z; py : Z }.

#[global] Instance Pos_eq_dec : EqDecision Pos.
Proof. solve_decision. Defined.

Inductive Axis := AxisX | AxisY.

Definition getAxis (a : Axis) (p : Pos) : Z :=
  match a with AxisX => px p | AxisY => py p end.

(** [{ ...p, [axis]: v }] *)
Definition setAxis (a : Axis) (v : Z) (p : Pos) : Pos :=
  match a with
  | AxisX => {| px := v; py := py p |}
  | AxisY => {| px := px p; py := v |}
  end.

(** [validateFlow] of [services/groq.ts], run on every generated graph
    before it is laid out: [inl msg] when it throws [Error(msg)], [inr ()]
    when it returns. *)
Definition validateFlow (graph : FlowGraph) : string + unit :=
  match List.find (λ n, bool_decide (fn_type n = TStart)) (nodes graph) with
  | None => inl "Missing start node"
  | Some _ =>
      match List.find (λ n, bool_decide (fn_type n = TEnd)) (nodes graph) with
      | None => inl "Missing end node"
      | Some _ =>
          let nodeIds := fn_id <$> nodes graph in
          foldl (λ acc edge,
                   match acc with
                   | inl msg => inl msg
                   | inr _ =>
                       if decide (fe_from edge ∉ nodeIds)
                       then inl ("Edge references unknown node: " +:+ fe_from edge)
                       else if decide (fe_to edge ∉ nodeIds)
                       then inl ("Edge references unknown node: " +:+ fe_to edge)
                       else inr ()
                   end)
                (inr ()) (edges graph)
      end
  end.

(** (width, height) *)
Definition getNodeSize (t : NodeType) : Z * Z :=
  if decide (t = TCondition) then (120, 120) else (180, 60).

(** *** getSubtree *)

(** [for (const edge of graph.edges) if (edge.from === id) queue.push(edge.to)] *)
Definition successors (es : list FlowEdge) (id : string) : list string :=
  fe_to <$> filter (λ e, fe_from e = id) es.

(** The [while (queue.length > 0)] loop; one unit of [fuel] per iteration. *)
Fixpoint getSubtreeLoop (fuel : nat) (es : list FlowEdge) (excludeId : string)
    (visited queue : list string) : option (list string) :=
  match queue with
  | [] => Some visited
  | id :: rest =>
      match fuel with
      | O => None
      | S fuel' =>
          if decide (id ∈ visited ∨ id = excludeId)
          then getSubtreeLoop fuel' es excludeId visited rest
          else getSubtreeLoop fuel' es excludeId (visited ++ [id])
                              (rest ++ successors es id)
      end
  end.

(** Every id the loop can meet: the start and the edge targets; and those
    of them not yet visited, whose number bounds the iterations left. *)
Definition candidates (es : list FlowEdge) (startId : string) : list string :=
  startId :: (fe_to <$> es).

Definition unvisited (es : list FlowEdge) (startId : string) (visited : list string)
  : list string :=
  filter (λ x, x ∉ visited) (candidates es startId).

(** Iterations that always suffice (see [getSubtreeLoop_total]). *)
Definition subtreeFuel (es : list FlowEdge) : nat :=
  (S (length es) * S (length es) + 1)%nat.

Definition getSubtree (graph : FlowGraph) (startId excludeId : string)
  : option (list string) :=
  getSubtreeLoop (subtreeFuel (edges graph)) (edges graph) excludeId [] [startId].

(** *** enforceYesOnRight *)

Definition isLabelled (b : Branch) (e : FlowEdge) : bool :=
  bool_decide (branchOfLabel (fe_label e) = Some b).

Definition outEdgesOf (graph : FlowGraph) (id : string) : list FlowEdge :=
  filter (λ e, fe_from e = id) (edges graph).

Definition yesIsCorrect (direction : LayoutDirection) (yesRoot noRoot : Pos) : bool :=
  match direction with
  | TB => bool_decide (px noRoot ≤ px yesRoot)
  | LR => bool_decide (py yesRoot ≤ py noRoot)
  end.

Definition normAxis (direction : LayoutDirection) : Axis :=
  match direction with TB => AxisX | LR => AxisY end.

(** [for (const id of yesSubtree) if (noSubtree.has(id))
      { yesSubtree.delete(id); noSubtree.delete(id); }] *)
Definition dropShared (yesSubtree noSubtree : list string) : list string * list string :=
  foldl (λ acc id,
           if decide (id ∈ acc.2)
           then (filter (λ j, j ≠ id) acc.1, filter (λ j, j ≠ id) acc.2)
           else acc)
        (yesSubtree, noSubtree) yesSubtree.

(** [{ ...p, [axis]: p[axis] + delta }] *)
Definition shiftBy (axis : Axis) (delta : Z) (p : Pos) : Pos :=
  setAxis axis (getAxis axis p + delta) p.

(** [for (const id of ids)
      positions[id] = { ...positions[id], [axis]: positions[id][axis] + delta }];
    reading [positions[id][axis]] of a missing entry throws. *)
Fixpoint translate (axis : Axis) (delta : Z) (ids : list string)
    (positions : gmap string Pos) : option (gmap string Pos) :=
  match ids with
  | [] => Some positions
  | id :: rest =>
      match positions !! id with
      | None => None
      | Some p =>
          translate axis delta rest (<[id := shiftBy axis delta p]> positions)
      end
  end.

(** The body of the [for (const node of graph.nodes)] loop.  [positions] is
    the map of the own properties of the object the code indexes, so
    [positions !! id] is [positions[id]] for every id that has a position
    and for every id that is not the name of a property of
    [Object.prototype]; every id the loop reads is the target of an edge. *)
Definition enforceNode (graph : FlowGraph) (direction : LayoutDirection)
    (positions : gmap string Pos) (node : FlowNode) : option (gmap string Pos) :=
  if decide (fn_type node ≠ TCondition) then Some positions else
  let outEdges := outEdgesOf graph (fn_id node) in
  match List.find (isLabelled Yes) outEdges, List.find (isLabelled No) outEdges with
  | Some yesEdge, Some noEdge =>
      match positions !! fe_to yesEdge, positions !! fe_to noEdge with
      | Some yesRoot, Some noRoot =>
          let axis := normAxis direction in
          if yesIsCorrect direction yesRoot noRoot then Some positions else
          yesSubtree ← getSubtree graph (fe_to yesEdge) (fn_id node);
          noSubtree ← getSubtree graph (fe_to noEdge) (fn_id node);
          let '(yesSubtree, noSubtree) := dropShared yesSubtree noSubtree in
          let delta := getAxis axis noRoot - getAxis axis yesRoot in
          positions ← translate axis delta yesSubtree positions;
          translate axis (- delta) noSubtree positions
      | _, _ => Some positions
      end
  | _, _ => Some positions
  end.

Definition enforceYesOnRight (graph : FlowGraph) (positions : gmap string Pos)
    (direction : LayoutDirection) : option (gmap string Pos) :=
  foldl (λ acc node, positions ← acc; enforceNode graph direction positions node)
        (Some positions) (nodes graph).

(** *** buildConditionHandleMap *)

(** The template string with the arrow between [from] and [to]. *)
Definition handleKey (from to : string) : string := from +:+ "→" +:+ to.

Definition buildConditionHandleMap (graph : FlowGraph) : gmap string Branch :=
  foldl (λ map edge,
           match branchOfLabel (fe_label edge) with
           | Some label => <[handleKey (fe_from edge) (fe_to edge) := label]> map
           | None => map
           end)
        ∅ (edges graph).

(** *** computeLayout and transformToReactFlow *)

(** The comparator passed to [Array.prototype.sort]. *)
Definition compareEdges (a b : FlowEdge) : Z :=
  let aLabel := default "" (toLowerCase <$> fe_label a) in
  let bLabel := default "" (toLowerCase <$> fe_label b) in
  if decide (aLabel = "no" ∧ bLabel = "yes") then -1
  else if decide (aLabel = "yes" ∧ bLabel = "no") then 1
  else 0.

Definition edgeWeight (e : FlowEdge) : Z :=
  if decide (toLowerCase <$> fe_label e = Some "yes") then 2 else 1.

Record RFNode := mkRFNode {
  rn_id : string;
  rn_type : string;
  rn_position : Pos;
  rn_label : string
}.

(** The fields [type], [animated] and [markerEnd] are the same constants on
    every edge and are left out. *)
Record RFEdge := mkRFEdge {
  re_id : string;
  re_source : string;
  re_target : string;
  re_label : option string;
  re_sourceHandle : option Branch
}.

Section WithLibraries.

(** The two library routines the layout calls.  [arraySort] is
    [Array.prototype.sort] on a copy; [dagreLayout direction sizes links]
    is the centre that [dagre.layout] leaves in [g.node(id)] for a graph
    with [rankdir = direction], [nodesep = 60], [ranksep = 80], margins 40,
    nodes of the given sizes and edges of the given weights.  Both are
    taken as having returned: a run in which the library call itself
    throws is not described by [computeLayout], whose [None] is a throw of
    the code of [useFlowGenerator.ts]. *)
Variable arraySort : (FlowEdge → FlowEdge → Z) → list FlowEdge → list FlowEdge.
Variable dagreLayout :
  LayoutDirection → list (string * (Z * Z)) → list (string * string * Z) → string → Pos.

Definition computeLayout (rawNodes : list FlowNode) (rawEdges : list FlowEdge)
    (direction : LayoutDirection) : option (gmap string Pos) :=
  let sizes := (λ n, (fn_id n, getNodeSize (fn_type n))) <$> rawNodes in
  let sortedEdges := arraySort compareEdges rawEdges in
  let links := (λ e, (fe_from e, fe_to e, edgeWeight e)) <$> sortedEdges in
  let centre := dagreLayout direction sizes links in
  let positions :=
    foldl (λ acc node,
             let '(width, height) := getNodeSize (fn_type node) in
             <[fn_id node := {| px := px (centre (fn_id node)) - width / 2;
                                py := py (centre (fn_id node)) - height / 2 |}]> acc)
          ∅ rawNodes in
  enforceYesOnRight {| nodes := rawNodes; edges := rawEdges |} positions direction.

Definition toRFNode (positions : gmap string Pos) (node : FlowNode) : RFNode :=
  {| rn_id := fn_id node;
     rn_type := typeName (fn_type node);
     rn_position := default {| px := 0; py := 0 |} (positions !! fn_id node);
     rn_label := fn_label node |}.

Definition toRFEdge (graph : FlowGraph) (handleMap : gmap string Branch)
    (i : nat) (edge : FlowEdge) : RFEdge :=
  let sourceNode := List.find (λ n, bool_decide (fn_id n = fe_from edge)) (nodes graph) in
  {| re_id := "e" +:+ pretty i;
     re_source := fe_from edge;
     re_target := fe_to edge;
     re_label := fe_label edge;
     re_sourceHandle :=
       if decide (fn_type <$> sourceNode = Some TCondition)
       then handleMap !! handleKey (fe_from edge) (fe_to edge)
       else None |}.

Definition transformToReactFlow (graph : FlowGraph) (direction : LayoutDirection)
  : option (list RFNode * list RFEdge) :=
  positions ← computeLayout (nodes graph) (edges graph) direction;
  let handleMap := buildConditionHandleMap graph in
  Some (toRFNode positions <$> nodes graph, imap (toRFEdge graph handleMap) (edges graph)).

End WithLibraries.

End Layout.

(** ** The position-driven handle map of the earlier [useFlowGenerator.ts] *)

Module Positional.
Import Layout.

(** [positions[e.to]?.[axis] ?? 0] *)
Definition axisOrZero (positions : gmap string Pos) (axis : Axis) (id : string) : Z :=
  default 0 (getAxis axis <$> positions !! id).

Definition buildConditionHandleMap (graph : FlowGraph) (positions : gmap string Pos)
    (direction : LayoutDirection) : gmap string Branch :=
  let axis := match direction with LR => AxisY | TB => AxisX end in
  foldl (λ map node,
           if decide (fn_type node ≠ TCondition) then map else
           match outEdgesOf graph (fn_id node) with
           | [a; b] =>
               let aVal := axisOrZero positions axis (fe_to a) in
               let bVal := axisOrZero positions axis (fe_to b) in
               let firstEdge := if bool_decide (aVal ≤ bVal) then a else b in
               let secondEdge := if bool_decide (aVal ≤ bVal) then b else a in
               match direction with
               | TB =>
                   <[handleKey (fe_from secondEdge) (fe_to secondEdge) := Yes]>
                     (<[handleKey (fe_from firstEdge) (fe_to firstEdge) := No]> map)
               | LR =>
                   <[handleKey (fe_from secondEdge) (fe_to secondEdge) := No]>
                     (<[handleKey (fe_from firstEdge) (fe_to firstEdge) := Yes]> map)
               end
           | _ => map
           end)
        ∅ (nodes graph).

End Positional.

(** ** Concrete graphs *)

Module Examples.

(** start(1) -> action(2) -> condition(3) {yes -> end(4), no -> end(5)}, with
    the source handles set against the labels. *)
Definition scenarioNodes : list Sim.Node :=
  [ Sim.mkNode "1" (Some "start"); Sim.mkNode "2" (Some "action");
    Sim.mkNode "3" (Some "condition"); Sim.mkNode "4" (Some "end");
    Sim.mkNode "5" (Some "end") ].

Definition scenarioEdges : list Sim.Edge :=
  [ Sim.mkEdge "e0" "1" "2" None None; Sim.mkEdge "e1" "2" "3" None None;
    Sim.mkEdge "e2" "3" "4" (Some "Yes") (Some "no");
    Sim.mkEdge "e3" "3" "5" (Some "No") (Some "yes") ].

Definition scenario : Sim.Maps := Sim.buildMaps scenarioNodes scenarioEdges.

(** The scenario run up to the pause at the condition node. *)
Definition atCondition : Sim.State :=
  Sim.run scenario [Sim.OpStart; Sim.OpFire 0; Sim.OpFire 1; Sim.OpFire 2].

(** A graph that is a single action node (no start node), and a graph
    whose condition node has no outgoing edge. *)
Definition loneAction : Sim.Maps := Sim.buildMaps [Sim.mkNode "a" (Some "action")] [].

Definition deadEnd : Sim.Maps :=
  Sim.buildMaps
    [ Sim.mkNode "1" (Some "start"); Sim.mkNode "2" (Some "condition");
      Sim.mkNode "3" (Some "end") ]
    [ Sim.mkEdge "e0" "1" "2" None None ].

(** A payment flow with two decisions whose branches overlap: the "no"
    branch of the second decision leads back into the "yes" target of the
    first. *)
Definition paymentGraph : Layout.FlowGraph :=
  {| Layout.nodes :=
       [ Layout.mkFlowNode "1" "Start" Layout.TStart;
         Layout.mkFlowNode "2" "Paid?" Layout.TCondition;
         Layout.mkFlowNode "3" "Retry?" Layout.TCondition;
         Layout.mkFlowNode "4" "Done" Layout.TEnd;
         Layout.mkFlowNode "5" "Cancel" Layout.TEnd;
         Layout.mkFlowNode "6" "Notify" Layout.TAction ];
     Layout.edges :=
       [ Layout.mkFlowEdge "1" "2" None;
         Layout.mkFlowEdge "2" "4" (Some "Yes"); Layout.mkFlowEdge "2" "3" (Some "No");
         Layout.mkFlowEdge "3" "5" (Some "Yes"); Layout.mkFlowEdge "3" "6" (Some "No");
         Layout.mkFlowEdge "6" "4" None ] |}.

Definition paymentPositions : gmap string Layout.Pos :=
  list_to_map
    [ ("1", Layout.mkPos 100 0); ("2", Layout.mkPos 100 100); ("3", Layout.mkPos 200 200);
      ("4", Layout.mkPos 0 400); ("5", Layout.mkPos 100 300); ("6", Layout.mkPos 300 300) ].

(** One decision whose "no" branch rejoins the "yes" target. *)
Definition rejoinGraph : Layout.FlowGraph :=
  {| Layout.nodes :=
       [ Layout.mkFlowNode "1" "Start" Layout.TStart;
         Layout.mkFlowNode "2" "Ok?" Layout.TCondition;
         Layout.mkFlowNode "3" "Done" Layout.TEnd;
         Layout.mkFlowNode "4" "Fix" Layout.TAction ];
     Layout.edges :=
       [ Layout.mkFlowEdge "1" "2" None;
         Layout.mkFlowEdge "2" "3" (Some "Yes"); Layout.mkFlowEdge "2" "4" (Some "No");
         Layout.mkFlowEdge "4" "3" None ] |}.

Definition rejoinPositions : gmap string Layout.Pos :=
  list_to_map
    [ ("1", Layout.mkPos 100 0); ("2", Layout.mkPos 100 100);
      ("3", Layout.mkPos 0 400); ("4", Layout.mkPos 200 250) ].

(** Two decisions in sequence: both branches of the first lead to the
    second. *)
Definition sequenceGraph : Layout.FlowGraph :=
  {| Layout.nodes :=
       [ Layout.mkFlowNode "1" "Start" Layout.TStart;
         Layout.mkFlowNode "2" "Q1" Layout.TCondition;
         Layout.mkFlowNode "3" "A" Layout.TAction;
         Layout.mkFlowNode "4" "B" Layout.TAction;
         Layout.mkFlowNode "5" "Q2" Layout.TCondition;
         Layout.mkFlowNode "6" "Y" Layout.TEnd;
         Layout.mkFlowNode "7" "Z" Layout.TEnd ];
     Layout.edges :=
       [ Layout.mkFlowEdge "1" "2" None;
         Layout.mkFlowEdge "2" "3" (Some "Yes"); Layout.mkFlowEdge "2" "4" (Some "No");
         Layout.mkFlowEdge "3" "5" None; Layout.mkFlowEdge "4" "5" None;
         Layout.mkFlowEdge "5" "6" (Some "Yes"); Layout.mkFlowEdge "5" "7" (Some "No") ] |}.

Definition sequencePositions : gmap string Layout.Pos :=
  list_to_map
    [ ("1", Layout.mkPos 100 0); ("2", Layout.mkPos 100 100); ("3", Layout.mkPos 200 250);
      ("4", Layout.mkPos 0 250); ("5", Layout.mkPos 100 400); ("6", Layout.mkPos 0 550);
      ("7", Layout.mkPos 200 550) ].

(** One decision with two end nodes, laid out with "yes" on the left, and
    the same decision with a "retry" edge that closes a cycle. *)
Definition decisionGraph : Layout.FlowGraph :=
  {| Layout.nodes :=
       [ Layout.mkFlowNode "1" "Start" Layout.TStart;
         Layout.mkFlowNode "2" "Ok?" Layout.TCondition;
         Layout.mkFlowNode "3" "Accept" Layout.TEnd;
         Layout.mkFlowNode "4" "Reject" Layout.TEnd ];
     Layout.edges :=
       [ Layout.mkFlowEdge "1" "2" None;
         Layout.mkFlowEdge "2" "3" (Some "YES"); Layout.mkFlowEdge "2" "4" (Some "no") ] |}.

Definition decisionPositions : gmap string Layout.Pos :=
  list_to_map
    [ ("1", Layout.mkPos 100 0); ("2", Layout.mkPos 130 140);
      ("3", Layout.mkPos 0 340); ("4", Layout.mkPos 240 340) ].

Definition retryGraph : Layout.FlowGraph :=
  {| Layout.nodes :=
       [ Layout.mkFlowNode "1" "Start" Layout.TStart;
         Layout.mkFlowNode "2" "Enter data" Layout.TAction;
         Layout.mkFlowNode "3" "Valid?" Layout.TCondition;
         Layout.mkFlowNode "4" "Done" Layout.TEnd;
         Layout.mkFlowNode "5" "Show error" Layout.TAction ];
     Layout.edges :=
       [ Layout.mkFlowEdge "1" "2" None; Layout.mkFlowEdge "2" "3" None;
         Layout.mkFlowEdge "3" "4" (Some "Yes"); Layout.mkFlowEdge "3" "5" (Some "No");
         Layout.mkFlowEdge "5" "2" (Some "retry") ] |}.

(** Stand-ins for the two library routines: a sort that leaves the order
    alone and a layout that puts the nodes on one diagonal, in the order
    they were added. *)
Definition keepOrder (cmp : Layout.FlowEdge → Layout.FlowEdge → Z)
    (l : list Layout.FlowEdge) : list Layout.FlowEdge := l.

Definition diagonal (d : Layout.LayoutDirection) (sizes : list (string * (Z * Z)))
    (links : list (string * string * Z)) (id : string) : Layout.Pos :=
  let i := Z.of_nat (default 0%nat (fst <$> list_find (λ s, s.1 = id) sizes)) in
  Layout.mkPos (200 * i) (200 * i).

(** One decision whose two branches run into each other. *)
Definition loopGraph : Layout.FlowGraph :=
  {| Layout.nodes :=
       [ Layout.mkFlowNode "1" "Start" Layout.TStart;
         Layout.mkFlowNode "2" "Ok?" Layout.TCondition;
         Layout.mkFlowNode "3" "Ping" Layout.TAction;
         Layout.mkFlowNode "4" "Pong" Layout.TAction;
         Layout.mkFlowNode "5" "Stop" Layout.TEnd ];
     Layout.edges :=
       [ Layout.mkFlowEdge "1" "2" None;
         Layout.mkFlowEdge "2" "3" (Some "Yes"); Layout.mkFlowEdge "2" "4" (Some "No");
         Layout.mkFlowEdge "3" "4" None; Layout.mkFlowEdge "4" "3" None;
         Layout.mkFlowEdge "4" "5" None ] |}.

Definition loopPositions : gmap string Layout.Pos :=
  list_to_map
    [ ("1", Layout.mkPos 100 0); ("2", Layout.mkPos 100 100); ("3", Layout.mkPos 0 250);
      ("4", Layout.mkPos 200 250); ("5", Layout.mkPos 200 400) ].

(** Two decisions, one inside the "no" branch of the other, whose branches
    all end in the same node, laid out with every "yes" target on the
    left. *)
Definition funnelGraph : Layout.FlowGraph :=
  {| Layout.nodes :=
       [ Layout.mkFlowNode "1" "Start" Layout.TStart;
         Layout.mkFlowNode "2" "Member?" Layout.TCondition;
         Layout.mkFlowNode "3" "Discount" Layout.TAction;
         Layout.mkFlowNode "4" "Coupon?" Layout.TCondition;
         Layout.mkFlowNode "5" "Apply" Layout.TAction;
         Layout.mkFlowNode "6" "Full price" Layout.TAction;
         Layout.mkFlowNode "7" "Pay" Layout.TEnd ];
     Layout.edges :=
       [ Layout.mkFlowEdge "1" "2" None;
         Layout.mkFlowEdge "2" "3" (Some "Yes"); Layout.mkFlowEdge "2" "4" (Some "No");
         Layout.mkFlowEdge "4" "5" (Some "Yes"); Layout.mkFlowEdge "4" "6" (Some "No");
         Layout.mkFlowEdge "3" "7" None; Layout.mkFlowEdge "5" "7" None;
         Layout.mkFlowEdge "6" "7" None ] |}.

Definition funnelPositions : gmap string Layout.Pos :=
  list_to_map
    [ ("1", Layout.mkPos 200 0); ("2", Layout.mkPos 200 100); ("3", Layout.mkPos 0 250);
      ("4", Layout.mkPos 400 250); ("5", Layout.mkPos 300 400); ("6", Layout.mkPos 500 400);
      ("7", Layout.mkPos 200 550) ].

(** A graph as a share link can carry it: [FlowGraphSchema] accepts it, and
    [validateFlow], which only [generateFlow] calls, would not, because of
    the edge to a node [5] that does not exist.  The no edge comes first,
    as after the sort. *)
Definition danglingGraph : Layout.FlowGraph :=
  {| Layout.nodes :=
       [ Layout.mkFlowNode "1" "Start" Layout.TStart;
         Layout.mkFlowNode "2" "In stock?" Layout.TCondition;
         Layout.mkFlowNode "3" "Ship" Layout.TAction;
         Layout.mkFlowNode "4" "Refund" Layout.TEnd ];
     Layout.edges :=
       [ Layout.mkFlowEdge "1" "2" None;
         Layout.mkFlowEdge "2" "4" (Some "No"); Layout.mkFlowEdge "2" "3" (Some "Yes");
         Layout.mkFlowEdge "3" "5" None ] |}.

(** A left-to-right layout of it, one column per rank with the spacing and
    margins of [computeLayout], the target of the no edge, which was added
    first, above the target of the yes edge. *)
Definition noBranchOnTop (d : Layout.LayoutDirection) (sizes : list (string * (Z * Z)))
    (links : list (string * string * Z)) (id : string) : Layout.Pos :=
  default (Layout.mkPos 0 0)
    (list_to_map (M := gmap string Layout.Pos)
       [ ("1", Layout.mkPos 130 130); ("2", Layout.mkPos 360 130);
         ("3", Layout.mkPos 590 190); ("4", Layout.mkPos 590 70);
         ("5", Layout.mkPos 820 190) ] !! id).

(** Decisions whose two edges carry the same label, or none. *)
Definition bothYesGraph : Layout.FlowGraph :=
  {| Layout.nodes :=
       [ Layout.mkFlowNode "1" "Start" Layout.TStart;
         Layout.mkFlowNode "2" "Ok?" Layout.TCondition;
         Layout.mkFlowNode "3" "Left" Layout.TEnd;
         Layout.mkFlowNode "4" "Right" Layout.TEnd ];
     Layout.edges :=
       [ Layout.mkFlowEdge "1" "2" None;
         Layout.mkFlowEdge "2" "3" (Some "Yes"); Layout.mkFlowEdge "2" "4" (Some "yes") ] |}.

Definition unlabelledGraph : Layout.FlowGraph :=
  {| Layout.nodes :=
       [ Layout.mkFlowNode "1" "Start" Layout.TStart;
         Layout.mkFlowNode "2" "Ok?" Layout.TCondition;
         Layout.mkFlowNode "3" "Left" Layout.TEnd;
         Layout.mkFlowNode "4" "Right" Layout.TEnd ];
     Layout.edges :=
       [ Layout.mkFlowEdge "1" "2" None;
         Layout.mkFlowEdge "2" "3" None; Layout.mkFlowEdge "2" "4" (Some "maybe") ] |}.

End Examples.

(** ** The controls that drive the simulation
    ([Toolbar.tsx], [ConditionNode.tsx], [FlowCompleteOverlay.tsx]) *)

Module Controls.
Import Sim.

(** The [onClick] of the toolbar's simulation button:
    [simulationRunning ? onSimulationPause :
     simulationStopped ? onSimulationResume : onSimulate], where
    [simulationRunning] is [status === 'running' || status === 'paused'] and
    [simulationStopped] is [status === 'stopped']. *)
Definition toolbarClick (m : Maps) (s : State) : State :=
  match status s with
  | running | paused => pause s
  | stopped => resume m s
  | idle | complete => start m s
  end.

(** What a user and the browser can do to a mounted diagram: press the
    simulation button of the toolbar (the sidebar has the same one), press
    Yes or No on a condition node ([sim.choose], which checks the status
    itself), or let a pending timeout expire.  [RestartClick] and
    [ResetClick] are [start] and [reset] called in any state: the completion
    overlay takes them as [onRestart] and [onReset], and [reset] also runs
    when the graph is regenerated. *)
Inductive Event :=
  | ToolbarClick
  | ChoiceClick (b : Branch)
  | RestartClick
  | ResetClick
  | TimerExpires (h : nat).

Definition handle (m : Maps) (s : State) (ev : Event) : State :=
  match ev with
  | ToolbarClick => toolbarClick m s
  | ChoiceClick b => choose m b s
  | RestartClick => start m s
  | ResetClick => reset s
  | TimerExpires h => fire m h s
  end.

Definition session (m : Maps) (evs : list Event) : State := foldl (handle m) initial evs.

End Controls.

(** ** What the simulation state means *)

Module SimSpec.
Import Sim.

(** [nodeTypeMap.get(nodeId) ?? 'action'] *)
Definition typeOf (m : Maps) (id : string) : string :=
  default "action" (nodeTypeMap m !! id).

(** The reading a renderer makes of a state. *)
Definition consistent (m : Maps) (s : State) : Prop :=
  (∀ a, activeNodeId s = Some a → a ∈ visitedNodeIds s) ∧
  (status s = paused →
   ∃ a, activeNodeId s = Some a ∧ nodeTypeMap m !! a = Some "condition") ∧
  (status s = complete →
   ∃ a, activeNodeId s = Some a ∧
        (typeOf m a = "end" ∨ (typeOf m a ≠ "condition" ∧ neighborsOf m a = []))) ∧
  (status s = idle →
   activeNodeId s = None ∧ visitedNodeIds s = ∅ ∧ visitedEdgeIds s = ∅).

(** No timeout is pending unless the hook is running, and a pending
    timeout is the only one and is the one [timerRef] holds. *)
Definition tidy (s : State) : Prop :=
  (status s ≠ running → pending s = []) ∧
  (∀ t, t ∈ pending s → pending s = [t] ∧ timerRef s = Some (tm_handle t)).

End SimSpec.

(** ** What the subtree search is meant to return *)

Module LayoutSpec.
Import Layout.

(** The comment above [getSubtree]: "all node IDs reachable from startId
    without passing through excludeId".  A node is reachable when a path of
    edges leads to it from [startId] on which [excludeId] never occurs. *)
Inductive reachable (es : list FlowEdge) (excludeId startId : string) : string → Prop :=
  | reachable_start : startId ≠ excludeId → reachable es excludeId startId startId
  | reachable_step x e :
      reachable es excludeId startId x →
      e ∈ es → fe_from e = x → fe_to e ≠ excludeId →
      reachable es excludeId startId (fe_to e).

(** The coordinate the normalization must leave alone: the rank axis. *)
Definition rankAxis (direction : LayoutDirection) : Axis :=
  match direction with TB => AxisY | LR => AxisX end.

End LayoutSpec.

(** ** The undo/redo stack ([useUndoRedo.ts]) *)

Module UndoRedo.

Definition MAX_HISTORY : nat := 50.

Section WithSnapshot.
Context {T : Type}.

(** [present] is [T | null]; snapshots themselves are never [null]. *)
Record State := mkState {
  past : list T;
  present : option T;
  future : list T
}.

Definition initial : State := {| past := []; present := None; future := [] |}.

(** [l.slice(-n)] for [n > 0]: the last [n] elements. *)
Definition sliceLast (n : nat) (l : list T) : list T := drop (length l - n) l.

Definition push (snapshot : T) (s : State) : State :=
  let newPast :=
    match present s with
    | Some p => sliceLast MAX_HISTORY (past s ++ [p])
    | None => past s
    end in
  {| past := newPast; present := Some snapshot; future := [] |}.

(** The value returned ([T | null]) and the state left in [stateRef]. *)
Definition undo (s : State) : option T * State :=
  match last (past s) with
  | None => (None, s)
  | Some previous =>
      (Some previous,
       {| past := take (length (past s) - 1) (past s);
          present := Some previous;
          future := match present s with
                    | Some p => p :: future s
                    | None => future s
                    end |})
  end.

Definition redo (s : State) : option T * State :=
  match future s with
  | [] => (None, s)
  | next :: rest =>
      (Some next,
       {| past := match present s with
                  | Some p => past s ++ [p]
                  | None => past s
                  end;
          present := Some next;
          future := rest |})
  end.

Definition canUndo (s : State) : bool := bool_decide (0 < length (past s))%nat.
Definition canRedo (s : State) : bool := bool_decide (0 < length (future s))%nat.

Inductive Op := Push (snapshot : T) | Undo | Redo.

Definition step (s : State) (o : Op) : State :=
  match o with
  | Push x => push x s
  | Undo => (undo s).2
  | Redo => (redo s).2
  end.

Definition run (ops : list Op) : State := foldl step initial ops.

End WithSnapshot.

Arguments State : clear implicits.
Arguments Op : clear implicits.

End UndoRedo.

(** ** The request limiter ([utils/rateLimit.ts]) *)

Module RateLimit.

Definition MAX_PER_MINUTE : Z := 5.
Definition MAX_PER_DAY : Z := 50.

Inductive Scope := minute | day.

(** The two fields of a [RateLimitError] that the code computes. *)
Record RateLimitError := mkError {
  scope : Scope;
  waitSeconds : Z
}.

(** [Math.ceil(a / b)] for integers [a] and [b > 0]. *)
Definition ceilDiv (a b : Z) : Z := - ((- a) / b).

(** [Math.min(...l)]; it is only evaluated on lists of at least five
    elements, and the value on the empty list is never used. *)
Definition minOf (l : list Z) : Z :=
  match l with
  | [] => 0
  | x :: rest => foldl Z.min x rest
  end.

Definition last24h (now : Z) (all : list Z) : list Z :=
  filter (λ t, now - 86400000 < t) all.

Definition lastMinute (now : Z) (all : list Z) : list Z :=
  filter (λ t, now - 60000 < t) (last24h now all).

(** [checkAndRecord], with [Date.now()] and the stored timestamps as
    arguments: [inl e] when it throws [e], [inr stored] when it returns
    having saved [stored]. *)
Definition checkAndRecord (now : Z) (all : list Z) : RateLimitError + list Z :=
  if bool_decide (MAX_PER_MINUTE ≤ Z.of_nat (length (lastMinute now all))) then
    let oldest := minOf (lastMinute now all) in
    inl {| scope := minute; waitSeconds := ceilDiv (oldest + 60000 - now) 1000 |}
  else if bool_decide (MAX_PER_DAY ≤ Z.of_nat (length (last24h now all))) then
    let oldest := minOf (last24h now all) in
    inl {| scope := day; waitSeconds := ceilDiv (oldest + 86400000 - now) 1000 |}
  else inr (last24h now all ++ [now]).

(** (minute, day) *)
Definition getRemainingRequests (now : Z) (all : list Z) : Z * Z :=
  (Z.max 0 (MAX_PER_MINUTE - Z.of_nat (length (lastMinute now all))),
   Z.max 0 (MAX_PER_DAY - Z.of_nat (length (last24h now all)))).

End RateLimit.

(** ** String helpers *)

Module Text.

(** [s.replace(/c/g, d)] for a one-character pattern [c] and a
    one-character replacement [d]. *)
Fixpoint replaceAll (c d : ascii) (s : string) : string :=
  match s with
  | EmptyString => EmptyString
  | String x r => String (if decide (x = c) then d else x) (replaceAll c d r)
  end.

(** [s.replace(/c/g, '')] *)
Fixpoint removeAll (c : ascii) (s : string) : string :=
  match s with
  | EmptyString => EmptyString
  | String x r => if decide (x = c) then removeAll c r else String x (removeAll c r)
  end.

(** [hay.includes(needle)] *)
Fixpoint includes (needle hay : string) : bool :=
  match hay with
  | EmptyString => String.prefix needle hay
  | String _ r => String.prefix needle hay || includes needle r
  end.

(** The characters of a string. *)
Definition chars (s : string) : list ascii := String.list_ascii_of_string s.

End Text.

(** ** Share links ([utils/urlShare.ts]) *)

Module UrlShare.
Import Text.

(** The three replacements applied to the output of [btoa]. *)
Definition toUrlSafe (base64 : string) : string :=
  removeAll "=" (replaceAll "/" "_" (replaceAll "+" "-" base64)).

(** [encoded.replace(/-/g, '+').replace(/_/g, '/')] *)
Definition fromUrlSafe (encoded : string) : string :=
  replaceAll "_" "/" (replaceAll "-" "+" encoded).

(** [base64 + '=='.slice(0, (4 - (base64.length % 4)) % 4)] *)
Definition withPadding (base64 : string) : string :=
  base64 +:+ String.substring 0 ((4 - String.length base64 mod 4) mod 4) "==".

Section WithBrowser.

(** The browser's [btoa] and [atob] on binary strings; [atob] throws on
    text that is not base64. *)
Variable btoa : string → string.
Variable atob : string → option string.

(** A [Uint8Array] is a list of bytes; [String.fromCharCode] and
    [charCodeAt] turn it into a binary string and back. *)
Definition base64urlEncode (bytes : list ascii) : string :=
  toUrlSafe (btoa (String.string_of_list_ascii bytes)).

Definition base64urlDecode (encoded : string) : option (list ascii) :=
  let base64 := fromUrlSafe encoded in
  let padded := withPadding base64 in
  str ← atob padded;
  Some (String.list_ascii_of_string str).

End WithBrowser.

End UrlShare.

(** ** Saved flows ([useFlowHistory.ts]) *)

Module FlowHistory.

Definition MAX_FLOWS : nat := 20.

Record SavedFlow := mkSavedFlow {
  sf_id : string;
  sf_name : option string;
  sf_prompt : string;
  sf_graph : option Layout.FlowGraph;
  sf_nodes : list Layout.RFNode;
  sf_edges : list Layout.RFEdge;
  sf_savedAt : Z
}.

(** [save], as the function passed to [setFlows]: the list that is written
    to storage and becomes the state.  [idTime] and [savedTime] are the
    results of the two calls of [Date.now()]. *)
Definition save (idTime savedTime : Z) (prompt : string) (nodes : list Layout.RFNode)
    (edges : list Layout.RFEdge) (graph : option Layout.FlowGraph)
    (prev : list SavedFlow) : list SavedFlow :=
  let entry := {| sf_id := pretty idTime; sf_name := None; sf_prompt := prompt;
                  sf_graph := graph; sf_nodes := nodes; sf_edges := edges;
                  sf_savedAt := savedTime |} in
  take MAX_FLOWS (entry :: prev).

Definition remove (id : string) (prev : list SavedFlow) : list SavedFlow :=
  filter (λ f, sf_id f ≠ id) prev.

Section WithTrim.

(** [String.prototype.trim] *)
Variable trim : string → string.

(** [name.trim() || undefined] *)
Definition cleanName (name : string) : option string :=
  if decide (trim name = "") then None else Some (trim name).

Definition rename (id name : string) (prev : list SavedFlow) : list SavedFlow :=
  (λ f, if decide (sf_id f = id)
        then {| sf_id := sf_id f; sf_name := cleanName name; sf_prompt := sf_prompt f;
                sf_graph := sf_graph f; sf_nodes := sf_nodes f; sf_edges := sf_edges f;
                sf_savedAt := sf_savedAt f |}
        else f) <$> prev.

Inductive Op :=
  | Save (idTime savedTime : Z) (prompt : string) (nodes : list Layout.RFNode)
         (edges : list Layout.RFEdge) (graph : option Layout.FlowGraph)
  | Remove (id : string)
  | Rename (id name : string).

Definition step (flows : list SavedFlow) (o : Op) : list SavedFlow :=
  match o with
  | Save idTime savedTime prompt nodes edges graph =>
      save idTime savedTime prompt nodes edges graph flows
  | Remove id => remove id flows
  | Rename id name => rename id name flows
  end.

End WithTrim.

End FlowHistory.

(** ** Mermaid export ([utils/exportFlow.ts]) *)

Module Mermaid.
Import Text Layout.

(** The double quote character. *)
Definition dquote : ascii := ascii_of_nat 34.

(** One line per node: the label, every double quote replaced by a single
    one, in the brackets of the node's type. *)
Definition nodeLine (node : FlowNode) : string :=
  let label := replaceAll dquote "'" (fn_label node) in
  match fn_type node with
  | TStart | TEnd => "  " +:+ fn_id node +:+ "([" +:+ label +:+ "])"
  | TCondition => "  " +:+ fn_id node +:+ "{" +:+ label +:+ "}"
  | TAction => "  " +:+ fn_id node +:+ "[" +:+ label +:+ "]"
  end.

(** [if (edge.label)]: an absent label and the empty string are both
    falsy. *)
Definition edgeLine (edge : FlowEdge) : string :=
  match fe_label edge with
  | Some label =>
      if decide (label = "") then "  " +:+ fe_from edge +:+ " --> " +:+ fe_to edge
      else "  " +:+ fe_from edge +:+ " -->|" +:+ label +:+ "| " +:+ fe_to edge
  | None => "  " +:+ fe_from edge +:+ " --> " +:+ fe_to edge
  end.

Definition mermaidLines (graph : FlowGraph) : list string :=
  "flowchart TD" :: (nodeLine <$> nodes graph) ++ (edgeLine <$> edges graph).

(** The text handed to [triggerDownload] as [diagram.md]. *)
Definition exportMermaid (graph : FlowGraph) : string :=
  String.concat (String (ascii_of_nat 10) EmptyString) (mermaidLines graph).

End Mermaid.

(** ** Error messages ([getErrorMessage] of [useFlowGenerator.ts]) *)

Module ErrorMessage.
Import Text.

(** What a [catch] can receive: a [RateLimitError], another [Error] with
    its message and, when the object has one, its [status], or anything
    else. *)
Inductive Thrown :=
  | ThrownRateLimit (message : string)
  | ThrownError (message : string) (status : option Z)
  | ThrownOther.

(** The part of [getErrorMessage] that looks at the message only. *)
Definition byMessage (msg : string) : string :=
  if includes "Invalid JSON" msg || includes "Unexpected" msg
  then "Could not parse AI response. Try rephrasing your description."
  else if includes "Invalid response structure" msg || includes "Missing" msg
          || includes "Edge references" msg
  then msg +:+ ". Try rephrasing."
  else msg.

Definition getErrorMessage (error : Thrown) : string :=
  match error with
  | ThrownRateLimit message => message
  | ThrownError msg status =>
      match status with
      | Some st =>
          if decide (st = 429)
          then "Rate limit reached. Please wait a moment and try again."
          else if decide (500 ≤ st)
          then "AI service unavailable. Please try again later."
          else byMessage msg
      | None => byMessage msg
      end
  | ThrownOther => "Something went wrong. Please try again."
  end.

(** What [generate] shows when [validateFlow] rejects the graph: the plain
    [Error] it throws has no [status]. *)
Definition validationToast (graph : Layout.FlowGraph) : option string :=
  match Layout.validateFlow graph with
  | inl msg => Some (getErrorMessage (ThrownError msg None))
  | inr _ => None
  end.

End ErrorMessage.

(** * Properties *)

(** ** The simulation engine *)

Module SimFacts.
Import Sim.

(** *** Case-insensitive branch identity *)

Lemma branchOfLabel_Some (l : option string) (b : Branch) :
  branchOfLabel l = Some b ↔ ∃ str, l = Some str ∧ toLowerCase str = branchName b.
Proof.
  unfold branchOfLabel, branchOfLower. destruct l as [str|]; simpl.
  - repeat case_decide; destruct b; simpl; split;
      try (intros [str' [[= <-] E]]); try intros [=]; try congruence; eauto.
  - split; [intros [=] | intros [? [[=] _]]].
Qed.

(** *** The adjacency map lists, per source, the edges in input order *)

Lemma neighborsOf_addNode m node a :
  neighborsOf m a = [] → neighborsOf (addNode m node) a = [].
Proof.
  unfold neighborsOf, addNode; simpl. intros H.
  destruct (decide (n_id node = a)) as [->|Hne].
  - by rewrite lookup_insert_eq.
  - by rewrite lookup_insert_ne.
Qed.

Lemma neighborsOf_nodes nodes m a :
  neighborsOf m a = [] → neighborsOf (foldl addNode m nodes) a = [].
Proof.
  revert m. induction nodes as [|n ns IH]; intros m H; simpl; [done|].
  apply IH. by apply neighborsOf_addNode.
Qed.

Lemma neighborsOf_addEdge m e a :
  neighborsOf (addEdge m e) a =
  neighborsOf m a ++ (if decide (e_source e = a) then [neighborOfEdge e] else []).
Proof.
  unfold neighborsOf, addEdge; simpl.
  destruct (decide (e_source e = a)) as [->|Hne].
  - rewrite lookup_insert_eq. simpl.
    destruct (adjacencyMap m !! a) as [l|] eqn:E; simpl.
    + by rewrite E.
    + by rewrite lookup_insert_eq.
  - rewrite lookup_insert_ne by done.
    destruct (adjacencyMap m !! e_source e) as [l|] eqn:E; simpl.
    + by rewrite app_nil_r.
    + rewrite lookup_insert_ne by done. by rewrite app_nil_r.
Qed.

Lemma neighborsOf_edges edges m a :
  neighborsOf (foldl addEdge m edges) a =
  neighborsOf m a ++ (neighborOfEdge <$> filter (λ e, e_source e = a) edges).
Proof.
  revert m. induction edges as [|e es IH]; intros m; simpl.
  - by rewrite app_nil_r.
  - rewrite IH, neighborsOf_addEdge, filter_cons.
    case_decide; simpl; by rewrite <- ?app_assoc, ?app_nil_r.
Qed.

Lemma neighborsOf_buildMaps nodes edges a :
  neighborsOf (buildMaps nodes edges) a =
  neighborOfEdge <$> filter (λ e, e_source e = a) edges.
Proof.
  unfold buildMaps. rewrite neighborsOf_edges, neighborsOf_nodes; done.
Qed.

Lemma findBranch_Some b l n :
  findBranch b l = Some n → n ∈ l ∧ branch n = Some b.
Proof.
  unfold findBranch. intros H. apply find_some in H as [Hin Hb].
  apply bool_decide_eq_true in Hb. split; [by apply list_elem_of_In | done].
Qed.

Lemma findBranch_None b l n :
  findBranch b l = None → n ∈ l → branch n ≠ Some b.
Proof.
  unfold findBranch. intros H Hin Hb.
  apply list_elem_of_In in Hin.
  pose proof (find_none _ _ H _ Hin) as Hf. simpl in Hf.
  by apply bool_decide_eq_false in Hf.
Qed.

(** *** Timer handles stay fresh *)

Lemma handlesFresh_cancel h (l : list Timer) k :
  Forall (λ t, (tm_handle t < k)%nat) l → Forall (λ t, (tm_handle t < k)%nat) (cancel h l).
Proof.
  intros H. unfold cancel. rewrite Forall_forall in *.
  intros t Ht. apply list_elem_of_filter in Ht as [_ Ht]. by apply H.
Qed.

Lemma handlesFresh_clearTimer s : handlesFresh s → handlesFresh (clearTimer s).
Proof.
  unfold handlesFresh, clearTimer. destruct (timerRef s); simpl; [|done].
  apply handlesFresh_cancel.
Qed.

Lemma handlesFresh_schedule target d s :
  handlesFresh s → handlesFresh (scheduleAdvance target d s).
Proof.
  unfold handlesFresh, scheduleAdvance; simpl. intros H.
  apply Forall_app; split.
  - eapply Forall_impl; [exact H|]. simpl. lia.
  - apply Forall_singleton. simpl. lia.
Qed.

Lemma handlesFresh_advance m n s : handlesFresh s → handlesFresh (advance m n s).
Proof.
  intros H. unfold advance. repeat case_decide; try exact H.
  destruct (neighborsOf m n); [exact H|].
  by apply handlesFresh_schedule.
Qed.

Lemma handlesFresh_step m s o : handlesFresh s → handlesFresh (step m s o).
Proof.
  intros H. destruct o; simpl.
  - unfold start. pose proof (handlesFresh_clearTimer _ H) as Hc.
    destruct (startNodeId m); [|exact Hc].
    destruct (falsy _); [exact Hc|]. by apply handlesFresh_schedule.
  - exact (handlesFresh_clearTimer _ H).
  - unfold resume. destruct (activeNodeId s); [|done]. by apply handlesFresh_advance.
  - unfold choose. destruct (status s), (activeNodeId s); try done.
    destruct (findBranch _ _); [|done]. by apply handlesFresh_schedule.
  - exact (handlesFresh_clearTimer _ H).
  - unfold fire. destruct (find _ _); [|done].
    apply handlesFresh_advance. unfold handlesFresh in *; simpl.
    by apply handlesFresh_cancel.
Qed.

Lemma handlesFresh_run m ops : handlesFresh (run m ops).
Proof.
  unfold run. induction ops as [|o ops IH] using rev_ind.
  - constructor.
  - rewrite foldl_app. simpl. by apply handlesFresh_step.
Qed.

Lemma find_fresh_timer (l : list Timer) h d target :
  Forall (λ t, (tm_handle t < h)%nat) l →
  List.find (λ t, bool_decide (tm_handle t = h)) (l ++ [mkTimer h d target])
  = Some (mkTimer h d target).
Proof.
  induction 1 as [|t l Ht _ IH]; simpl.
  - by rewrite bool_decide_eq_true_2.
  - rewrite bool_decide_eq_false_2 by lia. exact IH.
Qed.

(** *** What [advance] always does *)

Lemma advance_marks m n s :
  activeNodeId (advance m n s) = Some n ∧
  visitedNodeIds (advance m n s) = visitedNodeIds s ∪ {[n]} ∧
  visitedEdgeIds s ⊆ visitedEdgeIds (advance m n s).
Proof.
  unfold advance. repeat case_decide; simpl; try (split_and!; set_solver).
  destruct (neighborsOf m n); simpl; split_and!; set_solver.
Qed.


(** *** Terminal nodes *)

(** C1 (as the code has it).  [advance] on a node without outgoing edges,
    and on a node of type [condition] whatever its edges, makes that node
    active and visited, marks no edge, schedules no timer and leaves the
    pending ones alone; the status becomes [paused] for a node of type
    [condition] and [complete] for every other type. *)
Theorem advance_without_outgoing_edges m nodeId s :
  neighborsOf m nodeId = [] ∨ nodeTypeMap m !! nodeId = Some "condition" →
  status (advance m nodeId s) =
    (if decide (nodeTypeMap m !! nodeId = Some "condition") then paused else complete) ∧
  activeNodeId (advance m nodeId s) = Some nodeId ∧
  nodeId ∈ visitedNodeIds (advance m nodeId s) ∧
  visitedEdgeIds (advance m nodeId s) = visitedEdgeIds s ∧
  timerRef (advance m nodeId s) = timerRef s ∧
  pending (advance m nodeId s) = pending s ∧
  nextHandle (advance m nodeId s) = nextHandle s.
Proof.
  intros [Hn | Ht]; unfold advance.
  - rewrite Hn.
    destruct (nodeTypeMap m !! nodeId) as [t|] eqn:Et; simpl;
      repeat case_decide; simplify_eq; simpl; split_and!; try done; set_solver.
  - rewrite Ht. simpl.
    repeat case_decide; simplify_eq; simpl; split_and!; try done; set_solver.
Qed.

Lemma advance_without_outgoing_edges_witness :
  (status (advance Examples.loneAction "a" initial) = complete ∧
   pending (advance Examples.loneAction "a" initial) = []) ∧
  (length (neighborsOf Examples.scenario "3") = 2%nat ∧
   status (advance Examples.scenario "3" initial) = paused ∧
   visitedEdgeIds (advance Examples.scenario "3" initial) = ∅ ∧
   pending (advance Examples.scenario "3" initial) = []).
Proof.
  split.
  - pose proof (advance_without_outgoing_edges Examples.loneAction "a" initial
                  (or_introl eq_refl)) as (Hs & _ & _ & _ & _ & Hp & _).
    split; [exact Hs | exact Hp].
  - pose proof (advance_without_outgoing_edges Examples.scenario "3" initial
                  (or_intror eq_refl)) as (Hs & _ & _ & He & _ & Hp & _).
    split_and!; [reflexivity | exact Hs | exact He | exact Hp].
Defined.

(** C1 as stated fails: a condition node without outgoing edges is paused,
    not completed. *)
Lemma advance_lone_condition_pauses :
  neighborsOf Examples.deadEnd "2" = [] ∧
  status (run Examples.deadEnd [OpStart; OpFire 0; OpFire 1]) = paused ∧
  status (advance Examples.deadEnd "2" initial) = paused ∧
  status (advance Examples.deadEnd "2" initial) ≠ complete.
Proof. split_and!; [reflexivity | reflexivity | reflexivity | discriminate]. Qed.

(** *** start *)

(** C3.  Without a start node [start] is not a no-op: on a graph that is a
    single action node, in the idle state, it leaves the status at
    [running], with nothing scheduled that could ever end the run. *)
Theorem start_without_start_node_runs :
  startNodeId Examples.loneAction = None ∧
  observable (start Examples.loneAction initial) ≠ observable initial ∧
  status (start Examples.loneAction initial) = running ∧
  pending (start Examples.loneAction initial) = [].
Proof. split_and!; [reflexivity | discriminate | reflexivity | reflexivity]. Qed.

(** The same on any graph and from any state. *)
Lemma start_without_start_node m s :
  startNodeId m = None →
  status (start m s) = running ∧ activeNodeId (start m s) = None ∧
  visitedNodeIds (start m s) = ∅ ∧ visitedEdgeIds (start m s) = ∅ ∧
  timerRef (start m s) = timerRef (clearTimer s) ∧
  pending (start m s) = pending (clearTimer s).
Proof. intros H. unfold start. rewrite H. done. Qed.

(** *** choose *)

(** C7.  Branch identity is read off the edge label, case-insensitively, and
    the source handle plays no part in it; [choose] returns the state it was
    given unless the status is [paused] and some outgoing edge of the active
    node carries the requested branch; otherwise it takes the first such
    edge, marks it visited, sets the status to [running] and schedules the
    advance to its target after 50 ms.  [choose] is total: no input makes it
    throw. *)
Theorem choose_follows_label nodes edges b s :
  (∀ l, branchOfLabel l = Some b ↔ ∃ str, l = Some str ∧ toLowerCase str = branchName b) ∧
  (∀ a, neighborsOf (buildMaps nodes edges) a =
        neighborOfEdge <$> filter (λ e, e_source e = a) edges) ∧
  (∀ edges',
     Forall2 (λ e e', e_id e = e_id e' ∧ e_source e = e_source e' ∧
                      e_target e = e_target e' ∧ e_label e = e_label e') edges edges' →
     ∀ a, neighborsOf (buildMaps nodes edges') a = neighborsOf (buildMaps nodes edges) a) ∧
  ((¬ ∃ a n, status s = paused ∧ activeNodeId s = Some a ∧
             n ∈ neighborsOf (buildMaps nodes edges) a ∧ branch n = Some b) →
   choose (buildMaps nodes edges) b s = s) ∧
  (∀ a, status s = paused → activeNodeId s = Some a →
     (∃ n, n ∈ neighborsOf (buildMaps nodes edges) a ∧ branch n = Some b) →
     ∃ e, e ∈ edges ∧ e_source e = a ∧ branchOfLabel (e_label e) = Some b ∧
          findBranch b (neighborsOf (buildMaps nodes edges) a) = Some (neighborOfEdge e) ∧
          let s' := choose (buildMaps nodes edges) b s in
          status s' = running ∧
          visitedEdgeIds s' = visitedEdgeIds s ∪ {[e_id e]} ∧
          timerRef s' = Some (nextHandle s) ∧
          pending s' = pending s ++ [mkTimer (nextHandle s) 50 (e_target e)]).
Proof.
  split_and!.
  - intros l. apply branchOfLabel_Some.
  - apply neighborsOf_buildMaps.
  - intros edges' HF a. rewrite !neighborsOf_buildMaps.
    induction HF as [|e e' es es' (Hi & Hs & Ht & Hl) _ IH]; [done|].
    rewrite !filter_cons, <- Hs. case_decide; [|exact IH].
    rewrite !fmap_cons, IH. f_equal.
    unfold neighborOfEdge. by rewrite Hi, Ht, Hl.
  - intros Hno. unfold choose.
    destruct (status s) eqn:Es; try done.
    destruct (activeNodeId s) as [a|] eqn:Ea; [|done].
    destruct (findBranch b _) as [n|] eqn:Ef; [|done].
    exfalso. apply Hno. apply findBranch_Some in Ef as [Hin Hb]. eauto 10.
  - intros a Hs Ha [n [Hin Hb]].
    destruct (findBranch b (neighborsOf (buildMaps nodes edges) a)) as [c|] eqn:Ef.
    2:{ exfalso. by eapply findBranch_None. }
    pose proof (findBranch_Some _ _ _ Ef) as [Hc Hcb].
    rewrite neighborsOf_buildMaps in Hc.
    apply list_elem_of_fmap in Hc as [e [-> He]].
    apply list_elem_of_filter in He as [Hsrc He].
    exists e. split_and!; try done.
    unfold choose. rewrite Hs, Ha, Ef. simpl. done.
Qed.

Lemma choose_follows_label_witness :
  ∃ e, e ∈ Examples.scenarioEdges ∧ e_source e = "3" ∧
       branchOfLabel (e_label e) = Some Yes ∧
       status (choose Examples.scenario Yes Examples.atCondition) = running ∧
       visitedEdgeIds (choose Examples.scenario Yes Examples.atCondition)
       = visitedEdgeIds Examples.atCondition ∪ {[e_id e]}.
Proof.
  destruct (choose_follows_label Examples.scenarioNodes Examples.scenarioEdges Yes
              Examples.atCondition) as (_ & _ & _ & _ & H).
  destruct (H "3" eq_refl eq_refl) as (e & He & Hsrc & Hb & _ & Hst & Hv & _).
  { exists (mkNeighbor "4" "e2" (Some Yes)).
    split; [|reflexivity]. vm_compute. apply list_elem_of_here. }
  exists e. split_and!; [exact He | exact Hsrc | exact Hb | exact Hst | exact Hv].
Defined.

(** *** Single active node, growing visited sets *)

(** C8.  [activeNodeId] is [null] or one node id, and [advance], [choose],
    [pause], [resume] and a timer expiry only ever add to the two visited
    sets, which [reset] and [start] empty. *)
Theorem visited_sets_grow m s :
  (activeNodeId s = None ∨ ∃ id, activeNodeId s = Some id) ∧
  (∀ nodeId, visitedNodeIds s ⊆ visitedNodeIds (advance m nodeId s) ∧
             visitedEdgeIds s ⊆ visitedEdgeIds (advance m nodeId s)) ∧
  (∀ o, o ≠ OpStart → o ≠ OpReset →
        visitedNodeIds s ⊆ visitedNodeIds (step m s o) ∧
        visitedEdgeIds s ⊆ visitedEdgeIds (step m s o)) ∧
  (∀ o, o = OpStart ∨ o = OpReset →
        visitedNodeIds (step m s o) = ∅ ∧ visitedEdgeIds (step m s o) = ∅).
Proof.
  assert (Hadv : ∀ n s0, visitedNodeIds s0 ⊆ visitedNodeIds (advance m n s0) ∧
                         visitedEdgeIds s0 ⊆ visitedEdgeIds (advance m n s0)).
  { intros n s0. destruct (advance_marks m n s0) as (_ & Hv & He).
    rewrite Hv. split; [apply union_subseteq_l | done]. }
  assert (Hclr : ∀ s0, visitedNodeIds (clearTimer s0) = visitedNodeIds s0 ∧
                       visitedEdgeIds (clearTimer s0) = visitedEdgeIds s0).
  { intros s0. unfold clearTimer. by destruct (timerRef s0). }
  split_and!.
  - destruct (activeNodeId s); eauto.
  - intros n. apply Hadv.
  - intros o H1 H2. destruct o; simpl; try done.
    + unfold pause. simpl. destruct (Hclr s) as [-> ->]. done.
    + unfold resume. destruct (activeNodeId s); [apply Hadv | done].
    + unfold choose. destruct (status s), (activeNodeId s); try done.
      destruct (findBranch _ _); simpl; [|done]. split; [done | apply union_subseteq_l].
    + unfold fire. destruct (find _ _); [|done]. apply (Hadv _ (mkState _ _ _ _ _ _ _)).
  - intros o [-> | ->]; simpl.
    + unfold start. destruct (startNodeId m); [destruct (falsy _)|]; done.
    + done.
Qed.

Lemma visited_sets_grow_witness :
  visitedEdgeIds Examples.atCondition
    ⊆ visitedEdgeIds (step Examples.scenario Examples.atCondition (OpChoose Yes)) ∧
  visitedNodeIds (step Examples.scenario Examples.atCondition OpStart) = ∅.
Proof.
  destruct (visited_sets_grow Examples.scenario Examples.atCondition)
    as (_ & _ & Hgrow & Hempty).
  split.
  - apply (Hgrow (OpChoose Yes)); discriminate.
  - apply (Hempty OpStart). by left.
Defined.

(** *** The frame of a successful choose *)

(** C10.  In a state reached by running the hook, a successful [choose]
    changes, when it returns, only the status (to [running]), the visited
    edges (the chosen edge is added, no other edge changes) and the timer it
    schedules; the active node and the visited nodes are as before.  The
    target becomes active and visited when that timer expires. *)
Theorem choose_frame m ops b a chosen :
  status (run m ops) = paused →
  activeNodeId (run m ops) = Some a →
  findBranch b (neighborsOf m a) = Some chosen →
  let s := run m ops in
  let s' := choose m b s in
  status s' = running ∧
  activeNodeId s' = Some a ∧
  visitedNodeIds s' = visitedNodeIds s ∧
  visitedEdgeIds s' = visitedEdgeIds s ∪ {[edgeId chosen]} ∧
  (∀ e, e ≠ edgeId chosen → e ∈ visitedEdgeIds s' ↔ e ∈ visitedEdgeIds s) ∧
  pending s' = pending s ++ [mkTimer (nextHandle s) 50 (targetId chosen)] ∧
  activeNodeId (fire m (nextHandle s) s') = Some (targetId chosen) ∧
  visitedNodeIds (fire m (nextHandle s) s') = visitedNodeIds s ∪ {[targetId chosen]}.
Proof.
  intros Hs Ha Hf s s'. subst s'. unfold choose. fold s in Hs, Ha.
  rewrite Hs, Ha, Hf. simpl.
  split_and!; try done.
  - intros e Hne. rewrite elem_of_union, elem_of_singleton. tauto.
  - unfold fire. simpl.
    rewrite find_fresh_timer by apply (handlesFresh_run m ops).
    apply advance_marks.
  - unfold fire. simpl.
    rewrite find_fresh_timer by apply (handlesFresh_run m ops).
    destruct (advance_marks m (targetId chosen)
                (mkState running (Some a) (visitedNodeIds s)
                   (visitedEdgeIds s ∪ {[edgeId chosen]}) (Some (nextHandle s))
                   (cancel (nextHandle s)
                      (pending s ++ [mkTimer (nextHandle s) 50 (targetId chosen)]))
                   (S (nextHandle s)))) as (_ & Hv & _).
    exact Hv.
Qed.

Lemma choose_frame_witness :
  activeNodeId (choose Examples.scenario Yes Examples.atCondition) = Some "3" ∧
  activeNodeId (fire Examples.scenario 3 (choose Examples.scenario Yes Examples.atCondition))
  = Some "4".
Proof.
  pose proof (choose_frame Examples.scenario
                [OpStart; OpFire 0; OpFire 1; OpFire 2] Yes "3"
                (mkNeighbor "4" "e2" (Some Yes)) eq_refl eq_refl eq_refl)
    as (_ & Ha & _ & _ & _ & _ & Hf & _).
  split; [exact Ha | exact Hf].
Defined.

End SimFacts.

(** ** The layout engine *)

Module LayoutFacts.
Import Layout.

(** *** getSubtree: the search loop *)

Section Search.
Variable es : list FlowEdge.
Variable excludeId : string.

(** A property of (visited, queue) that every iteration keeps holds of
    the result. *)
Lemma getSubtreeLoop_invariant (P : list string → list string → Prop) :
  (∀ v id q, P v (id :: q) → id ∈ v ∨ id = excludeId → P v q) →
  (∀ v id q, P v (id :: q) → id ∉ v → id ≠ excludeId →
             P (v ++ [id]) (q ++ successors es id)) →
  ∀ fuel v q r, P v q → getSubtreeLoop fuel es excludeId v q = Some r → P r [].
Proof.
  intros Hskip Hadd. induction fuel as [|fuel IH]; intros v q r HP.
  - destruct q; simpl; [|discriminate]. by intros [= <-].
  - destruct q as [|id q]; simpl; [by intros [= <-]|].
    case_decide as Hd.
    + apply IH. by eapply Hskip.
    + apply IH. apply Hadd; [done| |]; intros ?; apply Hd; auto.
Qed.

Lemma successors_spec id y :
  y ∈ successors es id ↔ ∃ e, e ∈ es ∧ fe_from e = id ∧ fe_to e = y.
Proof.
  unfold successors. rewrite list_elem_of_fmap. split.
  - intros [e [-> He]]. apply list_elem_of_filter in He as [? ?]. eauto.
  - intros [e (He & Hf & Ht)]. exists e. split; [done|].
    apply list_elem_of_filter. done.
Qed.

Lemma successors_length id : (length (successors es id) ≤ length es)%nat.
Proof. unfold successors. rewrite length_fmap. apply length_filter. Qed.

Lemma successors_candidates startId id y :
  y ∈ successors es id → y ∈ candidates es startId.
Proof.
  intros (e & He & _ & <-)%successors_spec. unfold candidates.
  apply elem_of_cons. right. apply list_elem_of_fmap. eauto.
Qed.

Lemma unvisited_shrinks startId v id :
  id ∈ candidates es startId → id ∉ v →
  (length (unvisited es startId (v ++ [id])) < length (unvisited es startId v))%nat.
Proof.
  intros Hc Hv. unfold unvisited.
  rewrite (list_filter_iff (λ x, x ∉ v ++ [id]) (λ x, x ≠ id ∧ x ∉ v)).
  2:{ intros x. rewrite elem_of_app, list_elem_of_singleton. tauto. }
  rewrite <- list_filter_filter.
  apply length_filter_lt with id; [|tauto].
  apply list_elem_of_filter. done.
Qed.

(** The loop stops: the number of unvisited candidates, weighted by the
    most a single iteration can enqueue, plus the queue length, drops at
    every iteration. *)
Lemma getSubtreeLoop_total startId fuel v q :
  (∀ x, x ∈ q → x ∈ candidates es startId) →
  (length (unvisited es startId v) * S (length es) + length q ≤ fuel)%nat →
  is_Some (getSubtreeLoop fuel es excludeId v q).
Proof.
  revert v q. induction fuel as [|fuel IH]; intros v q Hq Hm.
  - destruct q; simpl in *; [eauto | lia].
  - destruct q as [|id q]; simpl in *; [eauto|].
    case_decide as Hd.
    + apply IH; [|lia]. intros x Hx. apply Hq. by right.
    + assert (id ∉ v) as Hv by tauto.
      assert (id ∈ candidates es startId) as Hc by (apply Hq; left).
      pose proof (unvisited_shrinks startId v id Hc Hv) as Hlt.
      pose proof (successors_length id) as Hs.
      apply IH.
      * intros x [Hx|Hx]%elem_of_app.
        -- apply Hq. by right.
        -- by eapply successors_candidates.
      * rewrite length_app. nia.
Qed.

End Search.

Lemma getSubtree_total graph startId excludeId :
  is_Some (getSubtree graph startId excludeId).
Proof.
  unfold getSubtree. apply getSubtreeLoop_total with startId.
  - intros x ->%list_elem_of_singleton. by left.
  - unfold subtreeFuel, unvisited, candidates. simpl.
    pose proof (length_filter (λ x, x ∉ []) (startId :: (fe_to <$> edges graph))) as H.
    simpl in H. rewrite length_fmap in H. nia.
Qed.

(** What the search returns. *)
Section Subtree.
Variable graph : FlowGraph.
Variables startId excludeId : string.
Variable result : list string.
Hypothesis Hres : getSubtree graph startId excludeId = Some result.

Lemma getSubtree_NoDup : NoDup result.
Proof.
  apply (getSubtreeLoop_invariant (edges graph) excludeId (λ v _, NoDup v))
    with (fuel := subtreeFuel (edges graph)) (v := []) (q := [startId]) (r := result);
    [done | | constructor | exact Hres].
  intros v id q Hn Hv _. apply NoDup_app. split_and!; [done | | apply NoDup_singleton].
  intros x Hx ->%list_elem_of_singleton. done.
Qed.

Lemma getSubtree_candidates x :
  x ∈ result → x ≠ excludeId ∧ x ∈ candidates (edges graph) startId.
Proof.
  revert x.
  apply (getSubtreeLoop_invariant (edges graph) excludeId
           (λ v q, ∀ x, (x ∈ v → x ≠ excludeId ∧ x ∈ candidates (edges graph) startId) ∧
                        (x ∈ q → x ∈ candidates (edges graph) startId)))
    with (fuel := subtreeFuel (edges graph)) (v := []) (q := [startId]) (r := result);
    [ | | | exact Hres].
  - intros v id q H _ x. destruct (H x) as [H1 H2]. split; [done|].
    intros Hx. apply H2. by right.
  - intros v id q H Hv Hne x. destruct (H x) as [H1 H2]. split.
    + intros [Hx | ->%list_elem_of_singleton]%elem_of_app; [auto|].
      split; [done|]. apply (H id). by left.
    + intros [Hx | Hx]%elem_of_app.
      * apply H2. by right.
      * by eapply successors_candidates.
  - intros x. split; [by intros ?%elem_of_nil|].
    intros ->%list_elem_of_singleton. by left.
Qed.

Lemma getSubtree_start : startId ≠ excludeId → startId ∈ result.
Proof.
  intros Hne.
  cut (startId ∈ result ∨ startId ∈ @nil string).
  { intros [?|?%elem_of_nil]; done. }
  apply (getSubtreeLoop_invariant (edges graph) excludeId
           (λ v q, startId ∈ v ∨ startId ∈ q))
    with (fuel := subtreeFuel (edges graph)) (v := []) (q := [startId]) (r := result);
    [ | | right; by left | exact Hres].
  - intros v id q [H|[->|H]%elem_of_cons] Hd; auto.
    destruct Hd; [auto | done].
  - intros v id q [H|[->|H]%elem_of_cons] _ _.
    + left. apply elem_of_app. auto.
    + left. apply elem_of_app. right. by left.
    + right. apply elem_of_app. auto.
Qed.

Lemma getSubtree_closed x y :
  x ∈ result → y ∈ successors (edges graph) x → y ≠ excludeId → y ∈ result.
Proof.
  intros Hx Hy Hne.
  cut (y ∈ result ∨ y = excludeId ∨ y ∈ @nil string).
  { intros [?|[?|?%elem_of_nil]]; done. }
  revert x y Hx Hy Hne.
  cut (∀ x y, x ∈ result → y ∈ successors (edges graph) x →
              y ∈ result ∨ y = excludeId ∨ y ∈ @nil string); [eauto|].
  apply (getSubtreeLoop_invariant (edges graph) excludeId
           (λ v q, ∀ x y, x ∈ v → y ∈ successors (edges graph) x →
                          y ∈ v ∨ y = excludeId ∨ y ∈ q))
    with (fuel := subtreeFuel (edges graph)) (v := []) (q := [startId]) (r := result);
    [ | | | exact Hres].
  - intros v id q H Hd x y Hx Hy.
    destruct (H x y Hx Hy) as [?|[?|[->|?]%elem_of_cons]]; auto.
    destruct Hd; auto.
  - intros v id q H _ _ x y [Hx | ->%list_elem_of_singleton]%elem_of_app Hy.
    + destruct (H x y Hx Hy) as [?|[?|[->|?]%elem_of_cons]].
      * left. apply elem_of_app. auto.
      * auto.
      * left. apply elem_of_app. right. by left.
      * right. right. apply elem_of_app. auto.
    + right. right. apply elem_of_app. auto.
  - intros x y ?%elem_of_nil. done.
Qed.

(** The result is the least set that holds the start and is closed under
    the edges that do not leave from the excluded node. *)
Lemma getSubtree_least (S : string → Prop) :
  S startId →
  (∀ x y, S x → x ≠ excludeId → y ∈ successors (edges graph) x → S y) →
  ∀ x, x ∈ result → S x.
Proof.
  intros Hs Hc.
  cut (∀ x, (x ∈ result → S x) ∧ (x ∈ @nil string → S x)).
  { intros H x. apply H. }
  apply (getSubtreeLoop_invariant (edges graph) excludeId
           (λ v q, ∀ x, (x ∈ v → S x) ∧ (x ∈ q → S x)))
    with (fuel := subtreeFuel (edges graph)) (v := []) (q := [startId]) (r := result);
    [ | | | exact Hres].
  - intros v id q H _ x. destruct (H x) as [H1 H2]. split; [done|].
    intros Hx. apply H2. by right.
  - intros v id q H _ Hne x. destruct (H x) as [H1 H2].
    assert (S id) as Hid by (apply (H id); by left).
    split.
    + intros [Hx | ->%list_elem_of_singleton]%elem_of_app; auto.
    + intros [Hx | Hx]%elem_of_app.
      * apply H2. by right.
      * by apply (Hc id).
  - intros x. split; [by intros ?%elem_of_nil|].
    by intros ->%list_elem_of_singleton.
Qed.

End Subtree.


(** Two searches that avoid the same node. *)
Lemma getSubtree_empty_start graph x r :
  getSubtree graph x x = Some r → r = [].
Proof.
  intros H. apply elem_of_nil_inv. intros y Hy.
  pose proof (getSubtree_candidates _ _ _ _ H y Hy) as [Hne _].
  apply Hne.
  apply (getSubtree_least _ _ _ _ H (λ z, z = x)); [done | | done].
  intros z w -> Hz. done.
Qed.

Lemma getSubtree_nested graph a b x A B :
  getSubtree graph a x = Some A → getSubtree graph b x = Some B →
  a ∈ B → ∀ y, y ∈ A → y ∈ B.
Proof.
  intros HA HB Ha y Hy.
  pose proof (getSubtree_candidates _ _ _ _ HA y Hy) as [Hne _].
  destruct (getSubtree_least _ _ _ _ HA (λ z, z ∈ B ∨ z = x)) with y as [?|?];
    [by left | | done | done | done].
  intros z w [Hz|Hz] Hzx Hw; [|done].
  destruct (decide (w = x)) as [->|Hwx]; [by right|].
  left. by eapply getSubtree_closed.
Qed.

(** A branch root either survives the removal of the shared nodes, or its
    whole branch is shared (or empty) and nothing of it is left. *)
Lemma root_survives_or_nothing graph a b x A B :
  getSubtree graph a x = Some A → getSubtree graph b x = Some B →
  a ∈ filter (λ y, y ∉ B) A ∨ filter (λ y, y ∉ B) A = [].
Proof.
  intros HA HB.
  destruct (decide (a = x)) as [->|Hax].
  { right. by rewrite (getSubtree_empty_start _ _ _ HA). }
  pose proof (getSubtree_start _ _ _ _ HA Hax) as Ha.
  destruct (decide (a ∈ B)) as [HaB|HaB].
  - right. apply elem_of_nil_inv. intros y [HyB HyA]%list_elem_of_filter.
    apply HyB. exact (getSubtree_nested _ _ _ _ _ _ HA HB HaB y HyA).
  - left. apply list_elem_of_filter. done.
Qed.

(** ... and it is never among the nodes kept for the other branch. *)
Lemma root_not_in_other graph a b x A B :
  getSubtree graph a x = Some A → getSubtree graph b x = Some B →
  a ∉ filter (λ y, y ∉ A) B.
Proof.
  intros HA HB [HaA HaB]%list_elem_of_filter. apply HaA.
  pose proof (getSubtree_candidates _ _ _ _ HB a HaB) as [Hne _].
  by eapply getSubtree_start.
Qed.

(** *** dropShared *)

Lemma filter_ext_in {A} (P Q : A → Prop) `{!∀ x, Decision (P x), !∀ x, Decision (Q x)}
    (l : list A) :
  (∀ x, x ∈ l → P x ↔ Q x) → filter P l = filter Q l.
Proof.
  induction l as [|a l IH]; intros Hext; [done|].
  rewrite !filter_cons.
  rewrite IH by (intros x Hx; apply Hext; by right).
  apply decide_ext. apply Hext. by left.
Qed.

Lemma dropShared_loop (ys ns rest seen : list string) :
  foldl (λ acc id,
           if decide (id ∈ acc.2)
           then (filter (λ j, j ≠ id) acc.1, filter (λ j, j ≠ id) acc.2)
           else acc)
        (filter (λ x, ¬ (x ∈ seen ∧ x ∈ ns)) ys, filter (λ x, ¬ (x ∈ seen ∧ x ∈ ns)) ns)
        rest
  = (filter (λ x, ¬ (x ∈ seen ++ rest ∧ x ∈ ns)) ys,
     filter (λ x, ¬ (x ∈ seen ++ rest ∧ x ∈ ns)) ns).
Proof.
  revert seen. induction rest as [|id rest IH]; intros seen.
  - by rewrite app_nil_r.
  - simpl.
    assert (∀ l : list string, seen ++ id :: l = (seen ++ [id]) ++ l) as Happ
        by (intros l; by rewrite <- app_assoc).
    rewrite Happ, <- IH. f_equal.
    case_decide as Hd.
    + apply list_elem_of_filter in Hd as [Hseen Hns].
      rewrite !list_filter_filter.
      f_equal; apply list_filter_iff; intros x;
        rewrite elem_of_app, list_elem_of_singleton;
        destruct (decide (x = id)) as [->|]; tauto.
    + rewrite list_elem_of_filter in Hd.
      f_equal; apply list_filter_iff; intros x;
        rewrite elem_of_app, list_elem_of_singleton;
        destruct (decide (x = id)) as [->|]; [|tauto| |tauto];
        destruct (decide (id ∈ seen)); tauto.
Qed.

Lemma dropShared_spec ys ns :
  dropShared ys ns = (filter (λ x, x ∉ ns) ys, filter (λ x, x ∉ ys) ns).
Proof.
  unfold dropShared.
  pose proof (dropShared_loop ys ns ys []) as H. simpl in H.
  rewrite (list_filter_iff (λ x, ¬ (x ∈ [] ∧ x ∈ ns)) (λ _, True)) in H
    by (intros x; rewrite elem_of_nil; tauto).
  rewrite (list_filter_iff (λ x, ¬ (x ∈ [] ∧ x ∈ ns)) (λ _, True) ns) in H
    by (intros x; rewrite elem_of_nil; tauto).
  assert (∀ l : list string, filter (λ _, True) l = l) as Hid.
  { induction l as [|a l IHl]; [done|]. rewrite filter_cons_True by done. by f_equal. }
  rewrite !Hid in H. rewrite H.
  f_equal; apply filter_ext_in; intros x Hx; tauto.
Qed.

(** *** translate *)

Lemma translate_is_Some axis delta ids (p : gmap string Pos) :
  (∀ k, k ∈ ids → is_Some (p !! k)) → is_Some (translate axis delta ids p).
Proof.
  revert p. induction ids as [|id ids IH]; intros p H; simpl; [eauto|].
  destruct (H id) as [pos Hpos]; [by left|]. rewrite Hpos.
  apply IH. intros k Hk.
  destruct (decide (id = k)) as [->|Hne].
  - rewrite lookup_insert_eq. eauto.
  - rewrite lookup_insert_ne by done. apply H. by right.
Qed.

Lemma translate_lookup axis delta ids (p p' : gmap string Pos) :
  NoDup ids → translate axis delta ids p = Some p' →
  ∀ k, p' !! k = if decide (k ∈ ids) then shiftBy axis delta <$> p !! k else p !! k.
Proof.
  revert p. induction ids as [|id ids IH]; intros p Hnd H k; simpl in H.
  - injection H as <-. rewrite decide_False; [done | apply not_elem_of_nil].
  - apply NoDup_cons in Hnd as [Hid Hnd].
    destruct (p !! id) as [pos|] eqn:Hpos; [|discriminate].
    rewrite (IH _ Hnd H k).
    destruct (decide (k = id)) as [->|Hne].
    + rewrite decide_False by done. rewrite decide_True by (by left).
      by rewrite lookup_insert_eq, Hpos.
    + rewrite lookup_insert_ne by done.
      apply decide_ext. rewrite elem_of_cons. tauto.
Qed.

Lemma translate_dom axis delta ids (p p' : gmap string Pos) :
  translate axis delta ids p = Some p' → ∀ k, is_Some (p' !! k) ↔ is_Some (p !! k).
Proof.
  revert p. induction ids as [|id ids IH]; intros p H k; simpl in H.
  - by injection H as <-.
  - destruct (p !! id) as [pos|] eqn:Hpos; [|discriminate].
    rewrite (IH _ H k).
    destruct (decide (id = k)) as [->|Hne].
    + rewrite lookup_insert_eq, Hpos. split; eauto.
    + by rewrite lookup_insert_ne.
Qed.


(** *** One step of the normalization *)

Lemma enforceNode_skip graph direction p node :
  fn_type node ≠ TCondition → enforceNode graph direction p node = Some p.
Proof. intros H. unfold enforceNode. by rewrite decide_True. Qed.

(** The sign the step wants: "yes" not left of "no" (top-to-bottom), not
    below it (left-to-right). *)
Lemma yesIsCorrect_true direction yesRoot noRoot :
  yesIsCorrect direction yesRoot noRoot = true ↔
  match direction with
  | TB => px noRoot ≤ px yesRoot
  | LR => py yesRoot ≤ py noRoot
  end.
Proof. unfold yesIsCorrect. destruct direction; apply bool_decide_eq_true. Qed.

Section Step.
Variable graph : FlowGraph.
Variable direction : LayoutDirection.
Variable node : FlowNode.
Variables yesEdge noEdge : FlowEdge.
Hypothesis Hcond : fn_type node = TCondition.
Hypothesis Hyes :
  List.find (isLabelled Yes) (outEdgesOf graph (fn_id node)) = Some yesEdge.
Hypothesis Hno :
  List.find (isLabelled No) (outEdgesOf graph (fn_id node)) = Some noEdge.

Lemma enforceNode_missing_root p :
  p !! fe_to yesEdge = None ∨ p !! fe_to noEdge = None →
  enforceNode graph direction p node = Some p.
Proof.
  intros H. unfold enforceNode. rewrite decide_False by (intros ?; done).
  rewrite Hyes, Hno. destruct H as [-> | ->]; [done|].
  by destruct (p !! fe_to yesEdge).
Qed.

Lemma enforceNode_correct p yesRoot noRoot :
  p !! fe_to yesEdge = Some yesRoot → p !! fe_to noEdge = Some noRoot →
  yesIsCorrect direction yesRoot noRoot = true →
  enforceNode graph direction p node = Some p.
Proof.
  intros Hy Hn Hc. unfold enforceNode. rewrite decide_False by (intros ?; done).
  by rewrite Hyes, Hno, Hy, Hn, Hc.
Qed.

Variables ys ns : list string.
Hypothesis Hys : getSubtree graph (fe_to yesEdge) (fn_id node) = Some ys.
Hypothesis Hns : getSubtree graph (fe_to noEdge) (fn_id node) = Some ns.

Variable p : gmap string Pos.
Variables yesRoot noRoot : Pos.
Hypothesis Hy : p !! fe_to yesEdge = Some yesRoot.
Hypothesis Hn : p !! fe_to noEdge = Some noRoot.
Hypothesis Hwrong : yesIsCorrect direction yesRoot noRoot = false.

Let axis := normAxis direction.
Let delta := getAxis axis noRoot - getAxis axis yesRoot.
Let ys' := filter (λ x, x ∉ ns) ys.
Let ns' := filter (λ x, x ∉ ys) ns.

Lemma enforceNode_swap :
  enforceNode graph direction p node =
  translate axis delta ys' p ≫= translate axis (- delta) ns'.
Proof.
  unfold enforceNode. rewrite decide_False by (intros ?; done).
  rewrite Hyes, Hno, Hy, Hn, Hwrong, Hys, Hns. simpl.
  by rewrite dropShared_spec.
Qed.

Variable p' : gmap string Pos.
Hypothesis Hp' : enforceNode graph direction p node = Some p'.

Lemma swap_lookup k :
  p' !! k = if decide (k ∈ ys') then shiftBy axis delta <$> p !! k
            else if decide (k ∈ ns') then shiftBy axis (- delta) <$> p !! k
            else p !! k.
Proof.
  pose proof Hp' as H. rewrite enforceNode_swap in H.
  destruct (translate axis delta ys' p) as [p1|] eqn:H1; [|discriminate]. simpl in H.
  assert (NoDup ys') as Hdy by (apply NoDup_filter; by eapply getSubtree_NoDup).
  assert (NoDup ns') as Hdn by (apply NoDup_filter; by eapply getSubtree_NoDup).
  rewrite (translate_lookup _ _ _ _ _ Hdn H k), (translate_lookup _ _ _ _ _ Hdy H1 k).
  destruct (decide (k ∈ ys')) as [Hky|Hky]; [|done].
  rewrite decide_False; [done|].
  subst ys' ns'. rewrite list_elem_of_filter in Hky.
  rewrite list_elem_of_filter. tauto.
Qed.

(** Nodes that both searches reach stay where they are. *)
Lemma swap_shared k : k ∈ ys → k ∈ ns → p' !! k = p !! k.
Proof.
  intros Hky Hkn. rewrite swap_lookup.
  rewrite !decide_False; [done | |]; subst ys' ns';
    rewrite list_elem_of_filter; tauto.
Qed.

Lemma swap_yes_root :
  p' !! fe_to yesEdge =
  Some (if decide (fe_to yesEdge ∈ ys') then shiftBy axis delta yesRoot else yesRoot).
Proof.
  rewrite swap_lookup, Hy. case_decide; [done|].
  rewrite decide_False; [done|]. by eapply root_not_in_other.
Qed.

Lemma swap_no_root :
  p' !! fe_to noEdge =
  Some (if decide (fe_to noEdge ∈ ns') then shiftBy axis (- delta) noRoot else noRoot).
Proof.
  rewrite swap_lookup, Hn.
  rewrite decide_False by (by eapply root_not_in_other).
  by case_decide.
Qed.

(** If a root moved, "yes" ends on the right side or level with "no". *)
Lemma swap_corrects yesRoot' noRoot' :
  fe_to yesEdge ∈ ys' ∨ fe_to noEdge ∈ ns' →
  p' !! fe_to yesEdge = Some yesRoot' → p' !! fe_to noEdge = Some noRoot' →
  yesIsCorrect direction yesRoot' noRoot' = true.
Proof.
  intros Hmoved. rewrite swap_yes_root, swap_no_root. intros [= <-] [= <-].
  apply yesIsCorrect_true.
  assert (¬ match direction with
            | TB => px noRoot ≤ px yesRoot
            | LR => py yesRoot ≤ py noRoot
            end) as Hw.
  { rewrite <- yesIsCorrect_true. by rewrite Hwrong. }
  subst delta axis. clear Hp'.
  destruct direction; simpl in *;
    repeat case_decide; unfold shiftBy; simpl; try lia; tauto.
Qed.

(** If no root moved, nothing did. *)
Lemma swap_nothing :
  fe_to yesEdge ∉ ys' → fe_to noEdge ∉ ns' → p' = p.
Proof.
  intros Hy' Hn'.
  destruct (root_survives_or_nothing _ _ _ _ _ _ Hys Hns) as [?|Ey]; [done|].
  destruct (root_survives_or_nothing _ _ _ _ _ _ Hns Hys) as [?|En]; [done|].
  pose proof Hp' as H. rewrite enforceNode_swap in H.
  subst ys' ns'. rewrite Ey, En in H. simpl in H. congruence.
Qed.

End Step.

(** Either the step leaves the positions alone, or it is a swap. *)
Lemma enforceNode_cases graph direction node p p' :
  enforceNode graph direction p node = Some p' →
  p' = p ∨
  ∃ yesEdge noEdge ys ns yesRoot noRoot,
    fn_type node = TCondition ∧
    List.find (isLabelled Yes) (outEdgesOf graph (fn_id node)) = Some yesEdge ∧
    List.find (isLabelled No) (outEdgesOf graph (fn_id node)) = Some noEdge ∧
    getSubtree graph (fe_to yesEdge) (fn_id node) = Some ys ∧
    getSubtree graph (fe_to noEdge) (fn_id node) = Some ns ∧
    p !! fe_to yesEdge = Some yesRoot ∧ p !! fe_to noEdge = Some noRoot ∧
    yesIsCorrect direction yesRoot noRoot = false.
Proof.
  intros H.
  destruct (decide (fn_type node = TCondition)) as [Hc|Hc].
  2:{ rewrite enforceNode_skip in H by done. left. congruence. }
  destruct (List.find (isLabelled Yes) (outEdgesOf graph (fn_id node))) as [ye|] eqn:Hy.
  2:{ left. unfold enforceNode in H. rewrite decide_False, Hy in H by (intros ?; done).
      congruence. }
  destruct (List.find (isLabelled No) (outEdgesOf graph (fn_id node))) as [ne|] eqn:Hn.
  2:{ left. unfold enforceNode in H. rewrite decide_False, Hy, Hn in H by (intros ?; done).
      congruence. }
  destruct (p !! fe_to ye) as [yr|] eqn:Hyr.
  2:{ left. rewrite (enforceNode_missing_root _ _ _ _ _ Hc Hy Hn) in H by auto. congruence. }
  destruct (p !! fe_to ne) as [nr|] eqn:Hnr.
  2:{ left. rewrite (enforceNode_missing_root _ _ _ _ _ Hc Hy Hn) in H by auto. congruence. }
  destruct (yesIsCorrect direction yr nr) eqn:Hok.
  { left. rewrite (enforceNode_correct _ _ _ _ _ Hc Hy Hn _ _ _ Hyr Hnr Hok) in H.
    congruence. }
  destruct (getSubtree_total graph (fe_to ye) (fn_id node)) as [ys Hys].
  destruct (getSubtree_total graph (fe_to ne) (fn_id node)) as [ns Hns].
  right. exists ye, ne, ys, ns, yr, nr. done.
Qed.

(** A second run of the step on its own result changes nothing. *)
Lemma enforceNode_idempotent graph direction node p p' :
  enforceNode graph direction p node = Some p' →
  enforceNode graph direction p' node = Some p'.
Proof.
  intros H. destruct (enforceNode_cases _ _ _ _ _ H)
    as [-> | (ye & ne & ys & ns & yr & nr & Hc & Hy & Hn & Hys & Hns & Hyr & Hnr & Hw)];
    [done|].
  destruct (decide (fe_to ye ∈ filter (λ x, x ∉ ns) ys ∨
                    fe_to ne ∈ filter (λ x, x ∉ ys) ns)) as [Hm|Hm].
  - pose proof (swap_yes_root _ _ _ _ _ Hc Hy Hn _ _ Hys Hns _ _ _ Hyr Hnr Hw _ H) as Hy'.
    pose proof (swap_no_root _ _ _ _ _ Hc Hy Hn _ _ Hys Hns _ _ _ Hyr Hnr Hw _ H) as Hn'.
    eapply (enforceNode_correct _ _ _ _ _ Hc Hy Hn); [exact Hy' | exact Hn' |].
    exact (swap_corrects _ _ _ _ _ Hc Hy Hn _ _ Hys Hns _ _ _ Hyr Hnr Hw _ H _ _ Hm Hy' Hn').
  - rewrite (swap_nothing _ _ _ _ _ Hc Hy Hn _ _ Hys Hns _ _ _ Hyr Hnr Hw _ H) at 1;
      [| tauto | tauto].
    exact H.
Qed.

(** The step never adds or removes a position ... *)
Lemma enforceNode_dom graph direction node p p' :
  enforceNode graph direction p node = Some p' →
  ∀ k, is_Some (p' !! k) ↔ is_Some (p !! k).
Proof.
  intros H k. destruct (enforceNode_cases _ _ _ _ _ H)
    as [-> | (ye & ne & ys & ns & yr & nr & Hc & Hy & Hn & Hys & Hns & Hyr & Hnr & Hw)];
    [done|].
  rewrite (swap_lookup _ _ _ _ _ Hc Hy Hn _ _ Hys Hns _ _ _ Hyr Hnr Hw _ H k).
  repeat case_decide; rewrite ?fmap_is_Some; done.
Qed.

(** ... and returns whenever every edge target has a position. *)
Lemma enforceNode_returns graph direction node p :
  (∀ e, e ∈ edges graph → is_Some (p !! fe_to e)) →
  is_Some (enforceNode graph direction p node).
Proof.
  intros Hpos.
  destruct (decide (fn_type node = TCondition)) as [Hc|Hc].
  2:{ rewrite enforceNode_skip by done. eauto. }
  destruct (List.find (isLabelled Yes) (outEdgesOf graph (fn_id node))) as [ye|] eqn:Hy.
  2:{ unfold enforceNode. rewrite decide_False, Hy by (intros ?; done). eauto. }
  destruct (List.find (isLabelled No) (outEdgesOf graph (fn_id node))) as [ne|] eqn:Hn.
  2:{ unfold enforceNode. rewrite decide_False, Hy, Hn by (intros ?; done). eauto. }
  destruct (p !! fe_to ye) as [yr|] eqn:Hyr.
  2:{ rewrite (enforceNode_missing_root _ _ _ _ _ Hc Hy Hn) by auto. eauto. }
  destruct (p !! fe_to ne) as [nr|] eqn:Hnr.
  2:{ rewrite (enforceNode_missing_root _ _ _ _ _ Hc Hy Hn) by auto. eauto. }
  destruct (yesIsCorrect direction yr nr) eqn:Hok.
  { rewrite (enforceNode_correct _ _ _ _ _ Hc Hy Hn _ _ _ Hyr Hnr Hok). eauto. }
  destruct (getSubtree_total graph (fe_to ye) (fn_id node)) as [ys Hys].
  destruct (getSubtree_total graph (fe_to ne) (fn_id node)) as [ns Hns].
  rewrite (enforceNode_swap _ _ _ _ _ Hc Hy Hn _ _ Hys Hns _ _ _ Hyr Hnr Hok).
  assert (∀ a r k, getSubtree graph a (fn_id node) = Some r → is_Some (p !! a) →
                   k ∈ r → is_Some (p !! k)) as Hsub.
  { intros a r k Hr Ha Hk.
    destruct (getSubtree_candidates _ _ _ _ Hr k Hk) as [_ [->|Hin]%elem_of_cons]; [done|].
    apply list_elem_of_fmap in Hin as [e [-> He]]. by apply Hpos. }
  destruct (translate_is_Some (normAxis direction)
              (getAxis (normAxis direction) nr - getAxis (normAxis direction) yr)
              (filter (λ x, x ∉ ns) ys) p) as [p1 H1].
  { intros k [_ Hk]%list_elem_of_filter. eapply Hsub; [exact Hys | by rewrite Hyr | done]. }
  rewrite H1. simpl. apply translate_is_Some.
  intros k [_ Hk]%list_elem_of_filter.
  apply (translate_dom _ _ _ _ _ H1).
  eapply Hsub; [exact Hns | by rewrite Hnr | done].
Qed.


(** *** The whole pass *)

Lemma pass_None graph direction l :
  foldl (λ acc node, positions ← acc; enforceNode graph direction positions node)
        None l = None.
Proof. induction l as [|n l IH]; [done|]. exact IH. Qed.

Lemma pass_without_conditions graph direction l p :
  Forall (λ n, fn_type n ≠ TCondition) l →
  foldl (λ acc node, positions ← acc; enforceNode graph direction positions node)
        (Some p) l = Some p.
Proof.
  induction 1 as [|n l Hn _ IH]; [done|].
  simpl. rewrite enforceNode_skip by done. exact IH.
Qed.

Lemma filter_singleton_split {A} (P : A → Prop) `{!∀ x, Decision (P x)} (l : list A) c :
  filter P l = [c] →
  ∃ l1 l2, l = l1 ++ c :: l2 ∧ Forall (λ x, ¬ P x) l1 ∧ Forall (λ x, ¬ P x) l2.
Proof.
  induction l as [|a l IH]; intros Hf; [done|].
  rewrite filter_cons in Hf. destruct (decide (P a)) as [Ha|Ha].
  - injection Hf as -> Hl. exists [], l. split_and!; [done | constructor |].
    apply Forall_forall. intros x Hx Px.
    assert (x ∈ filter P l) as Hin by (by apply list_elem_of_filter).
    rewrite Hl in Hin. by apply elem_of_nil in Hin.
  - destruct (IH Hf) as (l1 & l2 & -> & H1 & H2).
    exists (a :: l1), l2. split_and!; [done | by constructor | done].
Qed.

Lemma pass_single_condition graph direction p c :
  filter (λ n, fn_type n = TCondition) (nodes graph) = [c] →
  enforceYesOnRight graph p direction = enforceNode graph direction p c.
Proof.
  intros (l1 & l2 & Hl & H1 & H2)%filter_singleton_split.
  unfold enforceYesOnRight. rewrite Hl, foldl_app. simpl.
  rewrite pass_without_conditions by done. simpl.
  destruct (enforceNode graph direction p c) as [p1|].
  - by apply pass_without_conditions.
  - apply pass_None.
Qed.

Lemma pass_no_condition graph direction p :
  filter (λ n, fn_type n = TCondition) (nodes graph) = [] →
  enforceYesOnRight graph p direction = Some p.
Proof.
  intros Hf. unfold enforceYesOnRight. apply pass_without_conditions.
  apply Forall_forall. intros n Hn Hc.
  assert (n ∈ filter (λ n, fn_type n = TCondition) (nodes graph)) as Hin
      by (by apply list_elem_of_filter).
  rewrite Hf in Hin. by apply elem_of_nil in Hin.
Qed.

Lemma pass_returns graph direction l p :
  (∀ e, e ∈ edges graph → is_Some (p !! fe_to e)) →
  is_Some (foldl (λ acc node, positions ← acc; enforceNode graph direction positions node)
                 (Some p) l).
Proof.
  revert p. induction l as [|n l IH]; intros p Hpos; simpl; [eauto|].
  destruct (enforceNode_returns graph direction n p Hpos) as [p1 H1].
  rewrite H1. apply IH. intros e He.
  apply (enforceNode_dom _ _ _ _ _ H1). by apply Hpos.
Qed.

(** *** Passes over several condition nodes *)

Lemma pass_app graph direction l1 l2 p p' :
  foldl (λ acc node, positions ← acc; enforceNode graph direction positions node)
        (Some p) (l1 ++ l2) = Some p' →
  ∃ p1,
    foldl (λ acc node, positions ← acc; enforceNode graph direction positions node)
          (Some p) l1 = Some p1 ∧
    foldl (λ acc node, positions ← acc; enforceNode graph direction positions node)
          (Some p1) l2 = Some p'.
Proof.
  rewrite foldl_app.
  destruct (foldl _ (Some p) l1) as [p1|]; [eauto|].
  by rewrite pass_None.
Qed.

Lemma pass_dom graph direction l p p' :
  foldl (λ acc node, positions ← acc; enforceNode graph direction positions node)
        (Some p) l = Some p' →
  ∀ k, is_Some (p' !! k) ↔ is_Some (p !! k).
Proof.
  revert p. induction l as [|n l IH]; intros p H k; simpl in H.
  - by injection H as <-.
  - destruct (enforceNode graph direction p n) as [p1|] eqn:H1;
      [|by rewrite pass_None in H].
    simpl in H. rewrite (IH _ H k). by apply (enforceNode_dom _ _ _ _ _ H1).
Qed.

(** An invariant of the positions that every step along a list of nodes
    keeps is kept by the pass over that list. *)
Lemma pass_invariant graph direction (I : gmap string Pos → Prop) l p p' :
  (∀ n q q', n ∈ l → I q → enforceNode graph direction q n = Some q' → I q') →
  I p →
  foldl (λ acc node, positions ← acc; enforceNode graph direction positions node)
        (Some p) l = Some p' →
  I p'.
Proof.
  revert p. induction l as [|n l IH]; intros p Hstep Hp H; simpl in H.
  - by injection H as <-.
  - destruct (enforceNode graph direction p n) as [p1|] eqn:H1;
      [|by rewrite pass_None in H].
    simpl in H. apply (IH p1); [| |exact H].
    + intros m q q' Hm. apply Hstep. by right.
    + apply (Hstep n p p1); [by left | done | done].
Qed.

(** The step looks at a node's type and id only. *)
Lemma enforceNode_same_id graph direction p c d :
  fn_type d = fn_type c → fn_id d = fn_id c →
  enforceNode graph direction p d = enforceNode graph direction p c.
Proof. intros Ht Hi. unfold enforceNode. by rewrite Ht, Hi. Qed.

(** A node that is in both searches of a step, or in neither, stays. *)
Lemma enforceNode_untouched graph direction node p p' k :
  (∀ yesEdge noEdge ys ns,
     fn_type node = TCondition →
     List.find (isLabelled Yes) (outEdgesOf graph (fn_id node)) = Some yesEdge →
     List.find (isLabelled No) (outEdgesOf graph (fn_id node)) = Some noEdge →
     getSubtree graph (fe_to yesEdge) (fn_id node) = Some ys →
     getSubtree graph (fe_to noEdge) (fn_id node) = Some ns →
     k ∈ ys ↔ k ∈ ns) →
  enforceNode graph direction p node = Some p' → p' !! k = p !! k.
Proof.
  intros Hk H. destruct (enforceNode_cases _ _ _ _ _ H)
    as [-> | (ye & ne & ys & ns & yr & nr & Hc & Hy & Hn & Hys & Hns & Hyr & Hnr & Hw)];
    [done|].
  specialize (Hk ye ne ys ns Hc Hy Hn Hys Hns).
  rewrite (swap_lookup _ _ _ _ _ Hc Hy Hn _ _ Hys Hns _ _ _ Hyr Hnr Hw _ H k).
  rewrite !decide_False; [done | |]; rewrite list_elem_of_filter; tauto.
Qed.

(** Two nodes that a step treats alike keep their distance along the axis,
    and so their order. *)
Lemma enforceNode_together graph direction node p p' a b pa pb :
  (∀ yesEdge noEdge ys ns,
     fn_type node = TCondition →
     List.find (isLabelled Yes) (outEdgesOf graph (fn_id node)) = Some yesEdge →
     List.find (isLabelled No) (outEdgesOf graph (fn_id node)) = Some noEdge →
     getSubtree graph (fe_to yesEdge) (fn_id node) = Some ys →
     getSubtree graph (fe_to noEdge) (fn_id node) = Some ns →
     (a ∈ ys ∧ a ∉ ns ↔ b ∈ ys ∧ b ∉ ns) ∧ (a ∈ ns ∧ a ∉ ys ↔ b ∈ ns ∧ b ∉ ys)) →
  enforceNode graph direction p node = Some p' →
  p !! a = Some pa → p !! b = Some pb →
  ∃ pa' pb', p' !! a = Some pa' ∧ p' !! b = Some pb' ∧
             yesIsCorrect direction pa' pb' = yesIsCorrect direction pa pb.
Proof.
  intros Hk H Ha Hb. destruct (enforceNode_cases _ _ _ _ _ H)
    as [-> | (ye & ne & ys & ns & yr & nr & Hc & Hy & Hn & Hys & Hns & Hyr & Hnr & Hw)];
    [eauto|].
  destruct (Hk ye ne ys ns Hc Hy Hn Hys Hns) as [Hyy Hnn].
  rewrite !(swap_lookup _ _ _ _ _ Hc Hy Hn _ _ Hys Hns _ _ _ Hyr Hnr Hw _ H).
  rewrite Ha, Hb.
  set (delta := getAxis (normAxis direction) nr - getAxis (normAxis direction) yr).
  destruct (decide (a ∈ filter (λ x, x ∉ ns) ys)) as [Hay|Hay].
  - rewrite (decide_True (P := b ∈ filter (λ x, x ∉ ns) ys))
      by (rewrite list_elem_of_filter in *; tauto).
    eexists _, _. split_and!; [done | done |].
    unfold yesIsCorrect, shiftBy. destruct direction; simpl;
      apply bool_decide_ext; lia.
  - rewrite (decide_False (P := b ∈ filter (λ x, x ∉ ns) ys))
      by (rewrite list_elem_of_filter in *; tauto).
    destruct (decide (a ∈ filter (λ x, x ∉ ys) ns)) as [Han|Han].
    + rewrite (decide_True (P := b ∈ filter (λ x, x ∉ ys) ns))
        by (rewrite list_elem_of_filter in *; tauto).
      eexists _, _. split_and!; [done | done |].
      unfold yesIsCorrect, shiftBy. destruct direction; simpl;
        apply bool_decide_ext; lia.
    + rewrite (decide_False (P := b ∈ filter (λ x, x ∉ ys) ns))
        by (rewrite list_elem_of_filter in *; tauto).
      eauto.
Qed.

(** *** Idempotence *)

(** The step performed for one condition node is idempotent on every
    graph; and on a graph with at most one condition node a second run of
    the whole normalization on the positions the first run produced
    returns those positions unchanged.  The normalization returns whenever
    every edge target has a position. *)
Lemma enforceYesOnRight_idempotent graph direction p :
  (∀ node p', enforceNode graph direction p node = Some p' →
              enforceNode graph direction p' node = Some p') ∧
  ((length (filter (λ n, fn_type n = TCondition) (nodes graph)) ≤ 1)%nat →
   ∀ p', enforceYesOnRight graph p direction = Some p' →
         enforceYesOnRight graph p' direction = Some p') ∧
  ((∀ e, e ∈ edges graph → is_Some (p !! fe_to e)) →
   is_Some (enforceYesOnRight graph p direction)).
Proof.
  split_and!.
  - intros node p' H. exact (enforceNode_idempotent _ _ _ _ _ H).
  - intros Hlen p' H.
    destruct (filter (λ n, fn_type n = TCondition) (nodes graph)) as [|c [|c' l]] eqn:Hf.
    + by apply pass_no_condition.
    + rewrite (pass_single_condition _ _ p c Hf) in H.
      rewrite (pass_single_condition _ _ p' c Hf).
      exact (enforceNode_idempotent _ _ _ _ _ H).
    + simpl in Hlen. lia.
  - intros Hpos. by apply pass_returns.
Qed.

(** C4.  The code is not idempotent on the payment flow, which
    [validateFlow] accepts and whose two condition nodes have overlapping
    branches.  In the first pass the step for condition 3 undoes what the
    step for condition 2 did: the pass ends with the yes target of
    condition 2 (node 4) strictly left of its no target (node 3), which the
    comment above [enforceYesOnRight] rules out for every condition node;
    and a second pass on that result moves node 3 again. *)
Theorem enforceYesOnRight_undoes_earlier_swap :
  validateFlow Examples.paymentGraph = inr () ∧
  (∃ p1 p2,
     enforceYesOnRight Examples.paymentGraph Examples.paymentPositions TB = Some p1 ∧
     enforceYesOnRight Examples.paymentGraph p1 TB = Some p2 ∧
     List.find (isLabelled Yes) (outEdgesOf Examples.paymentGraph "2")
       = Some (mkFlowEdge "2" "4" (Some "Yes")) ∧
     List.find (isLabelled No) (outEdgesOf Examples.paymentGraph "2")
       = Some (mkFlowEdge "2" "3" (Some "No")) ∧
     p1 !! "4" = Some (mkPos (-200) 400) ∧ p1 !! "3" = Some (mkPos 0 200) ∧
     yesIsCorrect TB (mkPos (-200) 400) (mkPos 0 200) = false ∧
     p2 !! "3" = Some (mkPos (-200) 200) ∧
     p2 ≠ p1).
Proof.
  split; [vm_compute; reflexivity|].
  destruct (enforceYesOnRight Examples.paymentGraph Examples.paymentPositions TB)
    as [p1|] eqn:E1; [|vm_compute in E1; discriminate].
  destruct (enforceYesOnRight Examples.paymentGraph p1 TB)
    as [p2|] eqn:E2.
  2:{ vm_compute in E1. injection E1 as <-. vm_compute in E2. discriminate. }
  exists p1, p2.
  vm_compute in E1. injection E1 as <-. vm_compute in E2. injection E2 as <-.
  split_and!; try reflexivity.
  intros H. apply (f_equal (λ m : gmap string Pos, m !! "3")) in H.
  vm_compute in H. discriminate H.
Qed.

(** *** Which side the yes branch ends on *)

Lemma find_out_edge graph id (P : FlowEdge → bool) e :
  List.find P (outEdgesOf graph id) = Some e → e ∈ edges graph.
Proof.
  intros [Hin _]%find_some. apply list_elem_of_In in Hin.
  unfold outEdgesOf in Hin. by apply list_elem_of_filter in Hin as [_ ?].
Qed.

(** C5 (as the code has it).  Take any graph, any positions that cover
    every edge target, and any condition node that has a yes edge and a no
    edge, of whose targets at least one is neither the condition node nor
    reachable from the other.  If no condition node that comes later in
    the node list moves one of the two targets without moving the other the
    same way (each later one has both targets among the nodes only its yes
    branch reaches, or both among those only its no branch reaches, or
    neither in either set), the normalization returns and leaves the yes
    root on the preferred side of the no root or level with it: not left of
    it top-to-bottom, not below it left-to-right. *)
Theorem yes_root_on_preferred_side
    graph direction before c after yesEdge noEdge ys ns p :
  nodes graph = before ++ c :: after →
  fn_type c = TCondition →
  List.find (isLabelled Yes) (outEdgesOf graph (fn_id c)) = Some yesEdge →
  List.find (isLabelled No) (outEdgesOf graph (fn_id c)) = Some noEdge →
  getSubtree graph (fe_to yesEdge) (fn_id c) = Some ys →
  getSubtree graph (fe_to noEdge) (fn_id c) = Some ns →
  (fe_to yesEdge ≠ fn_id c ∧ fe_to yesEdge ∉ ns) ∨
  (fe_to noEdge ≠ fn_id c ∧ fe_to noEdge ∉ ys) →
  (∀ d yd nd ysd nsd,
     d ∈ after → fn_type d = TCondition → fn_id d ≠ fn_id c →
     List.find (isLabelled Yes) (outEdgesOf graph (fn_id d)) = Some yd →
     List.find (isLabelled No) (outEdgesOf graph (fn_id d)) = Some nd →
     getSubtree graph (fe_to yd) (fn_id d) = Some ysd →
     getSubtree graph (fe_to nd) (fn_id d) = Some nsd →
     (fe_to yesEdge ∈ ysd ∧ fe_to yesEdge ∉ nsd ↔ fe_to noEdge ∈ ysd ∧ fe_to noEdge ∉ nsd) ∧
     (fe_to yesEdge ∈ nsd ∧ fe_to yesEdge ∉ ysd ↔ fe_to noEdge ∈ nsd ∧ fe_to noEdge ∉ ysd)) →
  (∀ e, e ∈ edges graph → is_Some (p !! fe_to e)) →
  ∃ p' yesRoot noRoot,
    enforceYesOnRight graph p direction = Some p' ∧
    p' !! fe_to yesEdge = Some yesRoot ∧ p' !! fe_to noEdge = Some noRoot ∧
    match direction with
    | TB => px noRoot ≤ px yesRoot
    | LR => py yesRoot ≤ py noRoot
    end.
Proof.
  intros Hnodes Hc Hy Hn Hys Hns Hfree Hlater Hpos.
  destruct (pass_returns graph direction (nodes graph) p Hpos) as [p' H].
  exists p'.
  pose proof (Hpos _ (find_out_edge _ _ _ _ Hy)) as Hpy.
  pose proof (Hpos _ (find_out_edge _ _ _ _ Hn)) as Hpn.
  pose proof H as Hret.
  rewrite Hnodes in H.
  apply pass_app in H as (p1 & H1 & H2). simpl in H2.
  destruct (enforceNode graph direction p1 c) as [p2|] eqn:Hstep;
    [|by rewrite pass_None in H2].
  simpl in H2.
  apply (pass_dom _ _ _ _ _ H1) in Hpy as [yr Hyr].
  apply (pass_dom _ _ _ _ _ H1) in Hpn as [nr Hnr].
  set (I := λ q : gmap string Pos,
         ∃ yesRoot noRoot,
           q !! fe_to yesEdge = Some yesRoot ∧ q !! fe_to noEdge = Some noRoot ∧
           yesIsCorrect direction yesRoot noRoot = true).
  assert (I p2) as Hp2.
  { destruct (yesIsCorrect direction yr nr) eqn:Hok.
    - rewrite (enforceNode_correct _ _ _ _ _ Hc Hy Hn _ _ _ Hyr Hnr Hok) in Hstep.
      injection Hstep as <-. by exists yr, nr.
    - pose proof (swap_yes_root _ _ _ _ _ Hc Hy Hn _ _ Hys Hns _ _ _ Hyr Hnr Hok _ Hstep)
        as Hy'.
      pose proof (swap_no_root _ _ _ _ _ Hc Hy Hn _ _ Hys Hns _ _ _ Hyr Hnr Hok _ Hstep)
        as Hn'.
      eexists _, _. split_and!; [exact Hy' | exact Hn' |].
      apply (swap_corrects _ _ _ _ _ Hc Hy Hn _ _ Hys Hns _ _ _ Hyr Hnr Hok _ Hstep _ _);
        [| exact Hy' | exact Hn'].
      destruct Hfree as [[Hne Hnot] | [Hne Hnot]]; [left | right];
        apply list_elem_of_filter; (split; [done|]); by eapply getSubtree_start. }
  assert (I p') as (yr' & nr' & Hy' & Hn' & Hok').
  { apply (pass_invariant graph direction I after p2 p'); [| exact Hp2 | exact H2].
    intros d q q' Hd (y0 & n0 & Hq1 & Hq2 & Hq3) Hq.
    destruct (decide (fn_type d = TCondition)) as [Hdc|Hdc].
    2:{ rewrite enforceNode_skip in Hq by done. injection Hq as <-. by exists y0, n0. }
    destruct (decide (fn_id d = fn_id c)) as [Hid|Hid].
    { rewrite (enforceNode_same_id _ _ _ c d) in Hq by congruence.
      rewrite (enforceNode_correct _ _ _ _ _ Hc Hy Hn _ _ _ Hq1 Hq2 Hq3) in Hq.
      injection Hq as <-. by exists y0, n0. }
    destruct (enforceNode_together graph direction d q q'
                (fe_to yesEdge) (fe_to noEdge) y0 n0) as (y1 & n1 & ? & ? & Heq);
      [| exact Hq | exact Hq1 | exact Hq2 |].
    - intros yd nd ysd nsd _ Hyd Hnd Hysd Hnsd.
      by apply (Hlater d yd nd ysd nsd).
    - exists y1, n1. split_and!; [done | done | by rewrite Heq]. }
  exists yr', nr'. split_and!; [done | done | done | by apply yesIsCorrect_true].
Qed.

Lemma yes_root_on_preferred_side_witness :
  ∃ p' yesRoot noRoot,
    enforceYesOnRight Examples.funnelGraph Examples.funnelPositions TB = Some p' ∧
    p' !! "3" = Some yesRoot ∧ p' !! "4" = Some noRoot ∧ px noRoot ≤ px yesRoot.
Proof.
  apply (yes_root_on_preferred_side Examples.funnelGraph TB
           [mkFlowNode "1" "Start" TStart]
           (mkFlowNode "2" "Member?" TCondition)
           [mkFlowNode "3" "Discount" TAction; mkFlowNode "4" "Coupon?" TCondition;
            mkFlowNode "5" "Apply" TAction; mkFlowNode "6" "Full price" TAction;
            mkFlowNode "7" "Pay" TEnd]
           (mkFlowEdge "2" "3" (Some "Yes")) (mkFlowEdge "2" "4" (Some "No"))
           ["3"; "7"] ["4"; "5"; "6"; "7"] Examples.funnelPositions);
    [reflexivity | reflexivity | reflexivity | reflexivity | reflexivity | reflexivity
    | left; split; [discriminate | apply (bool_decide_unpack _); vm_compute; exact I]
    | | ].
  - intros d yd nd ysd nsd Hd Ht _ Hyd Hnd Hysd Hnsd.
    simpl in Hd. rewrite !elem_of_cons, elem_of_nil in Hd.
    destruct Hd as [->|[->|[->|[->|[->|[]]]]]]; try discriminate Ht.
    vm_compute in Hyd, Hnd. injection Hyd as <-. injection Hnd as <-.
    vm_compute in Hysd, Hnsd. injection Hysd as <-. injection Hnsd as <-.
    apply (bool_decide_unpack _). vm_compute. exact I.
  - intros e He. apply (bool_decide_unpack _).
    simpl in He. rewrite !elem_of_cons, elem_of_nil in He.
    destruct He as [->|[->|[->|[->|[->|[->|[->|[->|[]]]]]]]]]; vm_compute; exact I.
Defined.

(** C5 as stated fails in three ways.  When the no branch rejoins the yes
    target, the two roots end level, not strictly apart; with overlapping
    condition nodes the yes root of the first ends strictly on the wrong
    side; and when each root is reachable from the other nothing moves. *)
Lemma yes_root_not_strictly_preferred :
  (length (outEdgesOf Examples.rejoinGraph "2") = 2%nat ∧
   (p' ← enforceYesOnRight Examples.rejoinGraph Examples.rejoinPositions TB; p' !! "3")
     = Some (mkPos 0 400) ∧
   (p' ← enforceYesOnRight Examples.rejoinGraph Examples.rejoinPositions TB; p' !! "4")
     = Some (mkPos 0 250) ∧
   ¬ (px (mkPos 0 250) < px (mkPos 0 400))) ∧
  (length (outEdgesOf Examples.paymentGraph "2") = 2%nat ∧
   (p' ← enforceYesOnRight Examples.paymentGraph Examples.paymentPositions TB; p' !! "4")
     = Some (mkPos (-200) 400) ∧
   (p' ← enforceYesOnRight Examples.paymentGraph Examples.paymentPositions TB; p' !! "3")
     = Some (mkPos 0 200) ∧
   ¬ (px (mkPos 0 200) ≤ px (mkPos (-200) 400))) ∧
  (length (outEdgesOf Examples.loopGraph "2") = 2%nat ∧
   (p' ← enforceYesOnRight Examples.loopGraph Examples.loopPositions TB; p' !! "3")
     = Some (mkPos 0 250) ∧
   (p' ← enforceYesOnRight Examples.loopGraph Examples.loopPositions TB; p' !! "4")
     = Some (mkPos 200 250) ∧
   ¬ (px (mkPos 200 250) ≤ px (mkPos 0 250))).
Proof. split_and!; try (vm_compute; reflexivity); simpl; lia. Qed.

(** *** Convergence nodes *)

(** C6 (as the code has it).  The step the normalization performs for a
    condition node leaves every node that both of its branches reach where
    it was, whichever branch is translated; and the whole normalization
    leaves such a node where it was on every graph in which each other
    condition node also reaches it from both of its branches or from
    neither. *)
Theorem shared_node_kept_by_its_condition graph direction c yesEdge noEdge ys ns k p p' :
  fn_type c = TCondition →
  List.find (isLabelled Yes) (outEdgesOf graph (fn_id c)) = Some yesEdge →
  List.find (isLabelled No) (outEdgesOf graph (fn_id c)) = Some noEdge →
  getSubtree graph (fe_to yesEdge) (fn_id c) = Some ys →
  getSubtree graph (fe_to noEdge) (fn_id c) = Some ns →
  k ∈ ys → k ∈ ns →
  (enforceNode graph direction p c = Some p' → p' !! k = p !! k) ∧
  ((∀ d yd nd ysd nsd,
      d ∈ nodes graph → fn_type d = TCondition → fn_id d ≠ fn_id c →
      List.find (isLabelled Yes) (outEdgesOf graph (fn_id d)) = Some yd →
      List.find (isLabelled No) (outEdgesOf graph (fn_id d)) = Some nd →
      getSubtree graph (fe_to yd) (fn_id d) = Some ysd →
      getSubtree graph (fe_to nd) (fn_id d) = Some nsd →
      k ∈ ysd ↔ k ∈ nsd) →
   enforceYesOnRight graph p direction = Some p' → p' !! k = p !! k).
Proof.
  intros Hc Hy Hn Hys Hns Hky Hkn.
  assert (∀ q q', enforceNode graph direction q c = Some q' → q' !! k = q !! k) as Hstep.
  { intros q q'. apply enforceNode_untouched.
    intros ye ne ys0 ns0 _ Hy0 Hn0 Hys0 Hns0.
    rewrite Hy in Hy0. injection Hy0 as <-. rewrite Hn in Hn0. injection Hn0 as <-.
    rewrite Hys in Hys0. injection Hys0 as <-. rewrite Hns in Hns0. injection Hns0 as <-.
    tauto. }
  split; [apply Hstep|].
  intros Hothers H.
  apply (pass_invariant graph direction (λ q, q !! k = p !! k) (nodes graph) p p');
    [| done | exact H].
  intros d q q' Hd Hq Hdq. rewrite <- Hq.
  destruct (decide (fn_type d = TCondition)) as [Hdc|Hdc].
  2:{ rewrite enforceNode_skip in Hdq by done. by injection Hdq as <-. }
  destruct (decide (fn_id d = fn_id c)) as [Hid|Hid].
  { rewrite (enforceNode_same_id _ _ _ c d) in Hdq by congruence. by apply Hstep. }
  revert Hdq. apply enforceNode_untouched.
  intros yd nd ysd nsd _ Hyd Hnd Hysd Hnsd. by apply (Hothers d yd nd ysd nsd).
Qed.

Lemma shared_node_kept_by_its_condition_witness :
  ∃ p', enforceYesOnRight Examples.funnelGraph Examples.funnelPositions TB = Some p' ∧
        p' !! "3" = Some (mkPos 400 250) ∧ p' !! "5" = Some (mkPos 100 400) ∧
        p' !! "7" = Examples.funnelPositions !! "7".
Proof.
  destruct (enforceYesOnRight Examples.funnelGraph Examples.funnelPositions TB)
    as [p'|] eqn:E; [|vm_compute in E; discriminate].
  exists p'. split_and!; [reflexivity | | | ].
  - vm_compute in E. injection E as <-. reflexivity.
  - vm_compute in E. injection E as <-. reflexivity.
  - apply (shared_node_kept_by_its_condition Examples.funnelGraph TB
             (mkFlowNode "2" "Member?" TCondition)
             (mkFlowEdge "2" "3" (Some "Yes")) (mkFlowEdge "2" "4" (Some "No"))
             ["3"; "7"] ["4"; "5"; "6"; "7"] "7" Examples.funnelPositions p');
      [reflexivity | reflexivity | reflexivity | reflexivity | reflexivity
      | apply (bool_decide_unpack _); vm_compute; exact I
      | apply (bool_decide_unpack _); vm_compute; exact I | | exact E].
    intros d yd nd ysd nsd Hd Ht Hid Hyd Hnd Hysd Hnsd.
    simpl in Hd. rewrite !elem_of_cons, elem_of_nil in Hd.
    destruct Hd as [->|[->|[->|[->|[->|[->|[->|[]]]]]]]]; try discriminate Ht.
    + by destruct Hid.
    + vm_compute in Hyd, Hnd. injection Hyd as <-. injection Hnd as <-.
      vm_compute in Hysd, Hnsd. injection Hysd as <-. injection Hnsd as <-.
      split; intros _; apply (bool_decide_unpack _); vm_compute; exact I.
Defined.

(** C6 as stated fails when another condition node owns the shared node:
    node 6 is reached from both branches of condition 2, and the step for
    condition 5 moves it. *)
Lemma shared_node_moved_by_other_condition :
  validateFlow Examples.sequenceGraph = inr () ∧
  (ys ← getSubtree Examples.sequenceGraph "3" "2"; Some (bool_decide ("6" ∈ ys))) = Some true ∧
  (ns ← getSubtree Examples.sequenceGraph "4" "2"; Some (bool_decide ("6" ∈ ns))) = Some true ∧
  Examples.sequencePositions !! "6" = Some (mkPos 0 550) ∧
  (p' ← enforceYesOnRight Examples.sequenceGraph Examples.sequencePositions TB; p' !! "6")
    = Some (mkPos 200 550).
Proof. split_and!; vm_compute; reflexivity. Qed.


(** *** Termination and the rendered edges *)

Lemma validateFlow_edges graph :
  validateFlow graph = inr () →
  ∀ e, e ∈ edges graph →
       fe_from e ∈ fn_id <$> nodes graph ∧ fe_to e ∈ fn_id <$> nodes graph.
Proof.
  unfold validateFlow.
  destruct (List.find _ (nodes graph)); [|discriminate].
  destruct (List.find _ (nodes graph)); [|discriminate].
  generalize (fn_id <$> nodes graph) as ids. intros ids.
  induction (edges graph) as [|a l IH]; intros H e He.
  - by apply elem_of_nil in He.
  - simpl in H.
    destruct (decide (fe_from a ∉ ids)) as [Hf|Hf].
    { exfalso. clear -H. induction l as [|b l IHl]; [discriminate | exact (IHl H)]. }
    destruct (decide (fe_to a ∉ ids)) as [Ht|Ht].
    { exfalso. clear -H. induction l as [|b l IHl]; [discriminate | exact (IHl H)]. }
    apply elem_of_cons in He as [->|He]; [|by apply IH].
    split; [by apply dec_stable | by apply dec_stable].
Qed.

Lemma initial_positions_cover (centre : string → Pos) l (acc : gmap string Pos) k :
  is_Some (acc !! k) ∨ k ∈ fn_id <$> l →
  is_Some (foldl (λ acc node,
                    let '(width, height) := getNodeSize (fn_type node) in
                    <[fn_id node := {| px := px (centre (fn_id node)) - width / 2;
                                       py := py (centre (fn_id node)) - height / 2 |}]> acc)
                 acc l !! k).
Proof.
  revert acc. induction l as [|n l IH]; intros acc H; simpl.
  - destruct H as [?|H]; [done|]. by apply elem_of_nil in H.
  - apply IH. destruct (getNodeSize (fn_type n)) as [w h].
    destruct (decide (fn_id n = k)) as [->|Hne].
    + left. rewrite lookup_insert_eq. eauto.
    + rewrite lookup_insert_ne by done.
      destruct H as [?|H]; [by left|].
      rewrite fmap_cons in H. apply elem_of_cons in H as [->|H]; [done | by right].
Qed.

(** The subtree search returns on every graph, cyclic or not.  On a graph
    that passed [validateFlow], once the sort and the dagre layout have
    returned, whatever they returned, the code of [transformToReactFlow]
    returns as well; and whenever it returns there is one React Flow edge
    per input edge, in the input order and with the same source, target and
    label, cycle-closing edges included. *)
Lemma layout_terminates_keeping_edges
    (arraySort : (FlowEdge → FlowEdge → Z) → list FlowEdge → list FlowEdge)
    (dagreLayout : LayoutDirection → list (string * (Z * Z)) →
                   list (string * string * Z) → string → Pos)
    graph direction :
  (∀ startId excludeId, is_Some (getSubtree graph startId excludeId)) ∧
  (validateFlow graph = inr () →
   is_Some (transformToReactFlow arraySort dagreLayout graph direction)) ∧
  (∀ rfNodes rfEdges,
     transformToReactFlow arraySort dagreLayout graph direction = Some (rfNodes, rfEdges) →
     length rfEdges = length (edges graph) ∧
     ∀ i e, edges graph !! i = Some e →
            ∃ r, rfEdges !! i = Some r ∧ re_id r = "e" +:+ pretty i ∧
                 re_source r = fe_from e ∧ re_target r = fe_to e ∧
                 re_label r = fe_label e).
Proof.
  split_and!.
  - intros a x. apply getSubtree_total.
  - intros Hv. unfold transformToReactFlow, computeLayout, enforceYesOnRight. simpl.
    match goal with
    | |- context [foldl ?f (Some ?p0) (nodes graph)] =>
        destruct (pass_returns {| nodes := nodes graph; edges := edges graph |}
                    direction (nodes graph) p0) as [p1 Hp1]
    end.
    { simpl. intros e He. apply initial_positions_cover. right.
      by apply (validateFlow_edges graph Hv e He). }
    rewrite Hp1. simpl. eauto.
  - intros rfNodes rfEdges H. unfold transformToReactFlow in H.
    destruct (computeLayout _ _ _ _ _) as [positions|]; [|discriminate].
    simpl in H. injection H as <- <-.
    split; [apply length_imap|].
    intros i e He. rewrite list_lookup_imap, He. simpl. eauto 10.
Qed.

Lemma layout_terminates_keeping_edges_witness :
  ∃ rfNodes rfEdges,
    transformToReactFlow Examples.keepOrder Examples.diagonal Examples.retryGraph TB
      = Some (rfNodes, rfEdges) ∧
    ∃ r, rfEdges !! 4%nat = Some r ∧ re_source r = "5" ∧ re_target r = "2".
Proof.
  destruct (layout_terminates_keeping_edges Examples.keepOrder Examples.diagonal
              Examples.retryGraph TB) as (_ & Hret & Hedges).
  destruct (Hret eq_refl) as [[rfNodes rfEdges] Ht].
  destruct (Hedges rfNodes rfEdges Ht) as [_ He].
  destruct (He 4%nat (mkFlowEdge "5" "2" (Some "retry")) eq_refl)
    as (r & Hr & _ & Hs & Htg & _).
  exists rfNodes, rfEdges. split; [exact Ht|]. exists r. split_and!; done.
Defined.

(** *** A graph from a share link *)

Lemma translate_None axis delta ids (p : gmap string Pos) k :
  k ∈ ids → p !! k = None → translate axis delta ids p = None.
Proof.
  revert p. induction ids as [|id ids IH]; intros p Hk Hp; [by apply elem_of_nil in Hk|].
  simpl. destruct (p !! id) as [pos|] eqn:Hpos; [|done].
  apply elem_of_cons in Hk as [->|Hk]; [congruence|].
  apply IH; [done|].
  destruct (decide (id = k)) as [->|Hne]; [congruence|]. by rewrite lookup_insert_ne.
Qed.

(** A swap throws when a node that only the yes branch reaches has no
    position. *)
Lemma enforceNode_throws graph direction node yesEdge noEdge ys ns p yesRoot noRoot k :
  fn_type node = TCondition →
  List.find (isLabelled Yes) (outEdgesOf graph (fn_id node)) = Some yesEdge →
  List.find (isLabelled No) (outEdgesOf graph (fn_id node)) = Some noEdge →
  getSubtree graph (fe_to yesEdge) (fn_id node) = Some ys →
  getSubtree graph (fe_to noEdge) (fn_id node) = Some ns →
  p !! fe_to yesEdge = Some yesRoot → p !! fe_to noEdge = Some noRoot →
  yesIsCorrect direction yesRoot noRoot = false →
  k ∈ ys → k ∉ ns → p !! k = None →
  enforceNode graph direction p node = None.
Proof.
  intros Hc Hy Hn Hys Hns Hyr Hnr Hw Hky Hkn Hk.
  rewrite (enforceNode_swap _ _ _ _ _ Hc Hy Hn _ _ Hys Hns _ _ _ Hyr Hnr Hw).
  rewrite (translate_None _ _ _ _ k); [done | | done].
  by apply list_elem_of_filter.
Qed.

Lemma dangling_pass_throws (centre : string → Pos) direction :
  match direction with
  | TB => px (centre "3") < px (centre "4")
  | LR => py (centre "4") < py (centre "3")
  end →
  enforceYesOnRight Examples.danglingGraph
    (foldl (λ acc node,
              let '(width, height) := getNodeSize (fn_type node) in
              <[fn_id node := {| px := px (centre (fn_id node)) - width / 2;
                                 py := py (centre (fn_id node)) - height / 2 |}]> acc)
           ∅ (nodes Examples.danglingGraph))
    direction = None.
Proof.
  intros Hwrong. unfold enforceYesOnRight.
  set (p0 := foldl _ ∅ (nodes Examples.danglingGraph)).
  change (nodes Examples.danglingGraph)
    with ([mkFlowNode "1" "Start" TStart] ++
          mkFlowNode "2" "In stock?" TCondition ::
          [mkFlowNode "3" "Ship" TAction; mkFlowNode "4" "Refund" TEnd]).
  rewrite foldl_app. cbn [foldl mbind option_bind].
  rewrite enforceNode_skip by done. cbn [mbind option_bind].
  rewrite (enforceNode_throws Examples.danglingGraph direction
             (mkFlowNode "2" "In stock?" TCondition)
             (mkFlowEdge "2" "3" (Some "Yes")) (mkFlowEdge "2" "4" (Some "No"))
             ["3"; "5"] ["4"] p0
             (mkPos (px (centre "3") - 90) (py (centre "3") - 30))
             (mkPos (px (centre "4") - 90) (py (centre "4") - 30)) "5");
    [reflexivity | reflexivity | reflexivity | reflexivity | reflexivity | reflexivity
    | reflexivity | reflexivity | | | | reflexivity].
  - unfold yesIsCorrect. destruct direction; apply bool_decide_eq_false; simpl; lia.
  - apply (bool_decide_unpack _). vm_compute. exact I.
  - apply (bool_decide_unpack _). vm_compute. exact I.
Qed.

(** C9.  The layout does throw on a graph the application can receive.  A
    graph opened from a share link is parsed by [FlowGraphSchema] and laid
    out without [validateFlow], which [generateFlow] runs on a generated
    graph; the edge from node 3 to the missing node 5 passes.  Whatever the
    sort and dagre return, as soon as the yes target lies on the wrong side
    of the no target (left of it top-to-bottom, below it left-to-right),
    the step for condition 2 swaps, the search from the yes target reaches
    5, and reading [positions[id][axis]] of the missing entry throws:
    [computeLayout] and [transformToReactFlow] return nothing. *)
Theorem layout_throws_on_share_link_graph
    (arraySort : (FlowEdge → FlowEdge → Z) → list FlowEdge → list FlowEdge)
    (dagreLayout : LayoutDirection → list (string * (Z * Z)) →
                   list (string * string * Z) → string → Pos)
    direction :
  let centre :=
    dagreLayout direction
      ((λ n, (fn_id n, getNodeSize (fn_type n))) <$> nodes Examples.danglingGraph)
      ((λ e, (fe_from e, fe_to e, edgeWeight e))
         <$> arraySort compareEdges (edges Examples.danglingGraph)) in
  match direction with
  | TB => px (centre "3") < px (centre "4")
  | LR => py (centre "4") < py (centre "3")
  end →
  validateFlow Examples.danglingGraph = inl "Edge references unknown node: 5" ∧
  getSubtree Examples.danglingGraph "3" "2" = Some ["3"; "5"] ∧
  getSubtree Examples.danglingGraph "4" "2" = Some ["4"] ∧
  computeLayout arraySort dagreLayout
    (nodes Examples.danglingGraph) (edges Examples.danglingGraph) direction = None ∧
  transformToReactFlow arraySort dagreLayout Examples.danglingGraph direction = None.
Proof.
  intros centre Hwrong.
  assert (computeLayout arraySort dagreLayout
            (nodes Examples.danglingGraph) (edges Examples.danglingGraph) direction = None)
    as Hlayout by exact (dangling_pass_throws centre direction Hwrong).
  split_and!; [reflexivity | reflexivity | reflexivity | exact Hlayout |].
  unfold transformToReactFlow. by rewrite Hlayout.
Qed.

Lemma layout_throws_on_share_link_graph_witness :
  py (Examples.noBranchOnTop LR [] [] "4") < py (Examples.noBranchOnTop LR [] [] "3") ∧
  transformToReactFlow Examples.keepOrder Examples.noBranchOnTop Examples.danglingGraph LR
    = None.
Proof.
  split; [vm_compute; reflexivity|].
  apply (layout_throws_on_share_link_graph Examples.keepOrder Examples.noBranchOnTop LR).
  vm_compute. reflexivity.
Defined.

(** *** The condition handle map *)

Lemma handleMap_fold_Some (l : list FlowEdge) (m : gmap string Branch) k b :
  (m !! k = Some b ∨
   ∃ e, e ∈ l ∧ handleKey (fe_from e) (fe_to e) = k ∧ branchOfLabel (fe_label e) = Some b) →
  (∀ e, e ∈ l → handleKey (fe_from e) (fe_to e) = k →
        branchOfLabel (fe_label e) = None ∨ branchOfLabel (fe_label e) = Some b) →
  foldl (λ map edge,
           match branchOfLabel (fe_label edge) with
           | Some label => <[handleKey (fe_from edge) (fe_to edge) := label]> map
           | None => map
           end) m l !! k = Some b.
Proof.
  revert m. induction l as [|a l IH]; intros m Hex Hall; simpl.
  - destruct Hex as [?|(e & He & _)]; [done|]. by apply elem_of_nil in He.
  - apply IH; [|intros e He; apply Hall; by right].
    destruct (decide (handleKey (fe_from a) (fe_to a) = k)) as [Hk|Hk].
    + destruct (Hall a) as [Ha|Ha]; [by left | done | |]; rewrite Ha.
      * destruct Hex as [?|(e & [->|He]%elem_of_cons & Hke & Hbe)]; [by left | | ].
        -- congruence.
        -- right. eauto.
      * left. rewrite Hk. apply lookup_insert_eq.
    + destruct Hex as [Hm|(e & [->|He]%elem_of_cons & Hke & Hbe)].
      * left. destruct (branchOfLabel (fe_label a)); [|done].
        by rewrite lookup_insert_ne.
      * done.
      * right. eauto.
Qed.

Lemma handleMap_fold_None (l : list FlowEdge) (m : gmap string Branch) k :
  m !! k = None →
  (∀ e, e ∈ l → handleKey (fe_from e) (fe_to e) = k → branchOfLabel (fe_label e) = None) →
  foldl (λ map edge,
           match branchOfLabel (fe_label edge) with
           | Some label => <[handleKey (fe_from edge) (fe_to edge) := label]> map
           | None => map
           end) m l !! k = None.
Proof.
  revert m. induction l as [|a l IH]; intros m Hm Hall; simpl; [done|].
  apply IH; [|intros e He; apply Hall; by right].
  destruct (branchOfLabel (fe_label a)) as [b|] eqn:Hb; [|done].
  rewrite lookup_insert_ne; [done|].
  intros Hk. rewrite (Hall a) in Hb; [discriminate | by left | done].
Qed.

(** C2 (as the code has it).  The handle map is computed from the graph
    alone.  An edge labelled yes or no, case-insensitively, gets the side
    its label names, provided every other edge with the same [from→to] key
    that carries such a label carries the same one; a key none of whose
    edges is labelled yes or no gets no side.  Positions are never
    consulted. *)
Theorem handle_map_follows_labels graph :
  (∀ e b, e ∈ edges graph → branchOfLabel (fe_label e) = Some b →
     (∀ e', e' ∈ edges graph →
            handleKey (fe_from e') (fe_to e') = handleKey (fe_from e) (fe_to e) →
            branchOfLabel (fe_label e') = None ∨ branchOfLabel (fe_label e') = Some b) →
     buildConditionHandleMap graph !! handleKey (fe_from e) (fe_to e) = Some b) ∧
  (∀ k, (∀ e, e ∈ edges graph → handleKey (fe_from e) (fe_to e) = k →
              branchOfLabel (fe_label e) = None) →
        buildConditionHandleMap graph !! k = None).
Proof.
  split.
  - intros e b He Hb Hall. unfold buildConditionHandleMap.
    apply handleMap_fold_Some; [right; eauto | exact Hall].
  - intros k Hall. unfold buildConditionHandleMap.
    apply handleMap_fold_None; [apply lookup_empty | exact Hall].
Qed.

Lemma handle_map_follows_labels_witness :
  buildConditionHandleMap Examples.decisionGraph !! handleKey "2" "3" = Some Yes ∧
  buildConditionHandleMap Examples.decisionGraph !! handleKey "1" "2" = None.
Proof.
  destruct (handle_map_follows_labels Examples.decisionGraph) as [HS HN].
  split.
  - apply (HS (mkFlowEdge "2" "3" (Some "YES")) Yes); [right; by left | reflexivity |].
    intros e' He' Hk. unfold Examples.decisionGraph in He'. simpl in He'.
    rewrite !elem_of_cons, elem_of_nil in He'.
    destruct He' as [->|[->|[->|[]]]];
      first [ right; reflexivity | left; reflexivity | vm_compute in Hk; discriminate ].
  - apply HN. intros e He Hk. unfold Examples.decisionGraph in He. simpl in He.
    rewrite !elem_of_cons, elem_of_nil in He.
    destruct He as [->|[->|[->|[]]]];
      first [ reflexivity | vm_compute in Hk; discriminate ].
Defined.

(** C2 as stated fails: there is no positional fallback.  Two edges of one
    condition node that share a label get the same side; edges without a
    yes/no label get none; and the earlier, position-driven map ignores the
    labels (the edge labelled yes gets the no side when its target lies to
    the left). *)
Lemma handle_map_has_no_fallback :
  (outEdgesOf Examples.bothYesGraph "2"
     = [mkFlowEdge "2" "3" (Some "Yes"); mkFlowEdge "2" "4" (Some "yes")] ∧
   buildConditionHandleMap Examples.bothYesGraph !! handleKey "2" "3" = Some Yes ∧
   buildConditionHandleMap Examples.bothYesGraph !! handleKey "2" "4" = Some Yes) ∧
  (outEdgesOf Examples.unlabelledGraph "2"
     = [mkFlowEdge "2" "3" None; mkFlowEdge "2" "4" (Some "maybe")] ∧
   buildConditionHandleMap Examples.unlabelledGraph !! handleKey "2" "3" = None ∧
   buildConditionHandleMap Examples.unlabelledGraph !! handleKey "2" "4" = None) ∧
  (Positional.buildConditionHandleMap Examples.decisionGraph Examples.decisionPositions TB
     !! handleKey "2" "3" = Some No ∧
   branchOfLabel (Some "YES") = Some Yes).
Proof. split_and!; vm_compute; reflexivity. Qed.

End LayoutFacts.

(** ** More on the simulation engine *)

Module SimExtra.
Import Sim SimSpec SimFacts.

(** *** What each status says about the active node *)

Lemma consistent_advance m n s : consistent m (advance m n s).
Proof.
  assert (∀ (X : gset string), n ∈ X ∪ {[n]}) as Hin by set_solver.
  unfold consistent, typeOf, advance.
  destruct (nodeTypeMap m !! n) as [t|] eqn:Et; simpl;
    repeat case_decide; subst; try destruct (neighborsOf m n) eqn:En; simpl;
    (split_and!; [by intros a [= <-] | try discriminate ..]);
    intros _; exists n; rewrite ?Et; simpl; split; try done; auto.
Qed.

Lemma clearTimer_observable s : observable (clearTimer s) = observable s.
Proof. unfold clearTimer. by destruct (timerRef s). Qed.

Lemma consistent_step m s o : consistent m s → consistent m (step m s o).
Proof.
  intros H. pose proof H as (Ha & Hp & Hc & Hi). destruct o; simpl.
  - unfold start. destruct (startNodeId m) as [n|]; [destruct (falsy _)|];
      (split_and!; simpl; [intros ? [=] | intros [=] | intros [=] | intros [=]]).
  - unfold pause. pose proof (clearTimer_observable s) as [= _ Hact Hvn _].
    split_and!; simpl; try discriminate. rewrite Hact, Hvn. exact (proj1 H).
  - unfold resume. destruct (activeNodeId s); [apply consistent_advance | exact H].
  - unfold choose. destruct (status s) eqn:Es; try exact H.
    destruct (activeNodeId s) as [a|] eqn:Ea; [|exact H].
    destruct (findBranch _ _); [|exact H].
    split_and!; simpl; try discriminate. rewrite Ea. exact Ha.
  - split_and!; simpl; try discriminate. done.
  - unfold fire. destruct (find _ _); [apply consistent_advance | exact H].
Qed.

Lemma consistent_run m ops : consistent m (run m ops).
Proof.
  unfold run. induction ops as [|o ops IH] using rev_ind.
  - split_and!; simpl; try discriminate. done.
  - rewrite foldl_app. simpl. by apply consistent_step.
Qed.

(** The active node is always among the visited ones; the hook is paused
    only on a node of type condition; it is complete only on a node that is
    of type end or has no outgoing edge; and it is idle only with no active
    node and nothing visited. *)
Theorem status_describes_active_node m ops :
  (∀ a, activeNodeId (run m ops) = Some a → a ∈ visitedNodeIds (run m ops)) ∧
  (status (run m ops) = paused →
   ∃ a, activeNodeId (run m ops) = Some a ∧ nodeTypeMap m !! a = Some "condition") ∧
  (status (run m ops) = complete →
   ∃ a, activeNodeId (run m ops) = Some a ∧
        (typeOf m a = "end" ∨ (typeOf m a ≠ "condition" ∧ neighborsOf m a = []))) ∧
  (status (run m ops) = idle →
   activeNodeId (run m ops) = None ∧ visitedNodeIds (run m ops) = ∅ ∧
   visitedEdgeIds (run m ops) = ∅).
Proof. exact (consistent_run m ops). Qed.

Lemma status_describes_active_node_witness :
  ∃ a, activeNodeId Examples.atCondition = Some a ∧
       nodeTypeMap Examples.scenario !! a = Some "condition".
Proof.
  destruct (status_describes_active_node Examples.scenario
              [OpStart; OpFire 0; OpFire 1; OpFire 2]) as (_ & Hp & _).
  exact (Hp eq_refl).
Defined.

(** *** Visited edges *)

Lemma visited_edges_step m s o :
  consistent m s →
  (∀ id, id ∈ visitedEdgeIds s →
         ∃ a n, n ∈ neighborsOf m a ∧ edgeId n = id ∧ a ∈ visitedNodeIds s) →
  ∀ id, id ∈ visitedEdgeIds (step m s o) →
        ∃ a n, n ∈ neighborsOf m a ∧ edgeId n = id ∧ a ∈ visitedNodeIds (step m s o).
Proof.
  intros Hcons Hinv.
  assert (Hadv : ∀ k s0,
            (∀ id, id ∈ visitedEdgeIds s0 →
                   ∃ a n, n ∈ neighborsOf m a ∧ edgeId n = id ∧ a ∈ visitedNodeIds s0) →
            ∀ id, id ∈ visitedEdgeIds (advance m k s0) →
                  ∃ a n, n ∈ neighborsOf m a ∧ edgeId n = id ∧
                         a ∈ visitedNodeIds (advance m k s0)).
  { intros k s0 H0 id. destruct (advance_marks m k s0) as (_ & Hv & _). rewrite Hv.
    assert (∀ id, id ∈ visitedEdgeIds s0 →
                  ∃ a n, n ∈ neighborsOf m a ∧ edgeId n = id ∧ a ∈ visitedNodeIds s0 ∪ {[k]})
      as H1.
    { intros i Hi. destruct (H0 i Hi) as (a & n & ? & ? & ?). exists a, n.
      split_and!; [done | done | apply elem_of_union; by left]. }
    unfold advance. repeat case_decide; simpl; try apply H1.
    destruct (neighborsOf m k) as [|next rest] eqn:En; simpl; [apply H1|].
    intros [Hin | ->%elem_of_singleton]%elem_of_union; [by apply H1|].
    exists k, next.
    split_and!; [rewrite En; by left | done | apply elem_of_union; right; by apply elem_of_singleton]. }
  destruct o; simpl.
  - unfold start. intros id.
    destruct (startNodeId m); [destruct (falsy _)|]; simpl; set_solver.
  - unfold pause. simpl. pose proof (clearTimer_observable s) as [= _ _ Hvn Hve].
    rewrite Hvn, Hve. exact Hinv.
  - unfold resume. destruct (activeNodeId s); [by apply Hadv | exact Hinv].
  - unfold choose. destruct (status s); try exact Hinv.
    destruct (activeNodeId s) as [a|] eqn:Ea; [|exact Hinv].
    destruct (findBranch b (neighborsOf m a)) as [c|] eqn:Ef; [|exact Hinv].
    simpl. intros id [Hin | ->%elem_of_singleton]%elem_of_union; [by apply Hinv|].
    apply findBranch_Some in Ef as [Hc _].
    exists a, c. split_and!; [done | done |]. by apply (proj1 Hcons).
  - simpl. set_solver.
  - unfold fire. destruct (find _ _); [|exact Hinv]. by apply Hadv.
Qed.

(** Whatever is done to the hook, every visited edge is an edge of the
    graph the hook was given, and the node it leaves from is visited. *)
Theorem visited_edges_leave_visited_nodes nodes edges ops id :
  id ∈ visitedEdgeIds (run (buildMaps nodes edges) ops) →
  ∃ e, e ∈ edges ∧ e_id e = id ∧
       e_source e ∈ visitedNodeIds (run (buildMaps nodes edges) ops).
Proof.
  intros Hid.
  assert (∃ a n, n ∈ neighborsOf (buildMaps nodes edges) a ∧ edgeId n = id ∧
                 a ∈ visitedNodeIds (run (buildMaps nodes edges) ops)) as (a & n & Hn & He & Ha).
  { revert id Hid. unfold run. induction ops as [|o ops IH] using rev_ind.
    - simpl. set_solver.
    - rewrite foldl_app. simpl. apply visited_edges_step; [apply consistent_run | exact IH]. }
  rewrite neighborsOf_buildMaps in Hn.
  apply list_elem_of_fmap in Hn as (e & -> & [Hsrc He']%list_elem_of_filter).
  exists e. split_and!; [done | done | by rewrite Hsrc].
Qed.

Lemma visited_edges_leave_visited_nodes_witness :
  ∃ e, e ∈ Examples.scenarioEdges ∧ e_id e = "e1" ∧
       e_source e ∈ visitedNodeIds Examples.atCondition.
Proof.
  apply (visited_edges_leave_visited_nodes Examples.scenarioNodes Examples.scenarioEdges
           [OpStart; OpFire 0; OpFire 1; OpFire 2] "e1").
  apply (bool_decide_unpack _). vm_compute. exact I.
Defined.


(** *** One timer at a time *)

Lemma tidy_cases s :
  tidy s → pending s = [] ∨ ∃ t, pending s = [t] ∧ timerRef s = Some (tm_handle t).
Proof.
  intros [_ Hone]. destruct (pending s) as [|t l] eqn:Ep; [by left|].
  right. exists t. rewrite ?Ep in Hone. apply Hone. by left.
Qed.

Lemma tidy_clearTimer s : tidy s → pending (clearTimer s) = [].
Proof.
  intros [Hp | (t & Hp & Hr)]%tidy_cases; unfold clearTimer.
  - destruct (timerRef s); simpl; by rewrite Hp.
  - rewrite Hr. simpl. rewrite Hp. unfold cancel.
    by rewrite filter_cons_False, filter_nil by (intros ?; done).
Qed.

Lemma tidy_schedule target d s :
  pending s = [] → status s = running → tidy (scheduleAdvance target d s).
Proof.
  intros Hp Hs. split; simpl; [by rewrite Hs|].
  rewrite Hp. simpl. intros t ->%list_elem_of_singleton. done.
Qed.

Lemma tidy_empty s : pending s = [] → tidy s.
Proof. intros Hp. split; [done|]. rewrite Hp. by intros t ?%elem_of_nil. Qed.

Lemma tidy_advance m n s : pending s = [] → tidy (advance m n s).
Proof.
  intros Hp. unfold advance. repeat case_decide; try (by apply tidy_empty).
  destruct (neighborsOf m n); [by apply tidy_empty|].
  by apply tidy_schedule.
Qed.

Lemma tidy_start m s : tidy s → tidy (start m s).
Proof.
  intros H. pose proof (tidy_clearTimer s H) as Hc. unfold start.
  destruct (startNodeId m) as [n|]; [destruct (falsy _)|];
    try (by apply tidy_empty).
  by apply tidy_schedule.
Qed.

Lemma tidy_handle m s ev : tidy s → tidy (Controls.handle m s ev).
Proof.
  intros H. pose proof H as [Hidle Hone]. destruct ev; simpl.
  - unfold Controls.toolbarClick. destruct (status s) eqn:Es.
    + by apply tidy_start.
    + apply tidy_empty. by apply tidy_clearTimer.
    + apply tidy_empty. by apply tidy_clearTimer.
    + unfold resume. destruct (activeNodeId s); [|exact H].
      apply tidy_advance. by apply Hidle.
    + by apply tidy_start.
  - unfold choose. destruct (status s) eqn:Es; try exact H.
    destruct (activeNodeId s); [|exact H].
    destruct (findBranch _ _); [|exact H].
    apply tidy_schedule; [|done]. simpl. by apply Hidle.
  - by apply tidy_start.
  - apply tidy_empty. by apply tidy_clearTimer.
  - unfold fire. destruct (find _ (pending s)) as [t|] eqn:Ef; [|exact H].
    apply tidy_advance. simpl.
    apply find_some in Ef as [Hin Hh]. apply bool_decide_eq_true in Hh.
    apply list_elem_of_In in Hin. destruct (Hone t Hin) as [Hl _].
    rewrite Hl. unfold cancel.
    by rewrite filter_cons_False, filter_nil by (intros ?; done).
Qed.

Lemma tidy_session m evs : tidy (Controls.session m evs).
Proof.
  unfold Controls.session. induction evs as [|ev evs IH] using rev_ind.
  - by apply tidy_empty.
  - rewrite foldl_app. simpl. by apply tidy_handle.
Qed.

(** Driven through the toolbar button, the choice buttons, the overlay
    buttons and timer expiries, the hook never has more than one timeout
    pending: none unless it is running, and otherwise the one in
    [timerRef].  The toolbar matters: [resume] called while a timeout is
    pending schedules a second one. *)
Theorem one_timer_at_a_time m evs :
  (length (pending (Controls.session m evs)) ≤ 1)%nat ∧
  (status (Controls.session m evs) ≠ running → pending (Controls.session m evs) = []) ∧
  (∀ t, t ∈ pending (Controls.session m evs) →
        timerRef (Controls.session m evs) = Some (tm_handle t)) ∧
  length (pending (run Examples.scenario [OpStart; OpFire 0; OpResume])) = 2%nat.
Proof.
  destruct (tidy_session m evs) as [Hidle Hone]. split_and!.
  - destruct (pending (Controls.session m evs)) as [|t l] eqn:Ep; [simpl; lia|].
    destruct (Hone t) as [Hl _]; [by left|]. injection Hl as ->. simpl. lia.
  - exact Hidle.
  - intros t Ht. by apply Hone.
  - reflexivity.
Qed.

Lemma one_timer_at_a_time_witness :
  pending (Controls.session Examples.scenario
             [Controls.ToolbarClick; Controls.TimerExpires 0; Controls.ToolbarClick]) = [].
Proof.
  destruct (one_timer_at_a_time Examples.scenario
              [Controls.ToolbarClick; Controls.TimerExpires 0; Controls.ToolbarClick])
    as (_ & H & _).
  apply H. discriminate.
Defined.

(** *** Pausing between a choice and its advance *)

Lemma cancel_fresh (l : list Timer) h d target :
  Forall (λ t, (tm_handle t < h)%nat) l →
  cancel h (l ++ [mkTimer h d target]) = l.
Proof.
  intros H. unfold cancel. rewrite filter_app.
  rewrite filter_cons_False, filter_nil, app_nil_r by (simpl; intros ?; done).
  induction H as [|t l Ht _ IH]; [done|].
  rewrite filter_cons_True by lia. by f_equal.
Qed.

(** After a successful [choose], [pause] followed by [resume] does not
    carry the choice out: [resume] re-runs [advance] on the condition node,
    so the hook is paused there again, the chosen edge stays marked, the
    target is not visited and the timeout to it is gone. *)
Theorem pause_resume_abandons_choice m ops b a chosen :
  status (run m ops) = paused →
  activeNodeId (run m ops) = Some a →
  findBranch b (neighborsOf m a) = Some chosen →
  let s := run m ops in
  let s' := resume m (pause (choose m b s)) in
  status s' = paused ∧
  activeNodeId s' = Some a ∧
  visitedNodeIds s' = visitedNodeIds s ∧
  visitedEdgeIds s' = visitedEdgeIds s ∪ {[edgeId chosen]} ∧
  timerRef s' = None ∧
  pending s' = pending s.
Proof.
  intros Hs Ha Hf s s'.
  destruct (consistent_run m ops) as (Hvis & Hp & _).
  destruct (Hp Hs) as (a' & Ha' & Hty). fold s in Hs, Ha, Ha', Hvis.
  rewrite Ha in Ha'. injection Ha' as <-.
  pose proof (handlesFresh_run m ops) as Hfresh. fold s in Hfresh.
  subst s'. unfold choose. rewrite Hs, Ha, Hf. unfold pause, clearTimer. simpl.
  unfold resume. simpl. rewrite Ha. unfold advance. rewrite Hty. simpl.
  split_and!; try done.
  - apply set_eq. intros x. rewrite elem_of_union, elem_of_singleton.
    split; [intros [?| ->]; [done | by apply Hvis] | by left].
  - by apply cancel_fresh.
Qed.

Lemma pause_resume_abandons_choice_witness :
  status (resume Examples.scenario
            (pause (choose Examples.scenario Yes Examples.atCondition))) = paused ∧
  activeNodeId (resume Examples.scenario
                  (pause (choose Examples.scenario Yes Examples.atCondition))) = Some "3".
Proof.
  pose proof (pause_resume_abandons_choice Examples.scenario
                [OpStart; OpFire 0; OpFire 1; OpFire 2] Yes "3"
                (mkNeighbor "4" "e2" (Some Yes)) eq_refl eq_refl eq_refl)
    as (Hs & Ha & _).
  split; [exact Hs | exact Ha].
Defined.

End SimExtra.

(** ** More on the layout engine *)

Module LayoutExtra.
Import Layout LayoutSpec LayoutFacts.

(** *** The subtree search computes reachability *)

(** [getSubtree] always returns, and what it returns is, without
    repetition, exactly the set of nodes that can be reached from the start
    along edges without ever being at the excluded node. *)
Theorem getSubtree_is_reachability graph startId excludeId :
  ∃ result,
    getSubtree graph startId excludeId = Some result ∧
    NoDup result ∧
    ∀ x, x ∈ result ↔ reachable (edges graph) excludeId startId x.
Proof.
  destruct (getSubtree_total graph startId excludeId) as [r Hr].
  exists r. split_and!; [done | by eapply getSubtree_NoDup |].
  intros x. split.
  - intros Hx. destruct (getSubtree_candidates _ _ _ _ Hr x Hx) as [Hne _].
    destruct (decide (startId = excludeId)) as [->|Hse].
    { rewrite (getSubtree_empty_start _ _ _ Hr) in Hx. by apply elem_of_nil in Hx. }
    destruct (getSubtree_least _ _ _ _ Hr
                (λ y, reachable (edges graph) excludeId startId y ∨ y = excludeId))
      with x as [?|?]; [left; by constructor | | done | done | done].
    intros y z [Hy|Hy] Hye Hz; [|done].
    destruct (decide (z = excludeId)) as [->|Hze]; [by right|]. left.
    apply successors_spec in Hz as (e & He & Hf & <-).
    by apply reachable_step with y.
  - induction 1 as [Hse | y e Hy IH He Hf Hne].
    + by eapply getSubtree_start.
    + eapply getSubtree_closed; [exact Hr | exact IH | | done].
      apply successors_spec. eauto.
Qed.

(** *** The normalization moves nodes along one axis only *)

Lemma translate_rank axis delta ids (p p' : gmap string Pos) k :
  translate axis delta ids p = Some p' →
  (is_Some (p' !! k) ↔ is_Some (p !! k)) ∧
  match axis with
  | AxisX => py <$> p' !! k = py <$> p !! k
  | AxisY => px <$> p' !! k = px <$> p !! k
  end.
Proof.
  revert p. induction ids as [|id ids IH]; intros p H; simpl in H.
  - injection H as <-. by destruct axis.
  - destruct (p !! id) as [pos|] eqn:Hpos; [|discriminate].
    destruct (IH _ H) as [Hd Hr]. split.
    + rewrite Hd. destruct (decide (id = k)) as [->|Hne].
      * rewrite lookup_insert_eq, Hpos. split; eauto.
      * by rewrite lookup_insert_ne.
    + destruct axis; rewrite Hr; (destruct (decide (id = k)) as [->|Hne];
        [by rewrite lookup_insert_eq, Hpos | by rewrite lookup_insert_ne]).
Qed.

Lemma enforceNode_rank graph direction node (p p' : gmap string Pos) k :
  enforceNode graph direction p node = Some p' →
  (is_Some (p' !! k) ↔ is_Some (p !! k)) ∧
  getAxis (rankAxis direction) <$> p' !! k = getAxis (rankAxis direction) <$> p !! k.
Proof.
  intros H. destruct (enforceNode_cases _ _ _ _ _ H)
    as [-> | (ye & ne & ys & ns & yr & nr & Hc & Hy & Hn & Hys & Hns & Hyr & Hnr & Hw)];
    [done|].
  rewrite (enforceNode_swap _ _ _ _ _ Hc Hy Hn _ _ Hys Hns _ _ _ Hyr Hnr Hw) in H.
  destruct (translate _ _ _ p) as [p1|] eqn:H1; [|discriminate]. simpl in H.
  destruct (translate_rank _ _ _ _ _ k H1) as [Hd1 Hr1].
  destruct (translate_rank _ _ _ _ _ k H) as [Hd2 Hr2].
  split; [by rewrite Hd2, Hd1|].
  destruct direction; simpl in *.
  - assert (getAxis AxisY = py) as -> by done. by rewrite Hr2, Hr1.
  - assert (getAxis AxisX = px) as -> by done. by rewrite Hr2, Hr1.
Qed.

Lemma pass_rank graph direction l (p p' : gmap string Pos) k :
  foldl (λ acc node, positions ← acc; enforceNode graph direction positions node)
        (Some p) l = Some p' →
  (is_Some (p' !! k) ↔ is_Some (p !! k)) ∧
  getAxis (rankAxis direction) <$> p' !! k = getAxis (rankAxis direction) <$> p !! k.
Proof.
  revert p. induction l as [|n l IH]; intros p H; simpl in H.
  - by injection H as <-.
  - destruct (enforceNode graph direction p n) as [p1|] eqn:H1; simpl in H.
    + destruct (IH _ H) as [Hd Hr]. destruct (enforceNode_rank _ _ _ _ _ k H1) as [Hd1 Hr1].
      split; [by rewrite Hd, Hd1 | by rewrite Hr, Hr1].
    + by rewrite pass_None in H.
Qed.

(** On every graph, with any number of condition nodes, and every map that
    has a position for each edge target (so that every entry the code
    reads is one of the map), the normalization returns, gives a position
    to exactly the node ids that had one and never changes a rank
    coordinate: y top-to-bottom, x left-to-right. *)
Theorem enforceYesOnRight_keeps_ranks graph direction (p : gmap string Pos) :
  (∀ e, e ∈ edges graph → is_Some (p !! fe_to e)) →
  ∃ p', enforceYesOnRight graph p direction = Some p' ∧
        ∀ k, (is_Some (p' !! k) ↔ is_Some (p !! k)) ∧
             match direction with
             | TB => py <$> p' !! k = py <$> p !! k
             | LR => px <$> p' !! k = px <$> p !! k
             end.
Proof.
  intros Hpos.
  destruct (pass_returns graph direction (nodes graph) p Hpos) as [p' H].
  exists p'. split; [exact H|]. intros k.
  destruct (pass_rank _ _ _ _ _ k H) as [Hd Hr].
  split; [done|]. by destruct direction.
Qed.

Lemma enforceYesOnRight_keeps_ranks_witness :
  ∃ p', enforceYesOnRight Examples.paymentGraph Examples.paymentPositions TB = Some p' ∧
        px <$> p' !! "4" = Some (-200) ∧
        py <$> p' !! "4" = py <$> Examples.paymentPositions !! "4".
Proof.
  destruct (enforceYesOnRight_keeps_ranks Examples.paymentGraph TB
              Examples.paymentPositions) as (p' & E & H).
  - intros e He. apply (bool_decide_unpack _).
    simpl in He. rewrite !elem_of_cons, elem_of_nil in He.
    destruct He as [->|[->|[->|[->|[->|[->|[]]]]]]]; vm_compute; exact I.
  - exists p'. split_and!; [exact E | | apply H].
    vm_compute in E. injection E as <-. reflexivity.
Defined.


(** *** What one normalization step does *)

(** When the yes root of a condition node lies on the wrong side, the step
    moves every node reached only from the yes target by the distance
    between the two roots, every node reached only from the no target by
    the same distance the other way, and no other node; so each branch
    moves as a block, and when neither root is reached from the other the
    two roots trade places along the axis. *)
Theorem normalization_step_translates_branches
    graph direction c yesEdge noEdge ys ns yesRoot noRoot (p p' : gmap string Pos) :
  fn_type c = TCondition →
  List.find (isLabelled Yes) (outEdgesOf graph (fn_id c)) = Some yesEdge →
  List.find (isLabelled No) (outEdgesOf graph (fn_id c)) = Some noEdge →
  getSubtree graph (fe_to yesEdge) (fn_id c) = Some ys →
  getSubtree graph (fe_to noEdge) (fn_id c) = Some ns →
  p !! fe_to yesEdge = Some yesRoot → p !! fe_to noEdge = Some noRoot →
  yesIsCorrect direction yesRoot noRoot = false →
  enforceNode graph direction p c = Some p' →
  let axis := normAxis direction in
  let delta := getAxis axis noRoot - getAxis axis yesRoot in
  (∀ k, k ∈ ys → k ∉ ns → p' !! k = shiftBy axis delta <$> p !! k) ∧
  (∀ k, k ∈ ns → k ∉ ys → p' !! k = shiftBy axis (- delta) <$> p !! k) ∧
  (∀ k, (k ∈ ys ↔ k ∈ ns) → p' !! k = p !! k) ∧
  (fe_to yesEdge ∈ ys → fe_to yesEdge ∉ ns → fe_to noEdge ∈ ns → fe_to noEdge ∉ ys →
   getAxis axis <$> p' !! fe_to yesEdge = Some (getAxis axis noRoot) ∧
   getAxis axis <$> p' !! fe_to noEdge = Some (getAxis axis yesRoot)).
Proof.
  intros Hc Hy Hn Hys Hns Hyr Hnr Hw H axis delta.
  pose proof (swap_lookup _ _ _ _ _ Hc Hy Hn _ _ Hys Hns _ _ _ Hyr Hnr Hw _ H) as Hl.
  fold axis delta in Hl.
  assert (∀ k, k ∈ ys → k ∉ ns → p' !! k = shiftBy axis delta <$> p !! k) as Hyes.
  { intros k H1 H2. rewrite Hl. rewrite decide_True; [done|].
    apply list_elem_of_filter. done. }
  assert (∀ k, k ∈ ns → k ∉ ys → p' !! k = shiftBy axis (- delta) <$> p !! k) as Hno.
  { intros k H1 H2. rewrite Hl. rewrite decide_False, decide_True; [done | |].
    - apply list_elem_of_filter. done.
    - rewrite list_elem_of_filter. tauto. }
  split_and!; [exact Hyes | exact Hno | |].
  - intros k Hk. rewrite Hl. rewrite !decide_False; [done | |];
      rewrite list_elem_of_filter; tauto.
  - intros H1 H2 H3 H4. rewrite (Hyes _ H1 H2), (Hno _ H3 H4), Hyr, Hnr. simpl.
    subst delta. unfold shiftBy. destruct axis; simpl; split; f_equal; lia.
Qed.

Lemma normalization_step_translates_branches_witness :
  ∃ p', enforceNode Examples.decisionGraph TB Examples.decisionPositions
          (mkFlowNode "2" "Ok?" TCondition) = Some p' ∧
        px <$> p' !! "3" = Some 240 ∧ px <$> p' !! "4" = Some 0.
Proof.
  destruct (enforceNode Examples.decisionGraph TB Examples.decisionPositions
              (mkFlowNode "2" "Ok?" TCondition)) as [p'|] eqn:E;
    [|vm_compute in E; discriminate].
  destruct (normalization_step_translates_branches Examples.decisionGraph TB
              (mkFlowNode "2" "Ok?" TCondition)
              (mkFlowEdge "2" "3" (Some "YES")) (mkFlowEdge "2" "4" (Some "no"))
              ["3"] ["4"] (mkPos 0 340) (mkPos 240 340) Examples.decisionPositions p')
    as (_ & _ & _ & Hswap);
    [reflexivity | reflexivity | reflexivity | reflexivity | reflexivity
    | reflexivity | reflexivity | reflexivity | exact E | ].
  destruct Hswap as [H3 H4].
  - vm_compute. by left.
  - vm_compute. by intros ?%list_elem_of_singleton.
  - vm_compute. by left.
  - vm_compute. by intros ?%list_elem_of_singleton.
  - exists p'. split_and!; [reflexivity | exact H3 | exact H4].
Defined.

(** *** The rendered nodes *)

Lemma initial_positions_other (centre : string → Pos) l (acc : gmap string Pos) k :
  k ∉ fn_id <$> l →
  foldl (λ acc node,
           let '(width, height) := getNodeSize (fn_type node) in
           <[fn_id node := {| px := px (centre (fn_id node)) - width / 2;
                              py := py (centre (fn_id node)) - height / 2 |}]> acc)
        acc l !! k
  = acc !! k.
Proof.
  revert acc. induction l as [|a l IH]; intros acc Hk; [done|].
  rewrite fmap_cons in Hk. apply not_elem_of_cons in Hk as [Hka Hk]. simpl.
  rewrite IH by done. destruct (getNodeSize (fn_type a)) as [w h].
  by rewrite lookup_insert_ne.
Qed.

Lemma initial_positions_lookup (centre : string → Pos) l (acc : gmap string Pos) n :
  NoDup (fn_id <$> l) → n ∈ l →
  foldl (λ acc node,
           let '(width, height) := getNodeSize (fn_type node) in
           <[fn_id node := {| px := px (centre (fn_id node)) - width / 2;
                              py := py (centre (fn_id node)) - height / 2 |}]> acc)
        acc l !! fn_id n
  = Some {| px := px (centre (fn_id n)) - (getNodeSize (fn_type n)).1 / 2;
            py := py (centre (fn_id n)) - (getNodeSize (fn_type n)).2 / 2 |}.
Proof.
  revert acc. induction l as [|a l IH]; intros acc Hnd Hn.
  - by apply elem_of_nil in Hn.
  - rewrite fmap_cons in Hnd. apply NoDup_cons in Hnd as [Ha Hnd]. simpl.
    apply elem_of_cons in Hn as [->|Hn]; [|by apply IH].
    rewrite initial_positions_other by done.
    destruct (getNodeSize (fn_type a)) as [w h]. simpl. apply lookup_insert_eq.
Qed.

(** When the node ids are pairwise distinct, the layout returned for a node
    has, along the rank axis, the coordinate dagre gave the node's centre
    less half the node's extent: the top-left corner, which the
    normalization never touches. *)
Theorem computeLayout_rank_is_top_left
    (arraySort : (FlowEdge → FlowEdge → Z) → list FlowEdge → list FlowEdge)
    (dagreLayout : LayoutDirection → list (string * (Z * Z)) →
                   list (string * string * Z) → string → Pos)
    rawNodes rawEdges direction positions n :
  NoDup (fn_id <$> rawNodes) → n ∈ rawNodes →
  computeLayout arraySort dagreLayout rawNodes rawEdges direction = Some positions →
  let centre :=
    dagreLayout direction
      ((λ n, (fn_id n, getNodeSize (fn_type n))) <$> rawNodes)
      ((λ e, (fe_from e, fe_to e, edgeWeight e)) <$> arraySort compareEdges rawEdges)
      (fn_id n) in
  ∃ pos, positions !! fn_id n = Some pos ∧
         match direction with
         | TB => py pos = py centre - (getNodeSize (fn_type n)).2 / 2
         | LR => px pos = px centre - (getNodeSize (fn_type n)).1 / 2
         end.
Proof.
  intros Hnd Hn H centre. unfold computeLayout, enforceYesOnRight in H. simpl in H.
  match type of H with
  | foldl _ (Some ?p0) _ = _ =>
      destruct (pass_rank _ _ _ _ _ (fn_id n) H) as [Hd Hr];
      assert (p0 !! fn_id n
              = Some {| px := px centre - (getNodeSize (fn_type n)).1 / 2;
                        py := py centre - (getNodeSize (fn_type n)).2 / 2 |}) as H0
        by (by apply initial_positions_lookup)
  end.
  rewrite H0 in Hd, Hr.
  destruct (positions !! fn_id n) as [pos|] eqn:Hpos.
  2:{ destruct Hd as [_ Hd]. destruct Hd; [eauto | discriminate]. }
  exists pos. split; [done|]. simpl in Hr. injection Hr as Hr.
  by destruct direction.
Qed.

Lemma computeLayout_rank_is_top_left_witness :
  ∃ positions pos,
    computeLayout Examples.keepOrder Examples.diagonal
      (nodes Examples.retryGraph) (edges Examples.retryGraph) TB = Some positions ∧
    positions !! "3" = Some pos ∧ py pos = 340.
Proof.
  destruct (computeLayout Examples.keepOrder Examples.diagonal
              (nodes Examples.retryGraph) (edges Examples.retryGraph) TB)
    as [positions|] eqn:E; [|vm_compute in E; discriminate].
  destruct (computeLayout_rank_is_top_left Examples.keepOrder Examples.diagonal
              (nodes Examples.retryGraph) (edges Examples.retryGraph) TB positions
              (mkFlowNode "3" "Valid?" TCondition)) as (pos & Hpos & Hy).
  - apply (bool_decide_unpack _). vm_compute. exact I.
  - simpl. do 2 right. by left.
  - exact E.
  - exists positions, pos. split_and!; [reflexivity | exact Hpos | exact Hy].
Defined.


(** Whenever [transformToReactFlow] returns, there is one React Flow node
    per graph node, in the same order and with the same id, type and label,
    placed where the layout put that id: the [{ x: 0, y: 0 }] default is
    never used. *)
Theorem rendered_nodes_follow_layout
    (arraySort : (FlowEdge → FlowEdge → Z) → list FlowEdge → list FlowEdge)
    (dagreLayout : LayoutDirection → list (string * (Z * Z)) →
                   list (string * string * Z) → string → Pos)
    graph direction rfNodes rfEdges :
  transformToReactFlow arraySort dagreLayout graph direction = Some (rfNodes, rfEdges) →
  ∃ positions,
    computeLayout arraySort dagreLayout (nodes graph) (edges graph) direction
      = Some positions ∧
    length rfNodes = length (nodes graph) ∧
    ∀ i n, nodes graph !! i = Some n →
           ∃ pos, positions !! fn_id n = Some pos ∧
                  rfNodes !! i = Some {| rn_id := fn_id n; rn_type := typeName (fn_type n);
                                         rn_position := pos; rn_label := fn_label n |}.
Proof.
  intros H. unfold transformToReactFlow in H.
  destruct (computeLayout _ _ _ _ _) as [positions|] eqn:Hc; [|discriminate].
  simpl in H. injection H as <- <-.
  exists positions. split_and!; [done | by rewrite length_fmap |].
  intros i n Hn.
  assert (is_Some (positions !! fn_id n)) as [pos Hpos].
  { unfold computeLayout, enforceYesOnRight in Hc. simpl in Hc.
    apply (pass_rank _ _ _ _ _ (fn_id n) Hc).
    apply initial_positions_cover. right.
    apply list_elem_of_fmap. exists n. split; [done|].
    by eapply list_elem_of_lookup_2. }
  exists pos. split; [done|].
  rewrite list_lookup_fmap, Hn. simpl. unfold toRFNode. by rewrite Hpos.
Qed.

Lemma rendered_nodes_follow_layout_witness :
  ∃ rfNodes rfEdges,
    transformToReactFlow Examples.keepOrder Examples.diagonal Examples.retryGraph TB
      = Some (rfNodes, rfEdges) ∧
    length rfNodes = 5%nat.
Proof.
  destruct (transformToReactFlow Examples.keepOrder Examples.diagonal Examples.retryGraph TB)
    as [[rfNodes rfEdges]|] eqn:E; [|vm_compute in E; discriminate].
  destruct (rendered_nodes_follow_layout Examples.keepOrder Examples.diagonal
              Examples.retryGraph TB rfNodes rfEdges E) as (positions & _ & Hlen & _).
  exists rfNodes, rfEdges. split; [reflexivity | exact Hlen].
Defined.

(** *** The rendered edges *)

Lemma edge_id_inj (i j : nat) : "e" +:+ pretty i = "e" +:+ pretty j → i = j.
Proof. intros H. simpl in H. injection H as H. by apply pretty_nat_inj. Qed.

(** The React Flow edges carry pairwise distinct ids, so the simulation's
    set of visited edge ids tells any two edges apart, parallel edges
    included. *)
Theorem rendered_edge_ids_distinct
    (arraySort : (FlowEdge → FlowEdge → Z) → list FlowEdge → list FlowEdge)
    (dagreLayout : LayoutDirection → list (string * (Z * Z)) →
                   list (string * string * Z) → string → Pos)
    graph direction rfNodes rfEdges :
  transformToReactFlow arraySort dagreLayout graph direction = Some (rfNodes, rfEdges) →
  NoDup (re_id <$> rfEdges).
Proof.
  intros H. unfold transformToReactFlow in H.
  destruct (computeLayout _ _ _ _ _) as [positions|]; [|discriminate].
  simpl in H. injection H as _ <-.
  apply NoDup_alt. intros i j x.
  rewrite !list_lookup_fmap, !list_lookup_imap.
  destruct (edges graph !! i) as [ei|]; [|discriminate].
  destruct (edges graph !! j) as [ej|]; [|discriminate].
  simpl. intros Hi Hj. rewrite <- Hi in Hj. apply edge_id_inj. congruence.
Qed.

Lemma rendered_edge_ids_distinct_witness :
  ∃ rfNodes rfEdges,
    transformToReactFlow Examples.keepOrder Examples.diagonal Examples.retryGraph TB
      = Some (rfNodes, rfEdges) ∧
    NoDup (re_id <$> rfEdges).
Proof.
  destruct (transformToReactFlow Examples.keepOrder Examples.diagonal Examples.retryGraph TB)
    as [[rfNodes rfEdges]|] eqn:E; [|vm_compute in E; discriminate].
  exists rfNodes, rfEdges. split; [reflexivity|].
  exact (rendered_edge_ids_distinct Examples.keepOrder Examples.diagonal
           Examples.retryGraph TB rfNodes rfEdges E).
Defined.

Lemma handleMap_fold_sound (l : list FlowEdge) (m : gmap string Branch) k b :
  foldl (λ map edge,
           match branchOfLabel (fe_label edge) with
           | Some label => <[handleKey (fe_from edge) (fe_to edge) := label]> map
           | None => map
           end) m l !! k = Some b →
  m !! k = Some b ∨
  ∃ e, e ∈ l ∧ handleKey (fe_from e) (fe_to e) = k ∧ branchOfLabel (fe_label e) = Some b.
Proof.
  revert m. induction l as [|a l IH]; intros m H; simpl in H; [by left|].
  destruct (IH _ H) as [Hm | (e & He & Hk & Hb)].
  - destruct (branchOfLabel (fe_label a)) as [ba|] eqn:Ha; [|by left].
    destruct (decide (handleKey (fe_from a) (fe_to a) = k)) as [Hk|Hk].
    + rewrite Hk, lookup_insert_eq in Hm. injection Hm as ->.
      right. exists a. split_and!; [by left | done | done].
    + rewrite lookup_insert_ne in Hm by done. by left.
  - right. exists e. split_and!; [by right | done | done].
Qed.

(** A React Flow edge gets a source handle only when the first node with
    its source id is a condition node, and then the handle is the yes/no
    label of some edge of the graph with the same [from→to] key; an edge
    that leaves any other node gets none, whatever its label. *)
Theorem source_handle_only_from_condition
    (arraySort : (FlowEdge → FlowEdge → Z) → list FlowEdge → list FlowEdge)
    (dagreLayout : LayoutDirection → list (string * (Z * Z)) →
                   list (string * string * Z) → string → Pos)
    graph direction rfNodes rfEdges r b :
  transformToReactFlow arraySort dagreLayout graph direction = Some (rfNodes, rfEdges) →
  r ∈ rfEdges → re_sourceHandle r = Some b →
  (∃ n, List.find (λ n, bool_decide (fn_id n = re_source r)) (nodes graph) = Some n ∧
        fn_type n = TCondition) ∧
  (∃ e, e ∈ edges graph ∧
        handleKey (fe_from e) (fe_to e) = handleKey (re_source r) (re_target r) ∧
        branchOfLabel (fe_label e) = Some b).
Proof.
  intros H Hr Hh. unfold transformToReactFlow in H.
  destruct (computeLayout _ _ _ _ _) as [positions|]; [|discriminate].
  simpl in H. injection H as _ <-.
  apply list_elem_of_lookup in Hr as [i Hi].
  rewrite list_lookup_imap in Hi.
  destruct (edges graph !! i) as [e|] eqn:He; [|discriminate].
  simpl in Hi. injection Hi as <-. unfold toRFEdge in *. simpl in *.
  case_decide as Hc; [|discriminate].
  split.
  - destruct (List.find _ (nodes graph)) as [n|]; [|discriminate].
    exists n. split; [done|]. simpl in Hc. congruence.
  - unfold buildConditionHandleMap in Hh.
    apply handleMap_fold_sound in Hh as [Hh|Hh]; [by rewrite lookup_empty in Hh | done].
Qed.

Lemma source_handle_only_from_condition_witness :
  ∃ n, List.find (λ n, bool_decide (fn_id n = "3")) (nodes Examples.retryGraph) = Some n ∧
       fn_type n = TCondition.
Proof.
  destruct (transformToReactFlow Examples.keepOrder Examples.diagonal Examples.retryGraph TB)
    as [[rfNodes rfEdges]|] eqn:E; [|vm_compute in E; discriminate].
  destruct (source_handle_only_from_condition Examples.keepOrder Examples.diagonal
              Examples.retryGraph TB rfNodes rfEdges
              (mkRFEdge "e2" "3" "4" (Some "Yes") (Some Yes)) Yes E) as [H _].
  - vm_compute in E. injection E as _ <-. do 2 right. by left.
  - reflexivity.
  - exact H.
Defined.

(** *** The handle map on colliding keys *)

Lemma handleMap_fold_app (l1 l2 : list FlowEdge) (m : gmap string Branch) :
  foldl (λ map edge,
           match branchOfLabel (fe_label edge) with
           | Some label => <[handleKey (fe_from edge) (fe_to edge) := label]> map
           | None => map
           end) m (l1 ++ l2)
  = foldl (λ map edge,
             match branchOfLabel (fe_label edge) with
             | Some label => <[handleKey (fe_from edge) (fe_to edge) := label]> map
             | None => map
             end)
          (foldl (λ map edge,
                    match branchOfLabel (fe_label edge) with
                    | Some label => <[handleKey (fe_from edge) (fe_to edge) := label]> map
                    | None => map
                    end) m l1) l2.
Proof. apply foldl_app. Qed.

(** Every entry of the handle map is the yes/no label of an edge with that
    key; and when several labelled edges share a key, the last one in the
    edge list decides. *)
Theorem handle_map_last_label_wins graph :
  (∀ k b, buildConditionHandleMap graph !! k = Some b →
          ∃ e, e ∈ edges graph ∧ handleKey (fe_from e) (fe_to e) = k ∧
               branchOfLabel (fe_label e) = Some b) ∧
  (∀ before e after b,
     edges graph = before ++ e :: after →
     branchOfLabel (fe_label e) = Some b →
     (∀ e', e' ∈ after →
            handleKey (fe_from e') (fe_to e') = handleKey (fe_from e) (fe_to e) →
            branchOfLabel (fe_label e') = None) →
     buildConditionHandleMap graph !! handleKey (fe_from e) (fe_to e) = Some b).
Proof.
  split.
  - intros k b H. unfold buildConditionHandleMap in H.
    apply handleMap_fold_sound in H as [H|H]; [by rewrite lookup_empty in H | done].
  - intros before e after b Hl Hb Hafter. unfold buildConditionHandleMap.
    rewrite Hl, handleMap_fold_app. simpl. rewrite Hb.
    apply handleMap_fold_Some.
    + left. apply lookup_insert_eq.
    + intros e' He' Hk. left. by apply Hafter.
Qed.

Lemma handle_map_last_label_wins_witness :
  buildConditionHandleMap
    {| nodes := [mkFlowNode "c" "Twice?" TCondition; mkFlowNode "t" "Same" TEnd];
       edges := [mkFlowEdge "c" "t" (Some "yes"); mkFlowEdge "c" "t" (Some "No")] |}
    !! handleKey "c" "t" = Some No.
Proof.
  destruct (handle_map_last_label_wins
              {| nodes := [mkFlowNode "c" "Twice?" TCondition; mkFlowNode "t" "Same" TEnd];
                 edges := [mkFlowEdge "c" "t" (Some "yes"); mkFlowEdge "c" "t" (Some "No")] |})
    as [_ H].
  apply (H [mkFlowEdge "c" "t" (Some "yes")] (mkFlowEdge "c" "t" (Some "No")) [] No);
    [reflexivity | reflexivity |].
  intros e' He'. by apply elem_of_nil in He'.
Defined.


(** *** validateFlow *)

Lemma check_edges_ok (ids : list string) (l : list FlowEdge) :
  (∀ e, e ∈ l → fe_from e ∈ ids ∧ fe_to e ∈ ids) →
  foldl (λ acc edge,
           match acc with
           | inl msg => inl msg
           | inr _ =>
               if decide (fe_from edge ∉ ids)
               then inl ("Edge references unknown node: " +:+ fe_from edge)
               else if decide (fe_to edge ∉ ids)
               then inl ("Edge references unknown node: " +:+ fe_to edge)
               else inr ()
           end) (inr ()) l = inr ().
Proof.
  induction l as [|a l IH]; intros H; [done|]. simpl.
  destruct (H a) as [Hf Ht]; [by left|].
  rewrite decide_False by (intros ?; done). rewrite decide_False by (intros ?; done).
  apply IH. intros e He. apply H. by right.
Qed.

(** [validateFlow] accepts a graph exactly when some node is a start node,
    some node is an end node and both ends of every edge are node ids.  It
    asks for nothing else: not for a single start node, and not for two
    outgoing edges on a condition node. *)
Theorem validateFlow_accepts_iff graph :
  validateFlow graph = inr () ↔
  (∃ n, n ∈ nodes graph ∧ fn_type n = TStart) ∧
  (∃ n, n ∈ nodes graph ∧ fn_type n = TEnd) ∧
  (∀ e, e ∈ edges graph →
        fe_from e ∈ fn_id <$> nodes graph ∧ fe_to e ∈ fn_id <$> nodes graph).
Proof.
  split.
  - intros H. split_and!; [| | by apply validateFlow_edges].
    + unfold validateFlow in H.
      destruct (List.find _ (nodes graph)) as [n|] eqn:Hs; [|discriminate].
      apply find_some in Hs as [Hin Ht]. exists n.
      split; [by apply list_elem_of_In | by apply bool_decide_eq_true in Ht].
    + unfold validateFlow in H.
      destruct (List.find _ (nodes graph)) as [s|]; [|discriminate].
      destruct (List.find _ (nodes graph)) as [n|] eqn:He; [|discriminate].
      apply find_some in He as [Hin Ht]. exists n.
      split; [by apply list_elem_of_In | by apply bool_decide_eq_true in Ht].
  - intros ((s & Hs & Hst) & (e & He & Het) & Hedges). unfold validateFlow.
    destruct (List.find (λ n, bool_decide (fn_type n = TStart)) (nodes graph)) eqn:Fs.
    2:{ apply list_elem_of_In in Hs. pose proof (find_none _ _ Fs _ Hs) as Hn.
        simpl in Hn. by rewrite bool_decide_eq_true_2 in Hn. }
    destruct (List.find (λ n, bool_decide (fn_type n = TEnd)) (nodes graph)) eqn:Fe.
    2:{ apply list_elem_of_In in He. pose proof (find_none _ _ Fe _ He) as Hn.
        simpl in Hn. by rewrite bool_decide_eq_true_2 in Hn. }
    by apply check_edges_ok.
Qed.

Lemma validateFlow_accepts_iff_witness :
  validateFlow
    {| nodes := [mkFlowNode "1" "A" TStart; mkFlowNode "2" "B" TStart;
                 mkFlowNode "3" "Q" TCondition; mkFlowNode "4" "Z" TEnd];
       edges := [mkFlowEdge "1" "4" None] |} = inr ().
Proof.
  apply validateFlow_accepts_iff. split_and!.
  - exists (mkFlowNode "1" "A" TStart). split; [by left | done].
  - exists (mkFlowNode "4" "Z" TEnd). split; [do 3 right; by left | done].
  - intros e ->%list_elem_of_singleton. simpl. split; [by left | do 3 right; by left].
Defined.

(** *** The position-driven handle map *)

Lemma positional_step_other graph (positions : gmap string Pos) direction c ka kb
    (m : gmap string Branch) va vb n :
  (∀ e, e ∈ edges graph → fe_from e ≠ fn_id c →
        handleKey (fe_from e) (fe_to e) ≠ ka ∧ handleKey (fe_from e) (fe_to e) ≠ kb) →
  fn_id n ≠ fn_id c →
  m !! ka = Some va ∧ m !! kb = Some vb →
  let axis := match direction with LR => AxisY | TB => AxisX end in
  let m' :=
    if decide (fn_type n ≠ TCondition) then m else
    match outEdgesOf graph (fn_id n) with
    | [a; b] =>
        let aVal := Positional.axisOrZero positions axis (fe_to a) in
        let bVal := Positional.axisOrZero positions axis (fe_to b) in
        let firstEdge := if bool_decide (aVal ≤ bVal) then a else b in
        let secondEdge := if bool_decide (aVal ≤ bVal) then b else a in
        match direction with
        | TB =>
            <[handleKey (fe_from secondEdge) (fe_to secondEdge) := Yes]>
              (<[handleKey (fe_from firstEdge) (fe_to firstEdge) := No]> m)
        | LR =>
            <[handleKey (fe_from secondEdge) (fe_to secondEdge) := No]>
              (<[handleKey (fe_from firstEdge) (fe_to firstEdge) := Yes]> m)
        end
    | _ => m
    end in
  m' !! ka = Some va ∧ m' !! kb = Some vb.
Proof.
  intros Hkeys Hne Hm axis m'. subst m'.
  case_decide; [done|].
  destruct (outEdgesOf graph (fn_id n)) as [|a [|b [|? ?]]] eqn:Eo; try done.
  assert (∀ e, e ∈ [a; b] → handleKey (fe_from e) (fe_to e) ≠ ka ∧
                            handleKey (fe_from e) (fe_to e) ≠ kb) as Hab.
  { intros e He. rewrite <- Eo in He. unfold outEdgesOf in He.
    apply list_elem_of_filter in He as [Hf He]. apply Hkeys; [done | congruence]. }
  destruct (Hab a) as [Ha1 Ha2]; [by left|].
  destruct (Hab b) as [Hb1 Hb2]; [right; by left|].
  destruct direction; simpl; case_bool_decide; simpl;
    rewrite !lookup_insert_ne by done; done.
Qed.

(** In the earlier version of the handle map, a condition node with
    exactly two outgoing edges to different targets gets one handle of each
    side, chosen by the targets' coordinates alone: top-to-bottom the edge
    whose target has the larger x is the yes side, left-to-right the edge
    whose target has the smaller y; on a tie the first edge counts as the
    smaller.  This needs that no edge leaving another node has the same
    [from→to] key. *)
Theorem positional_handles_take_both_sides graph positions direction c a b :
  c ∈ nodes graph → fn_type c = TCondition →
  outEdgesOf graph (fn_id c) = [a; b] →
  handleKey (fe_from a) (fe_to a) ≠ handleKey (fe_from b) (fe_to b) →
  (∀ e, e ∈ edges graph → fe_from e ≠ fn_id c →
        handleKey (fe_from e) (fe_to e) ≠ handleKey (fe_from a) (fe_to a) ∧
        handleKey (fe_from e) (fe_to e) ≠ handleKey (fe_from b) (fe_to b)) →
  let axis := match direction with LR => AxisY | TB => AxisX end in
  let aFirst := bool_decide (Positional.axisOrZero positions axis (fe_to a)
                             ≤ Positional.axisOrZero positions axis (fe_to b)) in
  let sideOfFirst := match direction with TB => No | LR => Yes end in
  let sideOfSecond := match direction with TB => Yes | LR => No end in
  Positional.buildConditionHandleMap graph positions direction
    !! handleKey (fe_from a) (fe_to a) = Some (if aFirst then sideOfFirst else sideOfSecond) ∧
  Positional.buildConditionHandleMap graph positions direction
    !! handleKey (fe_from b) (fe_to b) = Some (if aFirst then sideOfSecond else sideOfFirst).
Proof.
  intros Hc Hty Ho Hab Hkeys axis aFirst s1 s2.
  unfold Positional.buildConditionHandleMap. fold axis.
  match goal with
  | |- foldl ?f ∅ _ !! _ = _ ∧ _ =>
      set (step := f);
      assert (∀ m, step m c !! handleKey (fe_from a) (fe_to a)
                   = Some (if aFirst then s1 else s2) ∧
                   step m c !! handleKey (fe_from b) (fe_to b)
                   = Some (if aFirst then s2 else s1)) as Hstep
  end.
  { intros m. subst step. simpl. rewrite decide_False by (intros ?; done). rewrite Ho.
    fold aFirst. subst s1 s2.
    destruct direction, aFirst; simpl;
      rewrite ?lookup_insert_eq; rewrite ?lookup_insert_ne by done;
      rewrite ?lookup_insert_eq; done. }
  assert (∀ l m,
            (m !! handleKey (fe_from a) (fe_to a) = Some (if aFirst then s1 else s2) ∧
             m !! handleKey (fe_from b) (fe_to b) = Some (if aFirst then s2 else s1)) ∨
            c ∈ l →
            foldl step m l !! handleKey (fe_from a) (fe_to a)
              = Some (if aFirst then s1 else s2) ∧
            foldl step m l !! handleKey (fe_from b) (fe_to b)
              = Some (if aFirst then s2 else s1)) as Hfold.
  { induction l as [|n l IH]; intros m Hm; simpl.
    - destruct Hm as [?|Hm]; [done | by apply elem_of_nil in Hm].
    - apply IH.
      destruct (decide (fn_id n = fn_id c)) as [Heq|Hne].
      + destruct (decide (fn_type n ≠ TCondition)) as [Hn|Hn].
        * assert (step m n = m) as -> by (subst step; simpl; by rewrite decide_True).
          destruct Hm as [?|[->|Hm]%elem_of_cons]; [by left | done | by right].
        * left. specialize (Hstep m). subst step. simpl in *.
          rewrite decide_False by done. rewrite decide_False in Hstep by (intros ?; done).
          rewrite Heq. exact Hstep.
      + destruct Hm as [Hm|[->|Hm]%elem_of_cons]; [|done|by right].
        left. subst step.
        exact (positional_step_other graph positions direction c _ _ m _ _ n
                 Hkeys Hne Hm). }
  apply Hfold. by right.
Qed.

Lemma positional_handles_take_both_sides_witness :
  Positional.buildConditionHandleMap Examples.decisionGraph Examples.decisionPositions TB
    !! handleKey "2" "3" = Some No ∧
  Positional.buildConditionHandleMap Examples.decisionGraph Examples.decisionPositions TB
    !! handleKey "2" "4" = Some Yes.
Proof.
  apply (positional_handles_take_both_sides Examples.decisionGraph
           Examples.decisionPositions TB (mkFlowNode "2" "Ok?" TCondition)
           (mkFlowEdge "2" "3" (Some "YES")) (mkFlowEdge "2" "4" (Some "no"))).
  - right. by left.
  - reflexivity.
  - reflexivity.
  - intros H. vm_compute in H. discriminate H.
  - intros e He Hne. simpl in He. rewrite !elem_of_cons, elem_of_nil in He.
    destruct He as [->|[->|[->|[]]]]; [|by destruct Hne..].
    split; intros H; vm_compute in H; discriminate H.
Defined.

End LayoutExtra.

(** ** The undo/redo stack *)

Module UndoRedoFacts.
Import UndoRedo.

Section WithSnapshot.
Context {T : Type}.
Implicit Types (s : State T) (x y : T) (l : list T).

Lemma take_before_last l x : last l = Some x → take (length l - 1) l ++ [x] = l.
Proof.
  destruct l as [|a l'] using rev_ind; [done|].
  rewrite last_snoc. intros [= ->].
  rewrite length_app. simpl.
  replace (length l' + 1 - 1)%nat with (length l') by lia.
  by rewrite take_app_length.
Qed.

Lemma sliceLast_snoc n l x :
  (0 < n)%nat →
  sliceLast n (l ++ [x]) = drop (length l - (n - 1)) l ++ [x].
Proof.
  intros Hn. unfold sliceLast. rewrite length_app. simpl.
  replace (length l + 1 - n)%nat with (length l - (n - 1))%nat by lia.
  rewrite drop_app_le by lia. done.
Qed.

Lemma step_bounded s o :
  (length (past s) + length (future s) ≤ MAX_HISTORY)%nat →
  (length (past (step s o)) + length (future (step s o)) ≤ MAX_HISTORY)%nat.
Proof.
  unfold MAX_HISTORY. intros H. destruct o as [x| |]; simpl.
  - destruct (present s); simpl; [|lia].
    unfold sliceLast. rewrite length_drop, length_app. simpl. unfold MAX_HISTORY. lia.
  - unfold undo. destruct (last (past s)) eqn:El; simpl; [|lia].
    rewrite length_take.
    assert (0 < length (past s))%nat by (destruct (past s); [done | simpl; lia]).
    destruct (present s); simpl; lia.
  - unfold redo. destruct (future s) as [|next rest] eqn:Ef; simpl;
      rewrite ?Ef in *; simpl in *; [lia|].
    destruct (present s); simpl; rewrite ?length_app; simpl; lia.
Qed.

Lemma step_present s o :
  (present s = None → past s = [] ∧ future s = []) →
  (present (step s o) = None → past (step s o) = [] ∧ future (step s o) = []).
Proof.
  intros H. destruct o as [x| |]; simpl; [discriminate | |].
  - unfold undo. destruct (last (past s)); simpl; [discriminate | exact H].
  - unfold redo. destruct (future s) eqn:Ef; simpl; [|discriminate].
    rewrite Ef. exact H.
Qed.

(** Whatever is pushed, undone and redone, the steps kept before and after
    the present never number more than fifty together, so neither list
    outgrows [MAX_HISTORY]; and once something was pushed there is always a
    present snapshot. *)
Theorem history_is_bounded (ops : list (Op T)) :
  (length (past (run ops)) + length (future (run ops)) ≤ 50)%nat ∧
  (present (run ops) = None → ops = [] ∨ past (run ops) = [] ∧ future (run ops) = []) ∧
  (∀ x rest, ops = Push x :: rest → present (run ops) ≠ None).
Proof.
  split_and!.
  - unfold run. induction ops as [|o ops IH] using rev_ind; [simpl; lia|].
    rewrite foldl_app. simpl. by apply step_bounded.
  - intros H. right. revert H. unfold run.
    induction ops as [|o ops IH] using rev_ind; [done|].
    rewrite foldl_app. simpl. by apply step_present.
  - intros x rest ->. unfold run. simpl.
    assert (∀ s, present s ≠ None → present (foldl step s rest) ≠ None) as Hkeep.
    { induction rest as [|o rest IH]; intros s Hs; [done|]. simpl. apply IH.
      destruct o; simpl; [done | |].
      - unfold undo. by destruct (last (past s)).
      - unfold redo. by destruct (future s). }
    by apply Hkeep.
Qed.

(** [undo] and [redo] undo each other: with a present snapshot, [redo]
    after a successful [undo] returns that snapshot and restores the whole
    state, and so does [undo] after a successful [redo]. *)
Theorem undo_redo_round_trip s p :
  present s = Some p →
  (past s ≠ [] → redo (undo s).2 = (Some p, s)) ∧
  (future s ≠ [] → undo (redo s).2 = (Some p, s)).
Proof.
  destruct s as [pa pr fu]. simpl. intros ->. split.
  - intros Hne. unfold undo. simpl.
    destruct (last pa) as [prev|] eqn:El.
    2:{ apply last_None in El. done. }
    simpl. unfold redo. simpl. by rewrite take_before_last.
  - intros Hne. unfold redo. simpl. destruct fu as [|next rest]; [done|].
    simpl. unfold undo. simpl. rewrite last_snoc. simpl.
    rewrite length_app. simpl.
    replace (length pa + 1 - 1)%nat with (length pa) by lia.
    by rewrite take_app_length.
Qed.

(** [undo] right after [push] returns the snapshot that was present before
    the push and puts the pushed one first in the redo list; the past is as
    it was, except that with fifty steps already kept the oldest has been
    dropped.  [redo] right after [push] does nothing, and the very first
    push cannot be undone. *)
Theorem undo_after_push s x :
  (∀ y, present s = Some y →
        undo (push x s)
        = (Some y, {| past := drop (length (past s) - 49) (past s);
                      present := Some y; future := [x] |})) ∧
  redo (push x s) = (None, push x s) ∧
  undo (push x initial) = (None, push x initial).
Proof.
  split_and!; [|done|done].
  intros y Hy. unfold push. rewrite Hy.
  rewrite sliceLast_snoc by (unfold MAX_HISTORY; lia).
  unfold MAX_HISTORY. replace (50 - 1)%nat with 49%nat by done.
  unfold undo. simpl. rewrite last_snoc. simpl. f_equal. f_equal.
  rewrite length_app. simpl.
  replace (length (drop (length (past s) - 49) (past s)) + 1 - 1)%nat
    with (length (drop (length (past s) - 49) (past s))) by lia.
  by rewrite take_app_length.
Qed.

End WithSnapshot.

Lemma undo_redo_round_trip_witness :
  redo (undo (run [Push 1%nat; Push 2%nat; Push 3%nat])).2
  = (Some 3%nat, run [Push 1%nat; Push 2%nat; Push 3%nat]).
Proof.
  destruct (undo_redo_round_trip (run [Push 1%nat; Push 2%nat; Push 3%nat]) 3%nat eq_refl)
    as [H _].
  apply H. discriminate.
Defined.

Lemma undo_after_push_witness :
  undo (push 2%nat (push 1%nat initial))
  = (Some 1%nat, {| past := []; present := Some 1%nat; future := [2%nat] |}).
Proof.
  destruct (undo_after_push (push 1%nat initial) 2%nat) as [H _].
  exact (H 1%nat eq_refl).
Defined.

Lemma history_is_bounded_witness :
  present (run [Push 1%nat; Undo; Redo]) ≠ None.
Proof.
  destruct (history_is_bounded [Push 1%nat; Undo; Redo]) as (_ & _ & H).
  exact (H 1%nat [Undo; Redo] eq_refl).
Defined.

End UndoRedoFacts.

(** ** The request limiter *)

Module RateLimitFacts.
Import RateLimit.

Lemma foldl_min_spec (rest : list Z) (x : Z) :
  foldl Z.min x rest ∈ x :: rest ∧ ∀ y, y ∈ x :: rest → foldl Z.min x rest ≤ y.
Proof.
  revert x. induction rest as [|a rest IH]; intros x; simpl.
  - split; [by left|]. intros y ->%list_elem_of_singleton. done.
  - destruct (IH (Z.min x a)) as [Hin Hle]. split.
    + apply elem_of_cons in Hin as [Hm|Hin]; [|do 2 right; done].
      rewrite Hm. destruct (Z.min_spec x a) as [[_ ->]|[_ ->]]; [by left | right; by left].
    + intros y [->|[->|Hy]%elem_of_cons]%elem_of_cons.
      * etrans; [apply Hle; by left | apply Z.le_min_l].
      * etrans; [apply Hle; by left | apply Z.le_min_r].
      * apply Hle. by right.
Qed.

Lemma minOf_spec (l : list Z) :
  l ≠ [] → minOf l ∈ l ∧ ∀ y, y ∈ l → minOf l ≤ y.
Proof. destruct l as [|x rest]; [done|]. intros _. apply foldl_min_spec. Qed.

Lemma ceilDiv_bounds a k : 1 ≤ a → a ≤ 1000 * k → 1 ≤ ceilDiv a 1000 ≤ k.
Proof. intros H1 H2. unfold ceilDiv. Z.div_mod_to_equations. lia. Qed.

(** [checkAndRecord] lets a request through exactly when
    [getRemainingRequests], asked at the same instant about the same
    stored timestamps, reports that some of the minute's and some of the
    day's allowance is left. *)
Theorem allowed_iff_remaining now all :
  (∃ stored, checkAndRecord now all = inr stored) ↔
  0 < (getRemainingRequests now all).1 ∧ 0 < (getRemainingRequests now all).2.
Proof.
  unfold checkAndRecord, getRemainingRequests, MAX_PER_MINUTE, MAX_PER_DAY. simpl.
  repeat case_bool_decide; split;
    first [ by intros [stored [=]]
          | intros [? ?]; lia
          | intros _; split; lia
          | intros _; eauto ].
Qed.

Lemma last24h_idemp now all : last24h now (last24h now all ++ [now]) = last24h now all ++ [now].
Proof.
  unfold last24h. rewrite filter_app, list_filter_filter.
  rewrite filter_cons_True, filter_nil by lia.
  f_equal. apply list_filter_iff. tauto.
Qed.

(** A request that is let through is recorded after the timestamps of the
    last 24 hours, older ones being forgotten, and uses up exactly one unit
    of each allowance: afterwards at most five recorded requests fall in
    the last minute and at most fifty in the last day. *)
Theorem allowed_request_is_counted now all stored :
  checkAndRecord now all = inr stored →
  stored = last24h now all ++ [now] ∧
  getRemainingRequests now stored
  = ((getRemainingRequests now all).1 - 1, (getRemainingRequests now all).2 - 1) ∧
  (length (lastMinute now stored) ≤ 5)%nat ∧
  (length (last24h now stored) ≤ 50)%nat.
Proof.
  unfold checkAndRecord, MAX_PER_MINUTE, MAX_PER_DAY.
  repeat case_bool_decide; intros [= <-].
  assert (length (lastMinute now (last24h now all ++ [now]))
          = S (length (lastMinute now all))) as Hm.
  { unfold lastMinute. rewrite last24h_idemp.
    rewrite filter_app, filter_cons_True, filter_nil by lia.
    rewrite length_app. simpl. lia. }
  assert (length (last24h now (last24h now all ++ [now]))
          = S (length (last24h now all))) as Hd.
  { rewrite last24h_idemp, length_app. simpl. lia. }
  split_and!; [done | | lia | lia].
  unfold getRemainingRequests, MAX_PER_MINUTE, MAX_PER_DAY. rewrite Hm, Hd.
  f_equal; simpl; lia.
Qed.

Lemma allowed_request_is_counted_witness :
  getRemainingRequests 100000 [1; 50000; 60000; 70000; 80000; 100000] = (0, 44).
Proof.
  destruct (allowed_request_is_counted 100000 [1; 50000; 60000; 70000; 80000]
              [1; 50000; 60000; 70000; 80000; 100000] eq_refl) as (_ & H & _).
  exact H.
Defined.

(** A refused request is told to wait at least one second.  The minute
    limit is tested first; and when no stored timestamp lies in the future
    the wait is at most 60 seconds for the minute limit and at most 86400
    for the day limit. *)
Theorem refused_request_wait now all e :
  checkAndRecord now all = inl e →
  1 ≤ waitSeconds e ∧
  (scope e = minute ↔ (5 ≤ length (lastMinute now all))%nat) ∧
  ((∀ t, t ∈ all → t ≤ now) →
   waitSeconds e ≤ match scope e with minute => 60 | day => 86400 end).
Proof.
  unfold checkAndRecord, MAX_PER_MINUTE, MAX_PER_DAY.
  case_bool_decide as H1.
  - intros [= <-]. simpl.
    destruct (minOf_spec (lastMinute now all)) as [Hin _].
    { intros E. rewrite E in H1. simpl in H1. lia. }
    set (oldest := minOf (lastMinute now all)) in *.
    unfold lastMinute in Hin.
    apply list_elem_of_filter in Hin as [Hgt Hin]. unfold last24h in Hin.
    apply list_elem_of_filter in Hin as [_ Hall].
    split_and!.
    + apply (ceilDiv_bounds _ (oldest + 60000 - now)); lia.
    + split; [lia | done].
    + intros Hpast. specialize (Hpast _ Hall). apply (ceilDiv_bounds _ 60); lia.
  - case_bool_decide as H2; [|discriminate]. intros [= <-]. simpl.
    destruct (minOf_spec (last24h now all)) as [Hin _].
    { intros E. rewrite E in H2. simpl in H2. lia. }
    set (oldest := minOf (last24h now all)) in *.
    unfold last24h in Hin.
    apply list_elem_of_filter in Hin as [Hgt Hall].
    split_and!.
    + apply (ceilDiv_bounds _ (oldest + 86400000 - now)); lia.
    + split; [discriminate | lia].
    + intros Hpast. specialize (Hpast _ Hall). apply (ceilDiv_bounds _ 86400); lia.
Qed.

Lemma refused_request_wait_witness :
  ∃ e, checkAndRecord 100000 [1; 50000; 60000; 70000; 80000; 90000] = inl e ∧
       1 ≤ waitSeconds e ∧ scope e = minute.
Proof.
  destruct (checkAndRecord 100000 [1; 50000; 60000; 70000; 80000; 90000]) as [e|] eqn:E;
    [|vm_compute in E; discriminate].
  destruct (refused_request_wait 100000 [1; 50000; 60000; 70000; 80000; 90000] e E)
    as (Hw & Hs & _).
  exists e. split_and!; [reflexivity | exact Hw |]. apply Hs. vm_compute. lia.
Defined.

End RateLimitFacts.

(** ** Strings *)

Module TextFacts.
Import Text.

Lemma chars_append a b : chars (a +:+ b) = chars a ++ chars b.
Proof. induction a as [|x a IH]; [done|]. simpl. by rewrite IH. Qed.

Lemma chars_removeAll c s x : x ∈ chars (removeAll c s) ↔ x ∈ chars s ∧ x ≠ c.
Proof.
  induction s as [|y s IH]; simpl.
  - rewrite elem_of_nil. tauto.
  - case_decide as Hy; simpl; rewrite ?elem_of_cons, IH;
      [subst y|]; destruct (decide (x = c)); try subst; intuition congruence.
Qed.

Lemma chars_replaceAll c d s x :
  x ∈ chars (replaceAll c d s) ↔ (x = d ∧ c ∈ chars s) ∨ (x ∈ chars s ∧ x ≠ c).
Proof.
  induction s as [|y s IH]; simpl.
  - rewrite !elem_of_nil. tauto.
  - rewrite !elem_of_cons, IH. case_decide as Hy; [subst y|];
      destruct (decide (x = c)); try subst; intuition congruence.
Qed.

Lemma length_replaceAll c d s : String.length (replaceAll c d s) = String.length s.
Proof. induction s as [|y s IH]; [done|]. simpl. by rewrite IH. Qed.

End TextFacts.

(** ** Share links *)

Module UrlShareFacts.
Import Text TextFacts UrlShare.

(** Whatever [btoa] returns, the encoded text is free of the three
    characters that a query string would mangle: plus, slash and equals. *)
Theorem encoded_text_is_url_safe (btoa : string → string) (bytes : list ascii) (c : ascii) :
  c ∈ chars (base64urlEncode btoa bytes) →
  c ≠ "+"%char ∧ c ≠ "/"%char ∧ c ≠ "="%char.
Proof.
  unfold base64urlEncode, toUrlSafe.
  rewrite chars_removeAll, !chars_replaceAll.
  intros [[[-> _] | [[[-> _] | [_ ?]] ?]] ?]; split_and!; congruence.
Qed.

Lemma encoded_text_is_url_safe_witness :
  "-"%char ≠ "+"%char ∧ "-"%char ≠ "/"%char ∧ "-"%char ≠ "="%char.
Proof.
  apply (encoded_text_is_url_safe (λ _, "a+b/c==") []).
  vm_compute. right. by left.
Defined.

Lemma toUrlSafe_body_pad body pad :
  "="%char ∉ chars body → pad ∈ [""; "="; "=="] →
  toUrlSafe (body +:+ pad) = replaceAll "/" "_" (replaceAll "+" "-" body).
Proof.
  intros Hb Hp. unfold toUrlSafe. induction body as [|x body IH]; simpl.
  - rewrite !elem_of_cons, elem_of_nil in Hp. destruct Hp as [->|[->|[->|[]]]]; done.
  - simpl in Hb. apply not_elem_of_cons in Hb as [Hx Hb].
    rewrite <- (IH Hb).
    destruct (decide (x = "+"%char)) as [->|H1]; [done|].
    destruct (decide (x = "/"%char)) as [->|H2]; [done|].
    rewrite decide_False by congruence. done.
Qed.

Lemma fromUrlSafe_toUrlSafe body :
  "-"%char ∉ chars body → "_"%char ∉ chars body →
  fromUrlSafe (replaceAll "/" "_" (replaceAll "+" "-" body)) = body.
Proof.
  unfold fromUrlSafe. induction body as [|x body IH]; [done|]. simpl.
  intros [H1 Hb1]%not_elem_of_cons [H2 Hb2]%not_elem_of_cons.
  rewrite (IH Hb1 Hb2). f_equal.
  repeat case_decide; subst; congruence.
Qed.

Lemma padding_restored (n : nat) pad :
  pad ∈ [""; "="; "=="] → ((n + String.length pad) mod 4 = 0)%nat →
  String.substring 0 ((4 - n mod 4) mod 4) "==" = pad.
Proof.
  intros Hp Hm. rewrite !elem_of_cons, elem_of_nil in Hp.
  destruct Hp as [->|[->|[->|[]]]]; cbn [String.length] in Hm.
  - replace (n mod 4)%nat with 0%nat by (symmetry; rewrite <- Hm; f_equal; lia). done.
  - replace (n mod 4)%nat with 3%nat; [done|].
    pose proof (Nat.mod_upper_bound n 4 ltac:(lia)).
    pose proof (Nat.div_mod_eq n 4). pose proof (Nat.div_mod_eq (n + 1) 4). lia.
  - replace (n mod 4)%nat with 2%nat; [done|].
    pose proof (Nat.mod_upper_bound n 4 ltac:(lia)).
    pose proof (Nat.div_mod_eq n 4). pose proof (Nat.div_mod_eq (n + 2) 4). lia.
Qed.

(** Decoding undoes encoding.  When [btoa] returns well-formed base64 (a
    body without equals signs, minus signs or underscores, then at most two
    equals signs, a multiple of four characters in all) and [atob] inverts
    it on that text, [base64urlDecode] gives back the bytes that
    [base64urlEncode] was given: the stripped padding is recomputed from
    the length and the two replaced characters are put back. *)
Theorem base64url_round_trip
    (btoa : string → string) (atob : string → option string)
    (bytes : list ascii) (body pad : string) :
  btoa (String.string_of_list_ascii bytes) = body +:+ pad →
  (∀ c, c ∈ chars body → c ≠ "="%char ∧ c ≠ "-"%char ∧ c ≠ "_"%char) →
  pad ∈ [""; "="; "=="] →
  ((String.length body + String.length pad) mod 4 = 0)%nat →
  atob (body +:+ pad) = Some (String.string_of_list_ascii bytes) →
  withPadding (fromUrlSafe (base64urlEncode btoa bytes)) = body +:+ pad ∧
  base64urlDecode atob (base64urlEncode btoa bytes) = Some bytes.
Proof.
  intros Hbtoa Hbody Hpad Hlen Hatob.
  assert (withPadding (fromUrlSafe (base64urlEncode btoa bytes)) = body +:+ pad) as Hw.
  { unfold base64urlEncode. rewrite Hbtoa.
    rewrite toUrlSafe_body_pad; [| intros H; by destruct (Hbody _ H) | done].
    rewrite fromUrlSafe_toUrlSafe;
      [| intros H; by destruct (Hbody _ H) as (_ & ? & _)
       | intros H; by destruct (Hbody _ H) as (_ & _ & ?)].
    unfold withPadding. f_equal. by apply padding_restored. }
  split; [exact Hw|].
  unfold base64urlDecode. rewrite Hw, Hatob. simpl.
  by rewrite String.list_ascii_of_string_of_list_ascii.
Qed.

Lemma base64url_round_trip_witness :
  base64urlDecode (λ s, if decide (s = "aGk=") then Some "hi" else None)
    (base64urlEncode (λ _, "aGk=") ["h"%char; "i"%char])
  = Some ["h"%char; "i"%char].
Proof.
  refine (proj2 (base64url_round_trip (λ _, "aGk=")
                   (λ s, if decide (s = "aGk=") then Some "hi" else None)
                   ["h"%char; "i"%char] "aGk" "=" eq_refl _ _ eq_refl eq_refl)).
  - intros c Hc. change (c ∈ ["a"; "G"; "k"]%char) in Hc.
    rewrite !elem_of_cons, elem_of_nil in Hc.
    destruct Hc as [->|[->|[->|[]]]]; split_and!; discriminate.
  - right. by left.
Defined.

End UrlShareFacts.

(** ** Saved flows *)

Module FlowHistoryFacts.
Import FlowHistory.

Lemma length_save idTime savedTime prompt nodes edges graph prev :
  (length (save idTime savedTime prompt nodes edges graph prev) ≤ MAX_FLOWS)%nat.
Proof. unfold save. rewrite length_take. apply Nat.le_min_l. Qed.

Lemma flows_step_bounded trim flows o :
  (length flows ≤ MAX_FLOWS)%nat → (length (step trim flows o) ≤ MAX_FLOWS)%nat.
Proof.
  intros H. destruct o; cbn [step].
  - apply length_save.
  - unfold remove. pose proof (length_filter (λ f, sf_id f ≠ id) flows). lia.
  - unfold rename. by rewrite length_fmap.
Qed.

(** The list of saved flows never grows beyond [MAX_FLOWS]: a list within
    the bound stays within it under any sequence of saves, removals and
    renames. *)
Theorem saved_flows_bounded (trim : string → string) (ops : list Op) (flows : list SavedFlow) :
  (length flows ≤ MAX_FLOWS)%nat →
  (length (foldl (step trim) flows ops) ≤ MAX_FLOWS)%nat.
Proof.
  revert flows. induction ops as [|o ops IH]; intros flows H; [done|].
  simpl. apply IH. by apply flows_step_bounded.
Qed.

Lemma saved_flows_bounded_witness :
  (length (foldl (step id) [] (replicate 25 (Save 7 7 "p" [] [] None))) ≤ MAX_FLOWS)%nat.
Proof. apply saved_flows_bounded. simpl. lia. Defined.

(** Ids are the time of the save in milliseconds, so two saves in the same
    millisecond share one id, and removing by that id deletes both of them
    (and every older flow with the same id). *)
Theorem remove_deletes_same_millisecond_saves
    t s1 s2 p1 p2 n1 n2 e1 e2 g1 g2 prev :
  remove (pretty t) (save t s2 p2 n2 e2 g2 (save t s1 p1 n1 e1 g1 prev))
    = remove (pretty t) (take (MAX_FLOWS - 2) prev).
Proof.
  unfold save, remove. simpl.
  rewrite !filter_cons_False by (simpl; intros H; by apply H).
  f_equal. destruct prev as [|a prev]; [done|]. simpl.
  do 17 (destruct prev as [|? prev]; [done|]; simpl).
  destruct prev; done.
Qed.

Lemma remove_greatest id prev l :
  l `sublist_of` prev → (∀ f, f ∈ l → sf_id f ≠ id) → l `sublist_of` remove id prev.
Proof.
  unfold remove. induction 1 as [|x l1 l2 Hsub IH|x l1 l2 Hsub IH]; intros Hl.
  - constructor.
  - rewrite filter_cons_True by (apply Hl; by left).
    constructor. apply IH. intros f Hf. apply Hl. by right.
  - rewrite filter_cons. case_decide.
    + constructor. by apply IH.
    + by apply IH.
Qed.

(** Removing a flow keeps the other flows in their order: what is left is
    the saved list with entries struck out, none of the entries left has
    the id, and every way of striking entries out of the saved list that
    leaves none with the id can be obtained from it by striking out more;
    so exactly the flows with another id are left, as often and in the
    order they were there.  Removing an id that no flow has changes
    nothing. *)
Theorem remove_only_that_id id prev :
  remove id prev `sublist_of` prev ∧
  (∀ f, f ∈ remove id prev → sf_id f ≠ id) ∧
  (∀ l, l `sublist_of` prev → (∀ f, f ∈ l → sf_id f ≠ id) →
        l `sublist_of` remove id prev) ∧
  (id ∉ sf_id <$> prev → remove id prev = prev).
Proof.
  split_and!.
  - apply sublist_filter.
  - intros f. unfold remove. rewrite list_elem_of_filter. tauto.
  - intros l. apply remove_greatest.
  - intros Hn. unfold remove. induction prev as [|a prev IH]; [done|].
    rewrite fmap_cons, not_elem_of_cons in Hn. destruct Hn as [Ha Hn].
    rewrite filter_cons_True by (simpl; congruence). by rewrite IH.
Qed.

(** Renaming touches names only: the ids stay as they were, in order, so
    renaming and removing commute, whatever the two ids are. *)
Theorem rename_commutes_with_remove (trim : string → string) id name id' prev :
  sf_id <$> rename trim id name prev = sf_id <$> prev ∧
  remove id' (rename trim id name prev) = rename trim id name (remove id' prev).
Proof.
  split.
  - unfold rename. rewrite <- list_fmap_compose. apply list_fmap_ext.
    intros i f _. simpl. by case_decide.
  - unfold remove, rename. induction prev as [|a prev IH]; [done|].
    rewrite fmap_cons.
    destruct (decide (sf_id a = id')) as [Ha|Ha].
    + rewrite (filter_cons_False _ a) by (intros H; by apply H).
      rewrite filter_cons_False; [exact IH|].
      intros H; apply H. by case_decide.
    + rewrite (filter_cons_True _ a) by done.
      rewrite filter_cons_True; [by rewrite fmap_cons, IH|].
      by case_decide.
Qed.

End FlowHistoryFacts.

(** ** Mermaid export *)

Module MermaidFacts.
Import Text TextFacts Layout Mermaid.

Lemma chars_concat_inv x sep ls :
  x ∈ chars (String.concat sep ls) → x ∈ chars sep ∨ ∃ l, l ∈ ls ∧ x ∈ chars l.
Proof.
  induction ls as [|a ls IH]; simpl.
  - by intros ?%elem_of_nil.
  - destruct ls as [|b ls].
    + intros H. right. exists a. split; [by left | done].
    + rewrite !chars_append, !elem_of_app. intros [H|[H|H]].
      * right. exists a. split; [by left | done].
      * by left.
      * destruct (IH H) as [?|(l & Hl & Hx)]; [by left|].
        right. exists l. split; [by right | done].
Qed.

Lemma chars_concat x sep ls l :
  l ∈ ls → x ∈ chars l → x ∈ chars (String.concat sep ls).
Proof.
  induction ls as [|a ls IH]; [by intros ?%elem_of_nil|].
  intros Hl Hx. simpl. destruct ls as [|b ls].
  - apply list_elem_of_singleton in Hl. by subst.
  - rewrite !chars_append, !elem_of_app. apply elem_of_cons in Hl as [->|Hl]; [by left|].
    right. right. by apply IH.
Qed.

Lemma nodeLine_quote_free n : dquote ∉ chars (fn_id n) → dquote ∉ chars (nodeLine n).
Proof.
  intros Hid. unfold nodeLine.
  assert (dquote ∉ chars (replaceAll dquote "'" (fn_label n))) as Hl.
  { rewrite chars_replaceAll. intros [[[=] _]|[_ ?]]; done. }
  destruct (fn_type n); rewrite !chars_append, !elem_of_app;
    intros [H|[H|[H|[H|H]]]]; try done;
    revert H; cbn; rewrite ?elem_of_cons, elem_of_nil; intros H;
    repeat (destruct H as [H|H]; [discriminate H|]); done.
Qed.

Lemma edgeLine_quote_free e :
  dquote ∉ chars (fe_from e) → dquote ∉ chars (fe_to e) →
  (∀ l, fe_label e = Some l → dquote ∉ chars l) →
  dquote ∉ chars (edgeLine e).
Proof.
  intros Hf Ht Hl. unfold edgeLine.
  assert (∀ s, dquote ∉ chars ("  " +:+ fe_from e +:+ s +:+ fe_to e) ↔ dquote ∉ chars s) as Hs.
  { intros s. rewrite !chars_append, !elem_of_app. split; [tauto|].
    intros Hn [Hx|[Hx|[Hx|Hx]]]; try done.
    revert Hx. cbn. rewrite ?elem_of_cons, elem_of_nil. intros Hx.
    repeat (destruct Hx as [Hx|Hx]; [discriminate Hx|]). done. }
  destruct (fe_label e) as [l|]; [specialize (Hl l eq_refl); case_decide|].
  - apply Hs. apply (bool_decide_unpack _). vm_compute. exact I.
  - rewrite !chars_append, !elem_of_app. intros [Hx|[Hx|[Hx|[Hx|[Hx|Hx]]]]]; try done;
      revert Hx; cbn; rewrite ?elem_of_cons, elem_of_nil; intros Hx;
      repeat (destruct Hx as [Hx|Hx]; [discriminate Hx|]); done.
  - apply Hs. apply (bool_decide_unpack _). vm_compute. exact I.
Qed.

(** Double quotes in node labels never reach the exported text: when no
    node id, edge end or edge label holds a double quote, the Mermaid text
    holds none, whatever the node labels are. *)
Theorem export_drops_label_quotes graph :
  (∀ n, n ∈ nodes graph → dquote ∉ chars (fn_id n)) →
  (∀ e, e ∈ edges graph →
     (dquote ∉ chars (fe_from e)) ∧ (dquote ∉ chars (fe_to e)) ∧
     ∀ l, fe_label e = Some l → dquote ∉ chars l) →
  dquote ∉ chars (exportMermaid graph).
Proof.
  intros Hn He H. unfold exportMermaid in H.
  apply chars_concat_inv in H as [H|(l & Hl & Hx)].
  - cbn in H. apply list_elem_of_singleton in H. discriminate H.
  - unfold mermaidLines in Hl. rewrite elem_of_cons, elem_of_app in Hl.
    destruct Hl as [->|[Hl|Hl]].
    + revert Hx. cbn. rewrite ?elem_of_cons, elem_of_nil. intros H.
      repeat (destruct H as [H|H]; [discriminate H|]). done.
    + apply list_elem_of_fmap in Hl as (n & -> & Hin).
      by apply (nodeLine_quote_free n (Hn n Hin)).
    + apply list_elem_of_fmap in Hl as (e & -> & Hin).
      destruct (He e Hin) as (? & ? & ?). by apply (edgeLine_quote_free e).
Qed.

Lemma export_drops_label_quotes_witness :
  dquote ∉ chars (exportMermaid
    {| nodes := [mkFlowNode "1" (String dquote "Go" +:+ String dquote EmptyString) TStart;
                 mkFlowNode "2" "Done" TEnd];
       edges := [mkFlowEdge "1" "2" (Some "next")] |}).
Proof.
  apply export_drops_label_quotes.
  - intros n Hn. apply (bool_decide_unpack _).
    simpl in Hn. rewrite !elem_of_cons, elem_of_nil in Hn.
    destruct Hn as [->|[->|[]]]; vm_compute; exact I.
  - intros e ->%list_elem_of_singleton. split_and!.
    + apply (bool_decide_unpack _). vm_compute. exact I.
    + apply (bool_decide_unpack _). vm_compute. exact I.
    + intros l [= <-]. apply (bool_decide_unpack _). vm_compute. exact I.
Defined.

Lemma append_assoc (a b c : string) : (a +:+ b) +:+ c = a +:+ b +:+ c.
Proof.
  induction a as [|x a IH]; [done|].
  change (String x ((a +:+ b) +:+ c) = String x (a +:+ b +:+ c)). by rewrite IH.
Qed.

(** A string joined in after at least one other begins a line of the
    result: the separator is before it, and after it comes the separator
    or nothing. *)
Lemma concat_line (sep : string) (l1 l2 : list string) (x : string) :
  l1 ≠ [] →
  ∃ pre post,
    String.concat sep (l1 ++ x :: l2) = pre +:+ sep +:+ x +:+ post ∧
    (post = "" ∨ ∃ rest, post = sep +:+ rest).
Proof.
  induction l1 as [|a l1 IH]; [done|]. intros _.
  destruct l1 as [|b l1].
  - exists a. destruct l2 as [|c l2].
    + exists "". split; [|by left]. simpl.
      assert (x +:+ "" = x) as ->; [|done].
      clear. induction x as [|y x IH]; [done|].
      change (String y (x +:+ "") = String y x). by rewrite IH.
    + exists (sep +:+ String.concat sep (c :: l2)). split; [done|]. right. eauto.
  - destruct IH as (pre & post & Heq & Hpost); [done|].
    exists (a +:+ sep +:+ pre), post. split; [|done].
    change (String.concat sep ((a :: b :: l1) ++ x :: l2))
      with (a +:+ sep +:+ String.concat sep ((b :: l1) ++ x :: l2)).
    rewrite Heq. by rewrite !append_assoc.
Qed.

(** Edge labels are copied as they are.  The line of an edge with a
    non-empty label is the two spaces, the source id, the arrow, the label
    between two bars and the target id, with not a character of the label
    changed; it is the line that follows the node lines at the edge's own
    index, and it stands in the exported text as a line of its own. *)
Theorem export_copies_edge_labels graph (i : nat) e label :
  edges graph !! i = Some e → fe_label e = Some label → label ≠ "" →
  let line := "  " +:+ fe_from e +:+ " -->|" +:+ label +:+ "| " +:+ fe_to e in
  let newline := String (ascii_of_nat 10) EmptyString in
  mermaidLines graph !! (1 + length (nodes graph) + i)%nat = Some line ∧
  ∃ pre post,
    exportMermaid graph = pre +:+ newline +:+ line +:+ post ∧
    (post = "" ∨ ∃ rest, post = newline +:+ rest).
Proof.
  intros He Hl Hne line newline.
  assert (edgeLine e = line) as Hline.
  { unfold edgeLine. rewrite Hl. by rewrite decide_False. }
  split.
  - unfold mermaidLines. simpl.
    rewrite lookup_app_r by (rewrite length_fmap; lia).
    rewrite length_fmap.
    replace (length (nodes graph) + i - length (nodes graph))%nat with i by lia.
    by rewrite list_lookup_fmap, He, <- Hline.
  - unfold exportMermaid, mermaidLines.
    rewrite <- (take_drop_middle (edges graph) i e He), fmap_app, fmap_cons, Hline.
    rewrite app_comm_cons, app_assoc.
    apply concat_line. done.
Qed.

Lemma export_copies_edge_labels_witness :
  ∃ pre post,
    exportMermaid
      {| nodes := [mkFlowNode "1" "Go" TStart; mkFlowNode "2" "Done" TEnd];
         edges := [mkFlowEdge "1" "2" (Some (String dquote "ok"))] |}
    = pre +:+ String (ascii_of_nat 10) EmptyString
          +:+ ("  1 -->|" +:+ String dquote "ok" +:+ "| 2") +:+ post.
Proof.
  destruct (export_copies_edge_labels
              {| nodes := [mkFlowNode "1" "Go" TStart; mkFlowNode "2" "Done" TEnd];
                 edges := [mkFlowEdge "1" "2" (Some (String dquote "ok"))] |}
              0%nat (mkFlowEdge "1" "2" (Some (String dquote "ok"))) (String dquote "ok")
              eq_refl eq_refl ltac:(discriminate)) as (_ & pre & post & H & _).
  exists pre, post. exact H.
Defined.

End MermaidFacts.

(** ** Error messages *)

Module ErrorMessageFacts.
Import Text Layout ErrorMessage.

Lemma includes_suffix needle p s :
  includes needle s = true → includes needle (p +:+ s) = true.
Proof.
  intros H. induction p as [|a p IH]; [done|].
  change (String.prefix needle (String a (p +:+ s)) || includes needle (p +:+ s) = true).
  rewrite IH. apply orb_true_r.
Qed.

Lemma check_edges_message (ids : list string) (l : list FlowEdge) acc msg :
  foldl (λ acc edge,
           match acc with
           | inl msg => inl msg
           | inr _ =>
               if decide (fe_from edge ∉ ids)
               then inl ("Edge references unknown node: " +:+ fe_from edge)
               else if decide (fe_to edge ∉ ids)
               then inl ("Edge references unknown node: " +:+ fe_to edge)
               else inr ()
           end) acc l = inl msg →
  acc = inl msg ∨
  ∃ e, e ∈ l ∧ (msg = "Edge references unknown node: " +:+ fe_from e ∨
                msg = "Edge references unknown node: " +:+ fe_to e).
Proof.
  revert acc. induction l as [|a l IH]; intros acc H; [by left|].
  simpl in H. apply IH in H as [H|(e & He & Hm)].
  - destruct acc as [m|[]]; [by left|]. right. exists a. split; [by left|].
    repeat case_decide; simplify_eq; eauto.
  - right. exists e. split; [by right | done].
Qed.

Lemma validateFlow_message graph msg :
  validateFlow graph = inl msg →
  msg = "Missing start node" ∨ msg = "Missing end node" ∨
  ∃ e, e ∈ edges graph ∧ (msg = "Edge references unknown node: " +:+ fe_from e ∨
                          msg = "Edge references unknown node: " +:+ fe_to e).
Proof.
  unfold validateFlow.
  destruct (List.find _ (nodes graph)); [|intros [= <-]; by left].
  destruct (List.find _ (nodes graph)); [|intros [= <-]; right; by left].
  intros [H|H]%check_edges_message; [discriminate H|]. right. by right.
Qed.

(** A graph that [validateFlow] rejects is always reported with advice:
    the message with [. Try rephrasing.] appended, or, when the id of the
    unknown node happens to contain [Invalid JSON] or [Unexpected], the
    text about an answer that could not be parsed.  The bare message is
    never shown. *)
Theorem validation_errors_get_advice graph msg :
  validateFlow graph = inl msg →
  validationToast graph =
    Some (if includes "Invalid JSON" msg || includes "Unexpected" msg
          then "Could not parse AI response. Try rephrasing your description."
          else msg +:+ ". Try rephrasing.").
Proof.
  intros H. unfold validationToast. rewrite H. simpl. unfold byMessage.
  destruct (includes "Invalid JSON" msg || includes "Unexpected" msg); [done|].
  apply validateFlow_message in H as [->|[->|(e & _ & [->| ->])]]; [reflexivity..| |].
  - assert (includes "Edge references" ("Edge references unknown node: " +:+ fe_from e)
            = true) as -> by reflexivity.
    by rewrite orb_true_r.
  - assert (includes "Edge references" ("Edge references unknown node: " +:+ fe_to e)
            = true) as -> by reflexivity.
    by rewrite orb_true_r.
Qed.

Lemma validation_errors_get_advice_witness :
  validationToast {| nodes := [mkFlowNode "1" "Go" TStart]; edges := [] |}
    = Some "Missing end node. Try rephrasing.".
Proof.
  apply (validation_errors_get_advice
           {| nodes := [mkFlowNode "1" "Go" TStart]; edges := [] |} "Missing end node").
  reflexivity.
Defined.

(** An edge to an unknown node whose id contains [Unexpected] is reported
    as an answer that could not be parsed, not as the unknown node. *)
Theorem unknown_node_id_can_hide_the_error graph msg :
  validateFlow graph = inl msg →
  (∃ e, e ∈ edges graph ∧
        (msg = "Edge references unknown node: " +:+ fe_from e ∧
           includes "Unexpected" (fe_from e) = true ∨
         msg = "Edge references unknown node: " +:+ fe_to e ∧
           includes "Unexpected" (fe_to e) = true)) →
  validationToast graph
    = Some "Could not parse AI response. Try rephrasing your description.".
Proof.
  intros H (e & _ & He). unfold validationToast. rewrite H. simpl. unfold byMessage.
  assert (includes "Unexpected" msg = true) as ->.
  { destruct He as [[-> Hi]|[-> Hi]]; by apply includes_suffix. }
  by rewrite orb_true_r.
Qed.

Lemma unknown_node_id_can_hide_the_error_witness :
  validationToast
    {| nodes := [mkFlowNode "1" "Go" TStart; mkFlowNode "2" "Done" TEnd];
       edges := [mkFlowEdge "1" "Unexpected" None] |}
    = Some "Could not parse AI response. Try rephrasing your description.".
Proof.
  apply (unknown_node_id_can_hide_the_error _
           "Edge references unknown node: Unexpected"); [reflexivity|].
  exists (mkFlowEdge "1" "Unexpected" None). split; [by left|]. right. by split.
Defined.

End ErrorMessageFacts.
